(** * pwnypack.bytecode: assembler, disassembler and stack-depth analyser

    A shallow embedding of [pwnypack/bytecode.py] and the properties of
    its assembler, disassembler, block partitioner and stack-depth walk.

    Python integers are unbounded, hence [Z]; [bytes] values are
    [list byte]; dictionaries are [gmap]s; an exception is an explicit
    outcome.  A [Label] object has no payload and is compared by identity,
    so it is modelled by its allocation number. *)

From Stdlib Require Import ZArith Lia List Strings.String Strings.Byte.
From stdpp Require Import base decidable option list gmap strings.

Local Open Scope string_scope.
Local Open Scope list_scope.
Local Open Scope Z_scope.

(** ** Symbolic instruction model *)

(** [class Label(object)]: identity only. *)
Definition Label := nat.

(** The argument of an [Op]: [None], an [int] or a [Label]. *)
Inductive Arg :=
| ArgNone
| ArgInt (n : Z)
| ArgLabel (l : Label).

(** [class Op(object)]: [name] and [arg]. *)
Record Op := mkOp { name : string; arg : Arg }.

(** An element of a symbolic sequence. *)
Inductive Item :=
| IOp (o : Op)
| ILabel (l : Label).

#[global] Instance Arg_eq_dec : EqDecision Arg.
Proof. solve_decision. Defined.
#[global] Instance Op_eq_dec : EqDecision Op.
Proof. solve_decision. Defined.
#[global] Instance Item_eq_dec : EqDecision Item.
Proof. solve_decision. Defined.

(** ** Exceptions *)

Inductive exn :=
| ValueError_requires_argument       (* 'Opcode %s requires argument.' *)
| ValueError_no_argument             (* 'Opcode %s should not have an argument.' *)
| ValueError_unexpected_label        (* 'Did not expect label as argument for opcode %s.' *)
| ValueError_label_not_in_list       (* 'Label is not part of this op list.' *)
| ValueError_expected_label          (* 'Expected label as argument for opcode %s.' *)
| ValueError_incompatible            (* 'CodeObject is not compatible ...' *)
| KeyError                           (* dictionary lookup of a missing key *)
| IndexError                         (* sequence index out of range *)
| TypeError                          (* operand of the wrong type *)
| StopIteration                      (* [next] on an exhausted iterator *)
| ByteRangeError.                    (* [six.int2byte] outside [range(256)] *)

#[global] Instance exn_eq_dec : EqDecision exn.
Proof. solve_decision. Defined.

(** The five sanity checks of [assemble]. *)
Definition structural (e : exn) : bool :=
  match e with
  | ValueError_requires_argument | ValueError_no_argument
  | ValueError_unexpected_label | ValueError_label_not_in_list
  | ValueError_expected_label => true
  | _ => false
  end.

(** Result of a call that may raise. *)
Inductive res (A : Type) :=
| Ok (a : A)
| Raise (e : exn).
Arguments Ok {A} a.
Arguments Raise {A} e.

#[global] Instance res_bind : MBind res := fun A B k r =>
  match r with
  | Ok a => k a
  | Raise e => Raise e
  end.

(** Result of a loop that is run with a bound on its iterations. *)
Inductive run (A : Type) :=
| Returns (a : A)
| Raises (e : exn)
| OutOfFuel.
Arguments Returns {A} a.
Arguments Raises {A} e.
Arguments OutOfFuel {A}.

(** ** The instruction-set descriptor ([py_internals]) *)

(** A stack effect is a number or a callable of the argument. *)
Inductive StackEffect :=
| EffConst (n : Z)
| EffFun (f : Arg -> res Z).

Record PyInternals := mkPyInternals {
  opname : list string;               (* mnemonic by opcode number *)
  opmap : gmap string Z;              (* opcode number by mnemonic *)
  hasjrel : list Z;
  hasjabs : list Z;
  have_argument : Z;
  extended_arg : Z;
  stackeffect : gmap string StackEffect;
  stackeffect_traits : Z
}.

(** ** Bytes *)

Definition byte2int (b : byte) : Z := Z.of_N (Byte.to_N b).

(** [six.int2byte]: [chr] or [struct.Struct(">B").pack]. *)
Definition int2byte (n : Z) : option byte :=
  if n <? 0 then None else Byte.of_N (Z.to_N n).

(** [encode_op], nested in [assemble]. *)
Definition encode_op (op_code : Z) (op_arg : option Z) : option (list byte) :=
  match op_arg with
  | None => c ← int2byte op_code; Some [c]
  | Some op_arg =>
      c ← int2byte op_code;
      lo ← int2byte (Z.land op_arg 255);
      hi ← int2byte (Z.shiftr op_arg 8);
      Some [c; lo; hi]
  end.

(** ** assemble *)

(** The local variables of one pass of [assemble]. *)
Record pass_state := mkPass {
  output : list byte;
  label_address : gmap Label Z;
  retry : bool;
  address : Z
}.

(** How the body of the [for] loop ends for one element: normally, or by
    an exception, with the locals as they are when it is raised. *)
Inductive outcome :=
| Next (st : pass_state)
| Abort (e : exn) (st : pass_state).

Section Assemble.
Variable py_internals : PyInternals.

Definition is_jrel (op_code : Z) : bool := bool_decide (op_code ∈ hasjrel py_internals).
Definition is_jabs (op_code : Z) : bool := bool_decide (op_code ∈ hasjabs py_internals).
Definition is_jump (op_code : Z) : bool := is_jrel op_code || is_jabs op_code.

(** Lines 241-250: encode a resolved argument. *)
Definition emit (st : pass_state) (op_code op_arg : Z) : outcome :=
  let ext :=
    if 65536 <=? op_arg then
      match encode_op (extended_arg py_internals) (Some (Z.shiftr op_arg 16)) with
      | None => inr st
      | Some bs =>
          inl (mkPass (output st ++ bs) (label_address st) (retry st) (address st + 3),
               Z.land op_arg 65535)
      end
    else inl (st, op_arg) in
  match ext with
  | inr st => Abort ByteRangeError st
  | inl (st, op_arg) =>
      match encode_op op_code (Some op_arg) with
      | None => Abort ByteRangeError st
      | Some bs =>
          Next (mkPass (output st ++ bs) (label_address st) (retry st) (address st + 3))
      end
  end.

(** The body of [for op in ops], lines 191-250; [ops] is the whole list,
    needed by the test [op_arg not in ops]. *)
Definition step (ops : list Item) (st : pass_state) (op : Item) : outcome :=
  match op with
  | ILabel l =>
      if decide (label_address st !! l = Some (address st)) then Next st
      else Next (mkPass (output st) (<[l := address st]> (label_address st)) true (address st))
  | IOp o =>
      match opmap py_internals !! name o with
      | None => Abort KeyError st
      | Some op_code =>
          match arg o with
          | ArgNone =>
              if have_argument py_internals <=? op_code
              then Abort ValueError_requires_argument st
              else
                match encode_op op_code None with
                | None => Abort ByteRangeError st
                | Some bs =>
                    Next (mkPass (output st ++ bs) (label_address st) (retry st) (address st + 1))
                end
          | ArgInt n =>
              if op_code <? have_argument py_internals
              then Abort ValueError_no_argument st
              else if is_jump op_code
              then Abort ValueError_expected_label st
              else emit st op_code n
          | ArgLabel l =>
              if op_code <? have_argument py_internals
              then Abort ValueError_no_argument st
              else if negb (is_jump op_code)
              then Abort ValueError_unexpected_label st
              else if negb (bool_decide (ILabel l ∈ ops))
              then Abort ValueError_label_not_in_list st
              else
                match label_address st !! l with
                | None =>
                    if is_jabs op_code && (65535 <? address st)
                    then Next (mkPass (output st) (label_address st) (retry st) (address st + 6))
                    else Next (mkPass (output st) (label_address st) (retry st) (address st + 3))
                | Some a =>
                    if is_jrel op_code
                    then emit st op_code (a - (address st + 3))
                    else emit st op_code a
                end
          end
      end
  end.

(** The [for] loop over a part [rest] of [ops]. *)
Fixpoint steps (ops rest : list Item) (st : pass_state) : outcome :=
  match rest with
  | [] => Next st
  | op :: rest =>
      match step ops st op with
      | Next st => steps ops rest st
      | Abort e st => Abort e st
      end
  end.

(** One iteration of [while retry], lines 187-250. *)
Definition pass (ops : list Item) (la : gmap Label Z) : outcome :=
  steps ops ops (mkPass [] la false 0).

(** [while retry: ...], bounded by [fuel] passes. *)
Fixpoint assemble_loop (fuel : nat) (ops : list Item) (la : gmap Label Z)
  : run (list byte) :=
  match fuel with
  | O => OutOfFuel
  | S fuel =>
      match pass ops la with
      | Abort e _ => Raises e
      | Next st =>
          if retry st then assemble_loop fuel ops (label_address st)
          else Returns (output st)
      end
  end.

Definition assemble (fuel : nat) (ops : list Item) : run (list byte) :=
  assemble_loop fuel ops ∅.

End Assemble.

(** ** disassemble *)

(** [seq[i]] on a Python list, negative indices counting from the end. *)
Definition getitem {A} (l : list A) (i : Z) : res A :=
  let j := if i <? 0 then i + Z.of_nat (length l) else i in
  if j <? 0 then Raise IndexError
  else match l !! Z.to_nat j with
       | Some x => Ok x
       | None => Raise IndexError
       end.

(** [d.setdefault(k, v)]: the value stored, and the dictionary after. *)
Definition setdefault (d : gmap Z Label) (k : Z) (v : Label) : Label * gmap Z Label :=
  match d !! k with
  | Some x => (x, d)
  | None => (v, <[k := v]> d)
  end.

(** The locals of the first loop of [disassemble]; [fresh] counts the
    [Label()] objects created so far. *)
Record scan_state := mkScan {
  ext_arg : Z;
  addr_labels : gmap Z Label;
  addr_ops : list (Z * option Op);
  fresh : nat
}.

Section Disassemble.
Variable py_internals : PyInternals.

(** Lines 112-115: the number that the two argument bytes stand for; for
    a jump, the address of its target. *)
Definition numeric_arg (ext_arg op_addr op_code : Z) (a b : byte) : Z :=
  let arg := byte2int a + Z.shiftl (byte2int b) 8 + ext_arg in
  if is_jrel py_internals op_code then arg + (op_addr + 3) else arg.

(** Lines 112-118: the argument of an opcode that has one. *)
Definition scan_arg (st : scan_state) (op_addr op_code : Z) (a b : byte)
  : Arg * gmap Z Label * nat :=
  let arg := numeric_arg (ext_arg st) op_addr op_code a b in
  if is_jump py_internals op_code then
    let '(l, d) := setdefault (addr_labels st) arg (fresh st) in
    (ArgLabel l, d, S (fresh st))
  else (ArgInt arg, addr_labels st, fresh st).

(** Lines 121-131: the rest of the loop body. *)
Definition scan_op (ext_arg_name : string) (st : scan_state) (op_addr op_code : Z)
    (arg : Arg) (d : gmap Z Label) (n : nat) : res scan_state :=
  op_name ← getitem (opname py_internals) op_code;
  if decide (op_name = ext_arg_name) then
    match arg with
    | ArgInt arg => Ok (mkScan (Z.shiftl arg 16) d (addr_ops st ++ [(op_addr, None)]) n)
    | _ => Raise TypeError
    end
  else Ok (mkScan 0 d (addr_ops st ++ [(op_addr, Some (mkOp op_name arg))]) n).

(** [for op_addr, op_code in code_iter], lines 108-131. *)
Fixpoint scan (ext_arg_name : string) (code : list byte) (op_addr : Z) (st : scan_state)
  : res scan_state :=
  match code with
  | [] => Ok st
  | c :: rest =>
      let op_code := byte2int c in
      if have_argument py_internals <=? op_code then
        match rest with
        | a :: b :: rest =>
            let '(arg, d, n) := scan_arg st op_addr op_code a b in
            st ← scan_op ext_arg_name st op_addr op_code arg d n;
            scan ext_arg_name rest (op_addr + 3) st
        | _ => Raise StopIteration
        end
      else
        st ← scan_op ext_arg_name st op_addr op_code ArgNone (addr_labels st) (fresh st);
        scan ext_arg_name rest (op_addr + 1) st
  end.

(** [for op_addr, op in addr_ops], lines 133-140. *)
Fixpoint splice (d : gmap Z Label) (addr_ops : list (Z * option Op)) : list Item :=
  match addr_ops with
  | [] => []
  | (op_addr, op) :: rest =>
      match d !! op_addr with Some l => [ILabel l] | None => [] end
      ++ match op with Some o => [IOp o] | None => [] end
      ++ splice d rest
  end.

(** Lines 96-131. *)
Definition scan_code (code : list byte) : res scan_state :=
  ext_arg_name ← getitem (opname py_internals) (extended_arg py_internals);
  scan ext_arg_name code 0 (mkScan 0 ∅ [] 0).

Definition disassemble (code : list byte) : res (list Item) :=
  st ← scan_code code;
  Ok (splice (addr_labels st) (addr_ops st)).

End Disassemble.

(** ** Blocks *)

(** [class Block(object)], with the two attributes that
    [calculate_max_stack_depth] adds.  Block objects live in a store
    (a list); a reference to a block is its index there. *)
Record Block := mkBlock {
  label : option Label;
  ops : list Op;
  next : option nat;
  seen : bool;
  startdepth : Z
}.

(** [Block(label)]; [seen] and [startdepth] are not set by [__init__] and
    are never read before [calculate_max_stack_depth] has set them. *)
Definition new_block (label : option Label) : Block := mkBlock label [] None false 0.

Definition set_next (n : nat) (b : Block) : Block :=
  mkBlock (label b) (ops b) (Some n) (seen b) (startdepth b).
Definition append_op (o : Op) (b : Block) : Block :=
  mkBlock (label b) (ops b ++ [o]) (next b) (seen b) (startdepth b).
Definition set_seen (s : bool) (b : Block) : Block :=
  mkBlock (label b) (ops b) (next b) s (startdepth b).
Definition set_startdepth (d : Z) (b : Block) : Block :=
  mkBlock (label b) (ops b) (next b) (seen b) d.

(** The locals of [blocks_from_ops] and the store of the blocks made. *)
Record blocks_state := mkBlocks {
  store : list Block;
  blocks : gmap (option Label) nat;
  current_block : nat
}.

(** The body of [for op in ops] in [blocks_from_ops]. *)
Definition blocks_step (st : blocks_state) (op : Item) : blocks_state :=
  match op with
  | ILabel l =>
      let next_block := length (store st) in
      mkBlocks (alter (set_next next_block) (current_block st) (store st)
                  ++ [new_block (Some l)])
               (<[Some l := next_block]> (blocks st))
               next_block
  | IOp o =>
      mkBlocks (alter (append_op o) (current_block st) (store st))
               (blocks st) (current_block st)
  end.

Definition blocks_from_ops (ops : list Item) : blocks_state :=
  fold_left blocks_step ops (mkBlocks [new_block None] {[None := 0%nat]} 0%nat).

(** ** calculate_max_stack_depth *)

Definition run_bind {A B} (r : run A) (k : A -> run B) : run B :=
  match r with
  | Returns a => k a
  | Raises e => Raises e
  | OutOfFuel => OutOfFuel
  end.

#[global] Instance run_mbind : MBind run := fun A B k r => run_bind r k.

Definition lift {A} (r : res A) : run A :=
  match r with
  | Ok a => Returns a
  | Raise e => Raises e
  end.

(** [d[k]] on a dictionary. *)
Definition dict_get `{Countable K} {V} (d : gmap K V) (k : K) : res V :=
  match d !! k with
  | Some v => Ok v
  | None => Raise KeyError
  end.

(** Lines 321-324: [while block: ...; block = block.next]. *)
Fixpoint reset_blocks (fuel : nat) (block : option nat) (store : list Block)
  : run (list Block) :=
  match block with
  | None => Returns store
  | Some h =>
      match fuel with
      | O => OutOfFuel
      | S fuel =>
          match store !! h with
          | None => Raises KeyError
          | Some b =>
              reset_blocks fuel (next b)
                (<[h := set_startdepth (-1) (set_seen false b)]> store)
          end
      end
  end.

(** The first argument of [walk]: a [Block], or a key of [blocks]. *)
Inductive block_ref :=
| RBlock (h : nat)
| RKey (k : Arg).

Section StackDepth.
Variable py_internals : PyInternals.
Variable blocks : gmap (option Label) nat.

(** Lines 333-334. *)
Definition resolve (block : block_ref) : res nat :=
  match block with
  | RBlock h => Ok h
  | RKey ArgNone => dict_get blocks None
  | RKey (ArgLabel l) => dict_get blocks (Some l)
  | RKey (ArgInt _) => Raise KeyError
  end.

(** Lines 343-345. *)
Definition effect_of (op : Op) : res Z :=
  effect ← dict_get (stackeffect py_internals) (name op);
  match effect with
  | EffConst n => Ok n
  | EffFun f => f (arg op)
  end.

Definition name_in (op : Op) (names : list string) : bool :=
  bool_decide (name op ∈ names).

(** Lines 353-364: the depth at the jump target, and the new [depth] and
    [max_depth]. *)
Definition branch_depths (op : Op) (depth max_depth : Z) : Z * Z * Z :=
  let target_depth := depth in
  let traits := stackeffect_traits py_internals in
  let '(target_depth, max_depth) :=
    if negb (Z.land traits 1 =? 0) then
      if name_in op ["FOR_ITER"] then (target_depth - 2, max_depth)
      else if name_in op ["SETUP_FINALLY"; "SETUP_EXCEPT"] then
        let target_depth := target_depth + 3 in
        (target_depth, if max_depth <? target_depth then target_depth else max_depth)
      else (target_depth, max_depth)
    else (target_depth, max_depth) in
  let depth :=
    if negb (Z.land traits 2 =? 0) then
      if name_in op ["JUMP_IF_TRUE_OR_POP"; "JUMP_IF_FALSE_OR_POP"] then depth - 1
      else depth
    else depth in
  (target_depth, depth, max_depth).

(** The [for op in block.ops] loop of [walk] with its [else] clause, lines
    342-372, for a block whose successor is [next_block]; [walk] is the
    function called at lines 366 and 372. *)
Definition walk_ops (walk : block_ref -> Z -> Z -> list Block -> run (Z * list Block))
    (next_block : option nat)
  : list Op -> Z -> Z -> list Block -> run (Z * list Block) :=
  fix loop (l : list Op) (depth max_depth : Z) (store : list Block) :=
    match l with
    | [] =>
        match next_block with
        | Some n => walk (RBlock n) depth max_depth store
        | None => Returns (max_depth, store)
        end
    | op :: l =>
        effect ← lift (effect_of op);
        let depth := depth + effect in
        let max_depth := if max_depth <? depth then depth else max_depth in
        op_code ← lift (dict_get (opmap py_internals) (name op));
        r ← (if is_jrel py_internals op_code || is_jabs py_internals op_code
             then
               let '(target_depth, depth, max_depth) :=
                 branch_depths op depth max_depth in
               r ← walk (RKey (arg op)) target_depth max_depth store;
               Returns (depth, r.1, r.2)
             else Returns (depth, max_depth, store));
        let '(depth, max_depth, store) := r in
        if name_in op ["JUMP_ABSOLUTE"; "JUMP_FORWARD"]
        then Returns (max_depth, store)
        else loop l depth max_depth store
    end.

(** [walk], lines 332-376; the store of blocks is threaded through, and
    [fuel] bounds the depth of the recursion. *)
Fixpoint walk (fuel : nat) (block : block_ref) (depth max_depth : Z)
    (store : list Block) : run (Z * list Block) :=
  match fuel with
  | O => OutOfFuel
  | S fuel =>
      h ← lift (resolve block);
      b ← lift (match store !! h with Some b => Ok b | None => Raise KeyError end);
      if seen b || (depth <=? startdepth b) then Returns (max_depth, store)
      else
        let store := <[h := set_startdepth depth (set_seen true b)]> store in
        r ← walk_ops (walk fuel) (next b) (ops b) depth max_depth store;
        Returns (r.1, alter (set_seen false) h r.2)
  end.

End StackDepth.

Definition calculate_max_stack_depth (py_internals : PyInternals) (fuel : nat)
    (ops : list Item) : run Z :=
  let st := blocks_from_ops ops in
  h ← lift (dict_get (blocks st) None);
  store ← reset_blocks fuel (Some h) (store st);
  r ← walk py_internals (blocks st) fuel (RKey ArgNone) 0 0 store;
  Returns r.1.

(** ** CodeObject *)

Section CodeObject.
(** The constants of a code object are arbitrary Python values. *)
Variable PyObject : Type.

Record CodeObject := mkCodeObject {
  co_argcount : Z;
  co_kwonlyargcount : Z;
  co_nlocals : Z;
  co_stacksize : Z;
  co_flags : Z;
  co_code : list byte;
  co_consts : list PyObject;
  co_names : list string;
  co_varnames : list string;
  co_filename : string;
  co_name : string;
  co_firstlineno : Z;
  co_lnotab : list byte;
  co_freevars : list string;
  co_cellvars : list string;
  co_py_internals : PyInternals
}.

Definition set_py_internals (p : PyInternals) (self : CodeObject) : CodeObject :=
  mkCodeObject (co_argcount self) (co_kwonlyargcount self) (co_nlocals self)
    (co_stacksize self) (co_flags self) (co_code self) (co_consts self)
    (co_names self) (co_varnames self) (co_filename self) (co_name self)
    (co_firstlineno self) (co_lnotab self) (co_freevars self) (co_cellvars self) p.

Definition set_co_code (c : list byte) (self : CodeObject) : CodeObject :=
  mkCodeObject (co_argcount self) (co_kwonlyargcount self) (co_nlocals self)
    (co_stacksize self) (co_flags self) c (co_consts self)
    (co_names self) (co_varnames self) (co_filename self) (co_name self)
    (co_firstlineno self) (co_lnotab self) (co_freevars self) (co_cellvars self)
    (co_py_internals self).

Definition set_co_stacksize (n : Z) (self : CodeObject) : CodeObject :=
  mkCodeObject (co_argcount self) (co_kwonlyargcount self) (co_nlocals self)
    n (co_flags self) (co_code self) (co_consts self)
    (co_names self) (co_varnames self) (co_filename self) (co_name self)
    (co_firstlineno self) (co_lnotab self) (co_freevars self) (co_cellvars self)
    (co_py_internals self).

(** [CodeObject.assemble]: the object as the call leaves it, and how the
    call ends ([self] is returned on success). *)
Definition CodeObject_assemble (fuel : nat) (self : CodeObject) (ops : list Item)
    (py_internals : option PyInternals) : CodeObject * run unit :=
  let '(py_internals, self) :=
    match py_internals with
    | None => (co_py_internals self, self)
    | Some p => (p, set_py_internals p self)
    end in
  match assemble py_internals fuel ops with
  | Raises e => (self, Raises e)
  | OutOfFuel => (self, OutOfFuel)
  | Returns code =>
      let self := set_co_code code self in
      match calculate_max_stack_depth py_internals fuel ops with
      | Raises e => (self, Raises e)
      | OutOfFuel => (self, OutOfFuel)
      | Returns depth => (set_co_stacksize depth self, Returns ())
      end
  end.

(** [CodeObject.disassemble]. *)
Definition CodeObject_disassemble (self : CodeObject) : res (list Item) :=
  disassemble (co_py_internals self) (co_code self).

End CodeObject.

(** ** A descriptor to run the code on

    The opcode tables are data that the functions above receive.  This one
    has the numbering of CPython 2.7 for the opcodes used below. *)

Definition sample_opcodes : list (string * Z) :=
  [("POP_TOP", 1); ("NOP", 9); ("BINARY_ADD", 23); ("RETURN_VALUE", 83);
   ("POP_BLOCK", 87); ("FOR_ITER", 93); ("LOAD_CONST", 100);
   ("JUMP_FORWARD", 110); ("JUMP_IF_FALSE_OR_POP", 111);
   ("JUMP_IF_TRUE_OR_POP", 112); ("JUMP_ABSOLUTE", 113);
   ("POP_JUMP_IF_FALSE", 114); ("POP_JUMP_IF_TRUE", 115);
   ("SETUP_LOOP", 120); ("SETUP_EXCEPT", 121); ("SETUP_FINALLY", 122);
   ("LOAD_FAST", 124); ("EXTENDED_ARG", 145)].

Definition sample_opname : list string :=
  map (fun i : nat =>
         match find (fun p => Z.of_nat i =? p.2) sample_opcodes with
         | Some p => p.1
         | None => "<unknown>"
         end) (seq 0 256).

Definition sample_stackeffect : list (string * StackEffect) :=
  [("POP_TOP", EffConst (-1)); ("NOP", EffConst 0); ("BINARY_ADD", EffConst (-1));
   ("RETURN_VALUE", EffConst (-1)); ("POP_BLOCK", EffConst 0);
   ("FOR_ITER", EffConst 1); ("LOAD_CONST", EffConst 1);
   ("JUMP_FORWARD", EffConst 0); ("JUMP_IF_FALSE_OR_POP", EffConst 0);
   ("JUMP_IF_TRUE_OR_POP", EffConst 0); ("JUMP_ABSOLUTE", EffConst 0);
   ("POP_JUMP_IF_FALSE", EffConst (-1)); ("POP_JUMP_IF_TRUE", EffConst (-1));
   ("SETUP_LOOP", EffConst 0); ("SETUP_EXCEPT", EffConst 0);
   ("SETUP_FINALLY", EffConst 0); ("LOAD_FAST", EffConst 1);
   ("EXTENDED_ARG", EffConst 0)].

Definition sample_internals : PyInternals :=
  mkPyInternals sample_opname (list_to_map sample_opcodes)
    [93; 110; 120; 121; 122] [111; 112; 113; 114; 115]
    90 145 (list_to_map sample_stackeffect) 1.

(** * Predicates and examples used in the statements *)

(** The state in which a pass starts. *)
Definition pass_start (la : gmap Label Z) : pass_state := mkPass [] la false 0.

(** The five structural mismatches of an [Op], each under the name of the
    sanity check that reports it. *)
Definition mismatch (py_internals : PyInternals) (ops : list Item) (o : Op) (e : exn)
  : Prop :=
  exists op_code, opmap py_internals !! name o = Some op_code /\
  match e with
  | ValueError_no_argument =>
      arg o <> ArgNone /\ op_code < have_argument py_internals
  | ValueError_requires_argument =>
      arg o = ArgNone /\ have_argument py_internals <= op_code
  | ValueError_expected_label =>
      (exists n, arg o = ArgInt n) /\ is_jump py_internals op_code = true
  | ValueError_unexpected_label =>
      (exists l, arg o = ArgLabel l) /\ is_jump py_internals op_code = false
  | ValueError_label_not_in_list =>
      exists l, arg o = ArgLabel l /\ ILabel l ∉ ops
  | _ => False
  end.

(** A sequence with one of the five mismatches. *)
Definition defective (py_internals : PyInternals) (ops : list Item) : Prop :=
  exists o e, IOp o ∈ ops /\ mismatch py_internals ops o e.

(** The first loop of [disassemble] without line 118: a jump keeps the
    address of its target as its argument.  It says what address each jump
    of the labelled result stands for. *)
Fixpoint scan_numeric (py_internals : PyInternals) (ext_arg_name : string)
    (code : list byte) (op_addr : Z) (st : scan_state) : res scan_state :=
  match code with
  | [] => Ok st
  | c :: rest =>
      let op_code := byte2int c in
      if have_argument py_internals <=? op_code then
        match rest with
        | a :: b :: rest =>
            let arg := numeric_arg py_internals (ext_arg st) op_addr op_code a b in
            st ← scan_op py_internals ext_arg_name st op_addr op_code (ArgInt arg) ∅ 0;
            scan_numeric py_internals ext_arg_name rest (op_addr + 3) st
        | _ => Raise StopIteration
        end
      else
        st ← scan_op py_internals ext_arg_name st op_addr op_code ArgNone ∅ 0;
        scan_numeric py_internals ext_arg_name rest (op_addr + 1) st
  end.

Definition scan_numeric_code (py_internals : PyInternals) (code : list byte)
  : res scan_state :=
  ext_arg_name ← getitem (opname py_internals) (extended_arg py_internals);
  scan_numeric py_internals ext_arg_name code 0 (mkScan 0 ∅ [] 0).

(** An entry of [addr_ops] against the entry of the numeric scan: the same,
    or the instruction whose numeric argument [t] has become the label
    that [d] keeps for the address [t]. *)
Definition labelled (d : gmap Z Label) (e n : Z * option Op) : Prop :=
  e.1 = n.1 /\
  (e.2 = n.2 \/
   exists nm t l, n.2 = Some (mkOp nm (ArgInt t))
                  /\ e.2 = Some (mkOp nm (ArgLabel l)) /\ d !! t = Some l).

(** What one entry of [addr_ops] adds to the result (lines 135-140). *)
Definition splice_entry (d : gmap Z Label) (e : Z * option Op) : list Item :=
  match d !! e.1 with Some l => [ILabel l] | None => [] end
  ++ match e.2 with Some o => [IOp o] | None => [] end.

(** What the first loop of [disassemble] keeps true, stated against the
    numeric scan [stn] of the same bytes up to the address [a]. *)
Definition scan_inv (a : Z) (st stn : scan_state) : Prop :=
  ext_arg stn = ext_arg st
  /\ Forall2 (labelled (addr_labels st)) (addr_ops st) (addr_ops stn)
  /\ (forall e, e ∈ addr_ops st -> e.1 < a)
  /\ NoDup (addr_ops st).*1
  /\ (forall t l, addr_labels st !! t = Some l -> (l < fresh st)%nat)
  /\ (forall t1 t2 l, addr_labels st !! t1 = Some l ->
                      addr_labels st !! t2 = Some l -> t1 = t2).

(** The blocks of the store that are not marked [seen]. *)
Definition unseen (store : list Block) : nat :=
  length (filter (fun s : bool => s = false) (seen <$> store)).

(** Fuel that [calculate_max_stack_depth] never exhausts: one more than
    the number of blocks, which is one more than the number of label
    elements. *)
Definition depth_fuel (ops : list Item) : nat :=
  S (length (store (blocks_from_ops ops))).

(** The labels among the elements of a sequence. *)
Definition labels_of (ops : list Item) : list Label :=
  omap (fun x => match x with ILabel l => Some l | IOp _ => None end) ops.

(** What [blocks_from_ops] keeps true: the blocks are chained in the order
    of the store and the current block is the last one. *)
Definition chained (store : list Block) : Prop :=
  forall i b, store !! i = Some b ->
    next b = if decide (S i < length store)%nat then Some (S i) else None.

(** What [blocks_from_ops] keeps true of its locals. *)
Definition blocks_inv (st : blocks_state) : Prop :=
  chained (store st)
  /\ S (current_block st) = length (store st)
  /\ blocks st !! None = Some 0%nat.

(** The bytes that an argument takes: six with the extended-argument
    prefix, three without. *)
Definition arg_size (op_arg : Z) : Z := if 65536 <=? op_arg then 6 else 3.

(** How far the address moves over an instruction with opcode [op_code],
    read off lines 200-250: [la] is [label_address] and [addr] is [address]
    when the instruction is reached. *)
Definition op_advance (py_internals : PyInternals) (la : gmap Label Z) (addr : Z)
    (o : Op) (op_code : Z) : Z :=
  match arg o with
  | ArgNone => 1
  | ArgInt n => arg_size n
  | ArgLabel l =>
      match la !! l with
      | None => if is_jabs py_internals op_code && (65535 <? addr) then 6 else 3
      | Some a =>
          if is_jrel py_internals op_code then arg_size (a - (addr + 3))
          else arg_size a
      end
  end.

(** No opcode is both a relative and an absolute jump. *)
Definition disjoint_jumps (py_internals : PyInternals) : Prop :=
  forall op_code, is_jrel py_internals op_code = true ->
                  is_jabs py_internals op_code = false.

(** [lb] records every label of [la], at an address that is not smaller
    (and differs by whole three-byte prefixes). *)
Definition addr_le (la lb : gmap Label Z) : Prop :=
  forall l a, la !! l = Some a ->
    exists b, lb !! l = Some b /\ a <= b /\ (3 | b - a).

(** The values of [label_address] with which the passes of
    [while retry] start. *)
Inductive reached (py_internals : PyInternals) (ops : list Item)
  : gmap Label Z -> Prop :=
| reached_first : reached py_internals ops ∅
| reached_retry la st :
    reached py_internals ops la ->
    pass py_internals ops la = Next st ->
    retry st = true ->
    reached py_internals ops (label_address st).

(** Two runs of the [for] loop over the same elements, the second one
    ahead of the first; [fin] is [label_address] at the end of the first. *)
Definition ahead (stA stB : pass_state) (fin : gmap Label Z) : Prop :=
  address stA <= address stB
  /\ (3 | address stB - address stA)
  /\ addr_le (label_address stA) (label_address stB)
  /\ (forall l b, label_address stA !! l = None ->
                  label_address stB !! l = Some b -> fin !! l = Some b).

(** A descriptor in which [JUMP_FORWARD] (110) is listed as a relative and
    as an absolute jump. *)
Definition overlap_internals : PyInternals :=
  mkPyInternals sample_opname (list_to_map sample_opcodes)
    [93; 110; 120; 121; 122] [110; 111; 112; 113; 114; 115]
    90 145 (list_to_map sample_stackeffect) 1.

Definition nop : Item := IOp (mkOp "NOP" ArgNone).
Definition return_value : Item := IOp (mkOp "RETURN_VALUE" ArgNone).
Definition jump_forward (l : Label) : Item := IOp (mkOp "JUMP_FORWARD" (ArgLabel l)).

(** [n] instructions and then a forward jump to the label right after
    it. *)
Definition late_jump (n : nat) : list Item :=
  repeat nop n ++ [jump_forward 0%nat; ILabel 0%nat].

(** A forward jump over [n] instructions. *)
Definition far_jump (n : nat) (tail : list Item) : list Item :=
  jump_forward 0%nat :: repeat nop n ++ ILabel 0%nat :: tail.

(** The bytes of an extended forward jump with the low argument byte
    [lo], [n] times [NOP], and [tail]. *)
Definition far_jump_code (lo : byte) (n : nat) (tail : list byte) : list byte :=
  [x91; x01; x00; x6e; lo; x00] ++ repeat x09 n ++ tail.

(** The same label twice. *)
Definition label_twice : list Item := [ILabel 0%nat; nop; ILabel 0%nat].

(** The sum of the addresses that [la] records for the labels [ls]. *)
Definition addr_sum (la : gmap Label Z) (ls : list Label) : Z :=
  foldr (fun l acc => default 0 (la !! l) + acc) 0 ls.

(** A number of passes that [assemble] does not exceed: no address is
    beyond six bytes for each element, and each pass after the first that
    asks for another one moves a label up. *)
Definition pass_bound (ops : list Item) : nat :=
  S (S (Z.to_nat (6 * Z.of_nat (length ops) * Z.of_nat (length (labels_of ops))))).

(** The entries of [addr_ops] for [n] times [NOP] from the address [a]. *)
Fixpoint nop_entries (a : Z) (n : nat) : list (Z * option Op) :=
  match n with
  | O => []
  | S n => (a, Some (mkOp "NOP" ArgNone)) :: nop_entries (a + 1) n
  end.


(** The instructions among the elements of a sequence. *)
Definition instrs_of (ops : list Item) : list Op :=
  omap (fun x => match x with IOp o => Some o | ILabel _ => None end) ops.

(** An instruction that [assemble] can encode within the sequence [items]:
    its name is a byte opcode of the descriptor, it has an argument exactly
    if the opcode takes one, a label that is an element of [items] exactly
    if the opcode is a jump, and an integer of at most 32 bits otherwise. *)
Definition encodable (py_internals : PyInternals) (items : list Item) (o : Op) : Prop :=
  exists op_code,
    opmap py_internals !! name o = Some op_code /\ 0 <= op_code < 256 /\
    match arg o with
    | ArgNone => op_code < have_argument py_internals
    | ArgInt n =>
        have_argument py_internals <= op_code
        /\ is_jump py_internals op_code = false /\ 0 <= n < 2 ^ 32
    | ArgLabel l =>
        have_argument py_internals <= op_code
        /\ is_jump py_internals op_code = true /\ ILabel l ∈ items
    end.

(** The opcodes that the first loop of [disassemble] decodes, in the order
    of their addresses: the bytes of the code that are not argument
    bytes. *)
Fixpoint opcodes (py_internals : PyInternals) (code : list byte) : list Z :=
  match code with
  | [] => []
  | c :: rest =>
      let op_code := byte2int c in
      if have_argument py_internals <=? op_code then
        op_code :: match rest with
                   | _ :: _ :: rest => opcodes py_internals rest
                   | _ => []
                   end
      else op_code :: opcodes py_internals rest
  end.

(** An opcode that [opname] names, under a name that [opmap] maps back to
    it and that is not the name of the prefix opcode. *)
Definition known_opcode (py_internals : PyInternals) (op_code : Z) : Prop :=
  exists nm, getitem (opname py_internals) op_code = Ok nm
             /\ opmap py_internals !! nm = Some op_code
             /\ getitem (opname py_internals) (extended_arg py_internals) <> Ok nm.

(** The entries of [addr_ops] for bytes without a prefix opcode, from the
    address [a] on, with the labels that [d] keeps as the arguments of the
    jumps. *)
Inductive layout (py_internals : PyInternals) (d : gmap Z Label)
  : Z -> list (Z * option Op) -> list byte -> Prop :=
| layout_nil a : layout py_internals d a [] []
| layout_noarg a c nm es code :
    byte2int c < have_argument py_internals ->
    opmap py_internals !! nm = Some (byte2int c) ->
    layout py_internals d (a + 1) es code ->
    layout py_internals d a ((a, Some (mkOp nm ArgNone)) :: es) (c :: code)
| layout_int a c lo hi nm es code :
    have_argument py_internals <= byte2int c ->
    is_jump py_internals (byte2int c) = false ->
    opmap py_internals !! nm = Some (byte2int c) ->
    layout py_internals d (a + 3) es code ->
    layout py_internals d a
      ((a, Some (mkOp nm (ArgInt (byte2int lo + Z.shiftl (byte2int hi) 8)))) :: es)
      (c :: lo :: hi :: code)
| layout_jump a c lo hi nm l es code :
    have_argument py_internals <= byte2int c ->
    is_jump py_internals (byte2int c) = true ->
    opmap py_internals !! nm = Some (byte2int c) ->
    d !! numeric_arg py_internals 0 a (byte2int c) lo hi = Some l ->
    layout py_internals d (a + 3) es code ->
    layout py_internals d a ((a, Some (mkOp nm (ArgLabel l))) :: es)
      (c :: lo :: hi :: code).

(** The running total of [effects] from [depth], and the highest total
    met, from [max_depth]. *)
Definition prefix_depths (effects : list Z) (depth max_depth : Z) : Z * Z :=
  fold_left (fun dm e => (dm.1 + e, Z.max dm.2 (dm.1 + e))) effects (depth, max_depth).

(** The highest running total of [effects], the empty total included. *)
Definition max_prefix_sum (effects : list Z) : Z := (prefix_depths effects 0 0).2.

(** An instruction of straight-line code with the stack effect [e]: its
    effect is known, its opcode is no jump and its name does not end a
    block. *)
Definition plain_effect (py_internals : PyInternals) (o : Op) (e : Z) : Prop :=
  effect_of py_internals o = Ok e
  /\ (exists op_code, opmap py_internals !! name o = Some op_code
                      /\ is_jump py_internals op_code = false)
  /\ name_in o ["JUMP_ABSOLUTE"; "JUMP_FORWARD"] = false.

(** Whether the bytes end with an instruction: the iteration of lines
    108-111 takes one byte for an opcode below [have_argument] and three
    for any other. *)
Fixpoint complete (py_internals : PyInternals) (code : list byte) : bool :=
  match code with
  | [] => true
  | c :: rest =>
      if have_argument py_internals <=? byte2int c then
        match rest with
        | _ :: _ :: rest => complete py_internals rest
        | _ => false
        end
      else complete py_internals rest
  end.

#[global] Instance res_eq_dec {A} `{EqDecision A} : EqDecision (res A).
Proof. solve_decision. Defined.

(** An instruction as [disassemble] decodes it from an opcode byte: the
    name that [opname] has for the opcode, no argument below
    [have_argument], a label for a jump and a natural number otherwise. *)
Definition decoded (py_internals : PyInternals) (o : Op) : Prop :=
  exists op_code,
    0 <= op_code < 256
    /\ getitem (opname py_internals) op_code = Ok (name o)
    /\ match arg o with
       | ArgNone => op_code < have_argument py_internals
       | ArgInt n =>
           have_argument py_internals <= op_code
           /\ is_jump py_internals op_code = false /\ 0 <= n
       | ArgLabel _ =>
           have_argument py_internals <= op_code
           /\ is_jump py_internals op_code = true
       end.

(** Whether line 118 gives the opcode byte [c] a label as its argument:
    the opcode takes an argument (line 109) and is in [hasjump]. *)
Definition takes_label (py_internals : PyInternals) (c : byte) : bool :=
  (have_argument py_internals <=? byte2int c) && is_jump py_internals (byte2int c).

(** An entry without a label as argument. *)
Definition no_label (e : Z * option Op) : Prop :=
  forall o l, e.2 = Some o -> arg o <> ArgLabel l.

(** An entry of [addr_ops] against the byte of the code at its address:
    it is an instruction with a label exactly if the byte is a jump. *)
Definition entry_kind (py_internals : PyInternals) (code : list byte)
    (e : Z * option Op) : Prop :=
  0 <= e.1
  /\ exists c, code !! Z.to_nat e.1 = Some c
     /\ if takes_label py_internals c
        then exists nm l, e.2 = Some (mkOp nm (ArgLabel l))
        else no_label e.

(** An entry of [addr_ops] against the entry of the numeric scan and the
    opcode byte at its address: for a jump, the instruction whose numeric
    argument [t] has become the label that [d] keeps for the address [t];
    for any other byte, the same entry, without a label. *)
Definition jump_labelled (py_internals : PyInternals) (code : list byte)
    (d : gmap Z Label) (e n : Z * option Op) : Prop :=
  e.1 = n.1 /\ 0 <= e.1
  /\ exists c, code !! Z.to_nat e.1 = Some c
     /\ if takes_label py_internals c
        then exists nm t l, n.2 = Some (mkOp nm (ArgInt t))
                            /\ e.2 = Some (mkOp nm (ArgLabel l)) /\ d !! t = Some l
        else e.2 = n.2 /\ no_label e.

(** * Properties *)

(** ** Bytes *)

Lemma int2byte_Some n b : int2byte n = Some b <-> byte2int b = n.
Proof.
  unfold int2byte, byte2int. split.
  - destruct (Z.ltb_spec n 0) as [|Hn]; [discriminate|].
    intros H%Byte.to_of_N. rewrite H. lia.
  - intros <-. destruct (Z.ltb_spec (Z.of_N (Byte.to_N b)) 0) as [|_]; [lia|].
    rewrite N2Z.id. apply Byte.of_to_N.
Qed.

Lemma byte2int_range b : 0 <= byte2int b < 256.
Proof.
  unfold byte2int. pose proof (Byte.to_N_bounded b) as H.
  apply N.le_lteq in H. lia.
Qed.

Lemma int2byte_is_Some n : 0 <= n < 256 -> exists b, int2byte n = Some b /\ byte2int b = n.
Proof.
  intros Hn. unfold int2byte.
  destruct (Z.ltb_spec n 0) as [|_]; [lia|].
  destruct (Byte.of_N (Z.to_N n)) as [b|] eqn:E.
  - exists b. split; [done|]. apply Byte.to_of_N in E. unfold byte2int. lia.
  - apply Byte.of_N_None_iff in E. lia.
Qed.

Lemma int2byte_None n : int2byte n = None <-> ~ (0 <= n < 256).
Proof.
  split.
  - intros E Hn. destruct (int2byte_is_Some n Hn) as (b & Hb & _). congruence.
  - intros Hn. destruct (int2byte n) as [b|] eqn:E; [|done].
    apply int2byte_Some in E. pose proof (byte2int_range b). lia.
Qed.

Lemma int2byte_byte2int b : int2byte (byte2int b) = Some b.
Proof. by apply int2byte_Some. Qed.

Lemma land_255_range n : 0 <= Z.land n 255 < 256.
Proof.
  change 255 with (Z.ones 8). rewrite Z.land_ones by lia.
  apply Z.mod_pos_bound. lia.
Qed.

Lemma shiftr_8_range n : 0 <= Z.shiftr n 8 < 256 <-> 0 <= n < 65536.
Proof.
  rewrite Z.shiftr_div_pow2 by lia. change (2 ^ 8) with 256.
  split; intros H.
  - pose proof (Z.div_mod n 256 ltac:(lia)). pose proof (Z.mod_pos_bound n 256 ltac:(lia)). lia.
  - split; [apply Z.div_pos; lia | apply Z.div_lt_upper_bound; lia].
Qed.

(** [encode_op] with an argument succeeds exactly on a byte opcode and a
    16-bit argument. *)
Lemma encode_op_arg_Some op_code op_arg :
  0 <= op_code < 256 -> 0 <= op_arg < 65536 ->
  exists c lo hi, encode_op op_code (Some op_arg) = Some [c; lo; hi]
    /\ byte2int c = op_code
    /\ byte2int lo = Z.land op_arg 255
    /\ byte2int hi = Z.shiftr op_arg 8.
Proof.
  intros Hc Ha.
  destruct (int2byte_is_Some op_code Hc) as (c & Ec & Hcv).
  destruct (int2byte_is_Some _ (land_255_range op_arg)) as (lo & Elo & Hlo).
  destruct (int2byte_is_Some (Z.shiftr op_arg 8)) as (hi & Ehi & Hhi).
  { by apply shiftr_8_range. }
  exists c, lo, hi. unfold encode_op. rewrite Ec, Elo, Ehi. done.
Qed.

Lemma encode_op_arg_None op_code op_arg :
  encode_op op_code (Some op_arg) = None <->
  ~ (0 <= op_code < 256 /\ 0 <= op_arg < 65536).
Proof.
  unfold encode_op. split.
  - intros E [Hc Ha].
    destruct (encode_op_arg_Some op_code op_arg Hc Ha) as (c & lo & hi & E' & _).
    unfold encode_op in E'. congruence.
  - intros H. destruct (int2byte op_code) as [c|] eqn:Ec; [|done]. simpl.
    destruct (int2byte (Z.land op_arg 255)) as [lo|] eqn:Elo; [|done]. simpl.
    destruct (int2byte (Z.shiftr op_arg 8)) as [hi|] eqn:Ehi; [|done]. exfalso.
    apply int2byte_Some in Ec, Ehi. apply H.
    pose proof (byte2int_range c). pose proof (byte2int_range hi).
    split; [lia|]. apply shiftr_8_range. lia.
Qed.

Lemma encode_op_arg_length op_code op_arg bs :
  encode_op op_code (Some op_arg) = Some bs -> length bs = 3%nat.
Proof.
  unfold encode_op. intros H.
  destruct (int2byte op_code); [|done]. simpl in H.
  destruct (int2byte (Z.land op_arg 255)); [|done]. simpl in H.
  destruct (int2byte (Z.shiftr op_arg 8)); [|done]. simpl in H.
  by simplify_eq.
Qed.

Lemma encode_op_noarg_length op_code bs :
  encode_op op_code None = Some bs -> length bs = 1%nat.
Proof.
  unfold encode_op. intros H. destruct (int2byte op_code); [|done].
  simpl in H. by simplify_eq.
Qed.

Lemma lo_hi_split n : Z.land n 255 + 256 * Z.shiftr n 8 = n.
Proof.
  change 255 with (Z.ones 8). rewrite Z.land_ones, Z.shiftr_div_pow2 by lia.
  change (2 ^ 8) with 256. pose proof (Z.div_mod n 256). lia.
Qed.

(** ** Encoding of a resolved argument *)

Section Emit.
Variable py_internals : PyInternals.

(** An argument of at most 16 bits: the opcode and its two bytes. *)
Lemma emit_short st op_code op_arg :
  0 <= op_code < 256 -> 0 <= op_arg < 65536 ->
  exists c lo hi,
    emit py_internals st op_code op_arg =
      Next (mkPass (output st ++ [c; lo; hi]) (label_address st) (retry st)
              (address st + 3))
    /\ byte2int c = op_code
    /\ byte2int lo + 256 * byte2int hi = op_arg.
Proof.
  intros Hc Ha. unfold emit.
  destruct (Z.leb_spec 65536 op_arg) as [|_]; [lia|].
  destruct (encode_op_arg_Some op_code op_arg Hc Ha) as (c & lo & hi & -> & ? & Hlo & Hhi).
  exists c, lo, hi. split; [done|]. split; [done|].
  rewrite Hlo, Hhi. apply lo_hi_split.
Qed.

(** An argument of 17 to 32 bits: the prefix with the high 16 bits, then
    the opcode with the low 16 bits. *)
Lemma emit_prefixed st op_code op_arg :
  0 <= op_code < 256 ->
  0 <= extended_arg py_internals < 256 ->
  65536 <= op_arg < 2 ^ 32 ->
  exists e h0 h1 c l0 l1,
    emit py_internals st op_code op_arg =
      Next (mkPass (output st ++ [e; h0; h1; c; l0; l1]) (label_address st) (retry st)
              (address st + 6))
    /\ byte2int e = extended_arg py_internals
    /\ byte2int h0 + 256 * byte2int h1 = Z.shiftr op_arg 16
    /\ byte2int c = op_code
    /\ byte2int l0 + 256 * byte2int l1 = Z.land op_arg 65535.
Proof.
  intros Hc He Ha. unfold emit.
  destruct (Z.leb_spec 65536 op_arg) as [_|]; [|lia].
  assert (Hhi : 0 <= Z.shiftr op_arg 16 < 65536).
  { rewrite Z.shiftr_div_pow2 by lia. change (2 ^ 16) with 65536.
    split; [apply Z.div_pos; lia | apply Z.div_lt_upper_bound; lia]. }
  assert (Hlo : 0 <= Z.land op_arg 65535 < 65536).
  { change 65535 with (Z.ones 16). rewrite Z.land_ones by lia.
    apply Z.mod_pos_bound. lia. }
  destruct (encode_op_arg_Some _ _ He Hhi) as (e & h0 & h1 & -> & ? & Hh0 & Hh1).
  destruct (encode_op_arg_Some _ _ Hc Hlo) as (c & l0 & l1 & -> & ? & Hl0 & Hl1).
  exists e, h0, h1, c, l0, l1. simpl.
  rewrite <- app_assoc. simpl.
  replace (address st + 3 + 3) with (address st + 6) by lia.
  repeat split; try done.
  - rewrite Hh0, Hh1. apply lo_hi_split.
  - rewrite Hl0, Hl1. apply lo_hi_split.
Qed.

(** C5, as the code has it: an argument that needs more than 16 bits is
    emitted as the extended-argument opcode with the high bits
    ([op_arg >> 16]) followed by the opcode with the low 16 bits
    ([op_arg & 65535]); the two instructions take six bytes of output and
    advance the address by six. *)
Theorem emit_extended st op_code op_arg :
  0 <= op_code < 256 ->
  0 <= extended_arg py_internals < 256 ->
  65536 <= op_arg < 2 ^ 32 ->
  exists e h0 h1 c l0 l1,
    emit py_internals st op_code op_arg =
      Next (mkPass (output st ++ [e; h0; h1; c; l0; l1]) (label_address st) (retry st)
              (address st + 6))
    /\ byte2int e = extended_arg py_internals
    /\ byte2int h0 + 256 * byte2int h1 = Z.shiftr op_arg 16
    /\ byte2int c = op_code
    /\ byte2int l0 + 256 * byte2int l1 = Z.land op_arg 65535.
Proof.
  intros Hc He Ha. unfold emit.
  destruct (Z.leb_spec 65536 op_arg) as [_|]; [|lia].
  assert (Hhi : 0 <= Z.shiftr op_arg 16 < 65536).
  { rewrite Z.shiftr_div_pow2 by lia. change (2 ^ 16) with 65536.
    split; [apply Z.div_pos; lia | apply Z.div_lt_upper_bound; lia]. }
  assert (Hlo : 0 <= Z.land op_arg 65535 < 65536).
  { change 65535 with (Z.ones 16). rewrite Z.land_ones by lia.
    apply Z.mod_pos_bound. lia. }
  destruct (encode_op_arg_Some _ _ He Hhi) as (e & h0 & h1 & -> & ? & Hh0 & Hh1).
  destruct (encode_op_arg_Some _ _ Hc Hlo) as (c & l0 & l1 & -> & ? & Hl0 & Hl1).
  exists e, h0, h1, c, l0, l1. simpl.
  rewrite <- app_assoc. simpl.
  replace (address st + 3 + 3) with (address st + 6) by lia.
  repeat split; try done.
  - rewrite Hh0, Hh1. apply lo_hi_split.
  - rewrite Hl0, Hl1. apply lo_hi_split.
Qed.

End Emit.

Lemma emit_extended_witness :
  exists e h0 h1 c l0 l1,
    emit sample_internals (pass_start ∅) 100 65539 =
      Next (mkPass [e; h0; h1; c; l0; l1] ∅ false 6)
    /\ byte2int e = 145
    /\ byte2int h0 + 256 * byte2int h1 = 1
    /\ byte2int c = 100
    /\ byte2int l0 + 256 * byte2int l1 = 3.
Proof.
  apply (emit_extended sample_internals (pass_start ∅) 100 65539); simpl; lia.
Defined.

(** C5 as the specification words it: five bytes.  The instruction
    [LOAD_CONST 65536] takes six. *)
Lemma emit_extended_not_five_bytes :
  exists st,
    emit sample_internals (pass_start ∅) 100 65536 = Next st
    /\ output st = [x91; x01; x00; x64; x00; x00]
    /\ length (output st) <> 5%nat.
Proof. eexists. split; [vm_compute; reflexivity|]. split; [reflexivity|]. simpl. lia. Qed.

(** ** The [for] loop of a pass *)

Section Steps.
Variable py_internals : PyInternals.
Variable ops : list Item.

Local Abbreviation step := (step py_internals ops).
Local Abbreviation steps := (steps py_internals ops).

Lemma steps_app l1 l2 st :
  steps (l1 ++ l2) st =
    match steps l1 st with
    | Next st => steps l2 st
    | Abort e st => Abort e st
    end.
Proof.
  revert st. induction l1 as [|x l1 IH]; intros st; simpl; [done|].
  destruct (step st x); [apply IH | done].
Qed.

(** An aborted loop stopped at some element, after the elements before
    it went through. *)
Lemma steps_Abort l st e st' :
  steps l st = Abort e st' ->
  exists pre x post st0,
    l = pre ++ x :: post /\ steps pre st = Next st0 /\ step st0 x = Abort e st'.
Proof.
  revert st. induction l as [|x l IH]; intros st H; simpl in H; [done|].
  destruct (step st x) as [st1|e1 st1] eqn:E.
  - destruct (IH _ H) as (pre & y & post & st0 & -> & Hpre & Hy).
    exists (x :: pre), y, post, st0. simpl. rewrite E. done.
  - simplify_eq. exists [], x, l, st. done.
Qed.

Lemma emit_Abort st op_code op_arg e st' :
  emit py_internals st op_code op_arg = Abort e st' -> e = ByteRangeError.
Proof. unfold emit. intros H. repeat case_match; by simplify_eq. Qed.

(** A sanity check fails exactly on its mismatch, and leaves the locals
    as they were. *)
Lemma step_structural st x e st' :
  step st x = Abort e st' -> structural e = true ->
  st' = st /\ exists o, x = IOp o /\ mismatch py_internals ops o e.
Proof.
  unfold step, mismatch. intros H He.
  destruct x as [o|l]; [|by case_decide].
  destruct (opmap py_internals !! name o) as [op_code|] eqn:Eo; [|by simplify_eq].
  destruct (arg o) as [|n|l] eqn:Ea.
  - destruct (Z.leb_spec (have_argument py_internals) op_code).
    + simplify_eq. split; [done|]. exists o. split; [done|]. exists op_code. done.
    + destruct (encode_op op_code None); by simplify_eq.
  - destruct (Z.ltb_spec op_code (have_argument py_internals)).
    { simplify_eq. split; [done|]. exists o. split; [done|]. exists op_code.
      rewrite Ea. done. }
    destruct (is_jump py_internals op_code) eqn:Ej.
    { simplify_eq. split; [done|]. exists o. split; [done|]. exists op_code. eauto. }
    apply emit_Abort in H as ->. done.
  - destruct (Z.ltb_spec op_code (have_argument py_internals)).
    { simplify_eq. split; [done|]. exists o. split; [done|]. exists op_code.
      rewrite Ea. done. }
    destruct (is_jump py_internals op_code) eqn:Ej; simpl in H.
    2: { simplify_eq. split; [done|]. exists o. split; [done|]. exists op_code. eauto. }
    case_bool_decide; simpl in H.
    2: { simplify_eq. split; [done|]. exists o. split; [done|]. exists op_code. eauto. }
    destruct (label_address st !! l).
    + destruct (is_jrel py_internals op_code); apply emit_Abort in H as ->; done.
    + destruct (is_jabs py_internals op_code && (65535 <? address st)); done.
Qed.

Lemma step_mismatch st o e :
  mismatch py_internals ops o e -> exists e', step st (IOp o) = Abort e' st.
Proof.
  unfold mismatch, step. intros (op_code & -> & H).
  destruct e; try done.
  - destruct H as [-> H]. destruct (Z.leb_spec (have_argument py_internals) op_code); [eauto|lia].
  - destruct H as [Ha H].
    destruct (arg o); [done| |];
      (destruct (Z.ltb_spec op_code (have_argument py_internals)); [eauto|lia]).
  - destruct H as [[l ->] Hj]. rewrite Hj. simpl.
    destruct (op_code <? have_argument py_internals); eauto.
  - destruct H as (l & -> & Hl).
    destruct (op_code <? have_argument py_internals); [eauto|].
    destruct (negb (is_jump py_internals op_code)); [eauto|].
    rewrite bool_decide_eq_false_2 by done. simpl. eauto.
  - destruct H as [[n ->] Hj]. rewrite Hj.
    destruct (op_code <? have_argument py_internals); eauto.
Qed.

Lemma steps_mismatch l st o e :
  IOp o ∈ l -> mismatch py_internals ops o e -> exists e' st', steps l st = Abort e' st'.
Proof.
  intros Hin Hm. revert st. induction l as [|x l IH]; intros st.
  { by apply elem_of_nil in Hin. }
  simpl. destruct (step st x) as [st1|e1 st1] eqn:E; [|eauto].
  apply elem_of_cons in Hin as [<-|Hin]; [|by apply IH].
  destruct (step_mismatch st o e Hm) as [e' He']. congruence.
Qed.

End Steps.

(** ** Structural errors *)

Lemma assemble_loop_Raises py_internals fuel ops la e :
  assemble_loop py_internals fuel ops la = Raises e ->
  exists la' st, pass py_internals ops la' = Abort e st.
Proof.
  revert la. induction fuel as [|fuel IH]; intros la H; simpl in H; [done|].
  destruct (pass py_internals ops la) as [st|e' st] eqn:E.
  - destruct (retry st); [eauto | done].
  - simplify_eq. eauto.
Qed.

(** C4, as the code has it.  A sequence with one of the five mismatches
    makes [assemble] raise in its first pass; and when [assemble] raises one
    of its five sanity-check errors, the sequence has the mismatch of that
    name at an instruction, the elements before it went through and the
    locals, the output among them, are as those elements left them: no byte
    of the offending instruction is emitted. *)
Theorem assemble_structural_errors py_internals ops :
  (defective py_internals ops ->
   forall fuel, exists e, assemble py_internals (S fuel) ops = Raises e)
  /\ (forall fuel e,
        assemble py_internals fuel ops = Raises e -> structural e = true ->
        exists pre o post la st,
          ops = pre ++ IOp o :: post
          /\ mismatch py_internals ops o e
          /\ steps py_internals ops pre (pass_start la) = Next st
          /\ step py_internals ops st (IOp o) = Abort e st).
Proof.
  split.
  - intros (o & e & Hin & Hm) fuel.
    destruct (steps_mismatch py_internals ops ops (pass_start ∅) o e Hin Hm)
      as (e' & st' & H).
    exists e'. unfold assemble. simpl. unfold pass. fold (pass_start ∅). by rewrite H.
  - intros fuel e H He.
    apply assemble_loop_Raises in H as (la & st & H).
    apply steps_Abort in H as (pre & x & post & st0 & -> & Hpre & Hx).
    destruct (step_structural _ _ _ _ _ _ Hx He) as (-> & o & -> & Hm).
    exists pre, o, post, la, st0. done.
Qed.

Lemma assemble_structural_errors_witness :
  exists e, assemble sample_internals 1 [IOp (mkOp "LOAD_CONST" ArgNone)] = Raises e.
Proof.
  apply (proj1 (assemble_structural_errors sample_internals
                  [IOp (mkOp "LOAD_CONST" ArgNone)])).
  exists (mkOp "LOAD_CONST" ArgNone), ValueError_requires_argument.
  split; [apply list_elem_of_here|].
  exists 100. split; [reflexivity|]. simpl. split; [reflexivity|lia].
Defined.

(** C4 as the specification words it: an error exactly when one of the
    five mismatches is present.  [LOAD_CONST -1] has none of them, and
    [assemble] raises on it: [six.int2byte] refuses [-1 >> 8]. *)
Lemma assemble_raises_without_mismatch :
  ~ defective sample_internals [IOp (mkOp "LOAD_CONST" (ArgInt (-1)))]
  /\ assemble sample_internals 1 [IOp (mkOp "LOAD_CONST" (ArgInt (-1)))]
     = Raises ByteRangeError.
Proof.
  split; [|vm_compute; reflexivity].
  intros (o & e & Hin & op_code & Hlook & Hm).
  apply list_elem_of_singleton in Hin. injection Hin as ->.
  vm_compute in Hlook. injection Hlook as <-.
  destruct e; try done; simpl in Hm.
  - destruct Hm as [? _]. done.
  - destruct Hm as [_ ?]. lia.
  - destruct Hm as [[l ?] _]. done.
  - destruct Hm as (l & ? & _). done.
  - destruct Hm as [_ ?]. vm_compute in H. done.
Qed.

(** ** disassemble: one label for each target address *)

Lemma labelled_mono d d' e n : d ⊆ d' -> labelled d e n -> labelled d' e n.
Proof.
  intros Hd [H1 H2]. split; [done|].
  destruct H2 as [H2|(nm & t & l & ? & ? & Hl)]; [by left|right].
  exists nm, t, l. split_and!; try done. by eapply lookup_weaken.
Qed.

Section Scan.
Variable py_internals : PyInternals.
Variable ext_arg_name : string.

(** [setdefault] keeps a memo table with labels below [n] injective. *)
Lemma setdefault_spec (d : gmap Z Label) t n l d' :
  setdefault d t n = (l, d') ->
  (forall t l, d !! t = Some l -> (l < n)%nat) ->
  (forall t1 t2 l, d !! t1 = Some l -> d !! t2 = Some l -> t1 = t2) ->
  d ⊆ d' /\ d' !! t = Some l
  /\ (forall t l, d' !! t = Some l -> (l < S n)%nat)
  /\ (forall t1 t2 l, d' !! t1 = Some l -> d' !! t2 = Some l -> t1 = t2).
Proof.
  unfold setdefault. intros H Hb Hi.
  destruct (d !! t) as [x|] eqn:E; simplify_eq.
  - split_and!; try done. intros t' l' H'. apply Hb in H'. lia.
  - split_and!.
    + by apply insert_subseteq.
    + by rewrite lookup_insert_eq.
    + intros t' l' H'. rewrite lookup_insert in H'. case_decide; simplify_eq; [lia|].
      apply Hb in H'. lia.
    + intros t1 t2 l' H1 H2. rewrite lookup_insert in H1, H2.
      repeat case_decide; simplify_eq; try done; try (by eapply Hi);
        exfalso; match goal with H : d !! _ = Some _ |- _ => apply Hb in H; lia end.
Qed.

(** Lines 121-131 keep the invariant, for an argument that is the numeric
    one or its label. *)
Lemma scan_op_inv a a' st stn op_code arg argn d n st1 :
  scan_inv a st stn -> a < a' ->
  scan_op py_internals ext_arg_name st a op_code arg d n = Ok st1 ->
  addr_labels st ⊆ d ->
  (forall t l, d !! t = Some l -> (l < n)%nat) ->
  (forall t1 t2 l, d !! t1 = Some l -> d !! t2 = Some l -> t1 = t2) ->
  (arg = argn \/ exists t l, argn = ArgInt t /\ arg = ArgLabel l /\ d !! t = Some l) ->
  exists stn1,
    scan_op py_internals ext_arg_name stn a op_code argn ∅ 0 = Ok stn1
    /\ scan_inv a' st1 stn1 /\ addr_labels st1 = d.
Proof.
  intros (Hext & Hops & Hlt & Hnd & _ & _) Ha H Hd Hb Hi Harg.
  unfold scan_op in *.
  destruct (getitem (opname py_internals) op_code) as [op_name|] eqn:En; [|done].
  simpl in *.
  assert (Hops' : Forall2 (labelled d) (addr_ops st) (addr_ops stn)).
  { eapply Forall2_impl; [done|]. intros ??. by apply labelled_mono. }
  assert (Hnd' : forall op, NoDup (addr_ops st ++ [(a, op)]).*1).
  { intros op. rewrite fmap_app. apply NoDup_app. split_and!; [done| |].
    - intros x Hx Hx'. simpl in Hx'. apply list_elem_of_singleton in Hx'. subst x.
      apply list_elem_of_fmap in Hx as (e & He & Hin). apply Hlt in Hin. lia.
    - simpl. apply NoDup_singleton. }
  assert (Hlt' : forall op e, e ∈ addr_ops st ++ [(a, op)] -> e.1 < a').
  { intros op e [Hin| ->%list_elem_of_singleton]%elem_of_app; [|simpl; lia].
    apply Hlt in Hin. lia. }
  case_decide.
  - destruct arg as [|x|]; try done. simplify_eq.
    destruct Harg as [<-|(t & l & _ & ? & _)]; [|done].
    eexists. split; [done|]. split; [|done].
    split_and!; simpl; [done| |apply Hlt'|apply Hnd'|done|done].
    apply Forall2_app; [done|]. apply Forall2_cons. split; [|done].
    split; [done|by left].
  - simplify_eq. eexists. split; [done|]. split; [|done].
    split_and!; simpl; [done| |apply Hlt'|apply Hnd'|done|done].
    apply Forall2_app; [done|]. apply Forall2_cons. split; [|done].
    split; [done|]. simpl.
    destruct Harg as [<-|(t & l & -> & -> & Hl)]; [by left|right].
    by exists op_name, t, l.
Qed.

Lemma scan_arg_spec st stn a op_code x y arg d n :
  scan_inv a st stn ->
  scan_arg py_internals st a op_code x y = (arg, d, n) ->
  addr_labels st ⊆ d
  /\ (forall t l, d !! t = Some l -> (l < n)%nat)
  /\ (forall t1 t2 l, d !! t1 = Some l -> d !! t2 = Some l -> t1 = t2)
  /\ (arg = ArgInt (numeric_arg py_internals (ext_arg stn) a op_code x y)
      \/ exists l, arg = ArgLabel l
           /\ d !! numeric_arg py_internals (ext_arg stn) a op_code x y = Some l).
Proof.
  intros (Hext & _ & _ & _ & Hb & Hi). unfold scan_arg. rewrite Hext.
  destruct (is_jump py_internals op_code).
  - destruct (setdefault _ _ _) as [l d'] eqn:E. intros ?; simplify_eq.
    destruct (setdefault_spec _ _ _ _ _ E Hb Hi) as (? & ? & ? & ?).
    split_and!; try done. right. eauto.
  - intros ?; simplify_eq. split_and!; try done. by left.
Qed.

Lemma scan_inv_spec code : forall a st stn st',
  scan py_internals ext_arg_name code a st = Ok st' ->
  scan_inv a st stn ->
  exists stn' a',
    scan_numeric py_internals ext_arg_name code a stn = Ok stn'
    /\ scan_inv a' st' stn'.
Proof.
  remember (length code) as k eqn:Hk. revert code Hk.
  induction k as [k IH] using lt_wf_ind. intros code Hk a st stn st' H Hinv.
  destruct code as [|c rest]; simpl in H |- *.
  { simplify_eq. by exists stn, a. }
  destruct (have_argument py_internals <=? byte2int c).
  - destruct rest as [|x [|y rest]]; try done.
    destruct (scan_arg py_internals st a (byte2int c) x y) as [[arg d] n] eqn:Ea.
    destruct (scan_op py_internals ext_arg_name st a (byte2int c) arg d n)
      as [st1|] eqn:Eo; [|done].
    simpl in H.
    destruct (scan_arg_spec _ _ _ _ _ _ _ _ _ Hinv Ea) as (Hd & Hb & Hi & Harg).
    destruct (scan_op_inv a (a + 3) _ _ _ _
                (ArgInt (numeric_arg py_internals (ext_arg stn) a (byte2int c) x y))
                _ _ _ Hinv ltac:(lia) Eo Hd Hb Hi) as (stn1 & En & Hinv1 & _).
    { destruct Harg as [->|(l & -> & Hl)]; [by left|right]. eauto. }
    rewrite En. simpl.
    eapply (IH (length rest)); [simpl in Hk; lia|done|exact H|exact Hinv1].
  - destruct (scan_op py_internals ext_arg_name st a (byte2int c) ArgNone
                (addr_labels st) (fresh st)) as [st1|] eqn:Eo; [|done].
    simpl in H.
    destruct (scan_op_inv a (a + 1) _ _ _ _ ArgNone _ _ _ Hinv ltac:(lia) Eo)
      as (stn1 & En & Hinv1 & _); [done|by apply Hinv|by apply Hinv|by left|].
    rewrite En. simpl.
    eapply (IH (length rest)); [simpl in Hk; lia|done|exact H|exact Hinv1].
Qed.

End Scan.

Lemma splice_app d l1 l2 : splice d (l1 ++ l2) = splice d l1 ++ splice d l2.
Proof.
  induction l1 as [|[a op] l1 IH]; simpl; [done|].
  rewrite IH. by rewrite <- !app_assoc.
Qed.

Lemma splice_cons d e l : splice d (e :: l) = splice_entry d e ++ splice d l.
Proof. destruct e as [a op]. unfold splice_entry. simpl. by rewrite <- app_assoc. Qed.

Lemma elem_of_splice_label d es l :
  ILabel l ∈ splice d es <-> exists e, e ∈ es /\ d !! e.1 = Some l.
Proof.
  induction es as [|[a op] es IH]; simpl.
  - split; [by intros ?%elem_of_nil | by intros (e & ?%elem_of_nil & _)].
  - rewrite !elem_of_app, IH. split.
    + intros [H|[H|(e & He & Hl)]].
      * destruct (d !! a) as [l'|] eqn:E; [|by apply elem_of_nil in H].
        apply list_elem_of_singleton in H. simplify_eq.
        exists (a, op). split; [apply list_elem_of_here|done].
      * destruct op; [|by apply elem_of_nil in H].
        by apply list_elem_of_singleton in H.
      * exists e. split; [by apply list_elem_of_further|done].
    + intros (e & [->|He]%elem_of_cons & Hl).
      * left. simpl in Hl. rewrite Hl. apply list_elem_of_here.
      * right. right. eauto.
Qed.

(** The numeric scan makes no label. *)
Lemma scan_numeric_no_label py_internals ext_arg_name code : forall a stn stn',
  scan_numeric py_internals ext_arg_name code a stn = Ok stn' ->
  (forall e, e ∈ addr_ops stn -> no_label e) ->
  forall e, e ∈ addr_ops stn' -> no_label e.
Proof.
  remember (length code) as k eqn:Hk. revert code Hk.
  induction k as [k IH] using lt_wf_ind. intros code Hk a stn stn' H Hst.
  destruct code as [|c rest]; cbn [scan_numeric] in H.
  { by simplify_eq. }
  assert (Hop : forall arg stn1,
            (forall l, arg <> ArgLabel l) ->
            scan_op py_internals ext_arg_name stn a (byte2int c) arg ∅ 0 = Ok stn1 ->
            forall e, e ∈ addr_ops stn1 -> no_label e).
  { intros arg stn1 Harg Eo. unfold scan_op in Eo.
    destruct (getitem (opname py_internals) (byte2int c)) as [nm|]; [|done].
    change (Ok nm ≫= ?k) with (k nm) in Eo. cbn beta in Eo.
    case_decide.
    - destruct arg as [|v|]; try done. simplify_eq. simpl.
      intros e [He|He%list_elem_of_singleton]%elem_of_app; [by apply Hst|].
      subst e. by intros o l.
    - simplify_eq. simpl.
      intros e [He|He%list_elem_of_singleton]%elem_of_app; [by apply Hst|].
      subst e. intros o l [= <-]. apply Harg. }
  destruct (have_argument py_internals <=? byte2int c).
  - destruct rest as [|x [|y rest]]; try done.
    destruct (scan_op py_internals ext_arg_name stn a (byte2int c) _ ∅ 0)
      as [stn1|] eqn:Eo; [|done].
    change (Ok stn1 ≫= ?k) with (k stn1) in H. cbn beta in H.
    apply (IH (length rest) ltac:(subst k; simpl; lia) rest eq_refl _ _ _ H).
    eapply Hop; [|exact Eo]. by intros l.
  - destruct (scan_op py_internals ext_arg_name stn a (byte2int c) ArgNone ∅ 0)
      as [stn1|] eqn:Eo; [|done].
    change (Ok stn1 ≫= ?k) with (k stn1) in H. cbn beta in H.
    apply (IH (length rest) ltac:(subst k; simpl; lia) rest eq_refl _ _ _ H).
    eapply Hop; [|exact Eo]. by intros l.
Qed.

(** The first loop of [disassemble] gives a label to the opcodes that
    take an argument and are jumps, and to no other: [pre] are the bytes
    before the address [a]. *)
Lemma scan_entry_kind py_internals ext_arg_name code : forall pre a st st',
  scan py_internals ext_arg_name code a st = Ok st' ->
  a = Z.of_nat (length pre) ->
  (forall e, e ∈ addr_ops st -> entry_kind py_internals (pre ++ code) e) ->
  forall e, e ∈ addr_ops st' -> entry_kind py_internals (pre ++ code) e.
Proof.
  remember (length code) as k eqn:Hk. revert code Hk.
  induction k as [k IH] using lt_wf_ind. intros code Hk pre a st st' H Ha Hst.
  destruct code as [|c rest]; cbn [scan] in H.
  { by simplify_eq. }
  assert (Hc : (pre ++ c :: rest) !! Z.to_nat a = Some c).
  { apply list_lookup_middle. lia. }
  assert (Hop : forall arg d n st1,
            (if takes_label py_internals c then exists l, arg = ArgLabel l
             else forall l, arg <> ArgLabel l) ->
            scan_op py_internals ext_arg_name st a (byte2int c) arg d n = Ok st1 ->
            forall e, e ∈ addr_ops st1 -> entry_kind py_internals (pre ++ c :: rest) e).
  { intros arg d n st1 Harg Eo. unfold scan_op in Eo.
    destruct (getitem (opname py_internals) (byte2int c)) as [nm|]; [|done].
    change (Ok nm ≫= ?k) with (k nm) in Eo. cbn beta in Eo.
    case_decide.
    - destruct arg as [|v|]; try done. simplify_eq. simpl.
      intros e [He|He%list_elem_of_singleton]%elem_of_app; [by apply Hst|].
      subst e. split; [simpl; lia|]. exists c. split; [done|].
      destruct (takes_label py_internals c); [by destruct Harg|by intros o l].
    - simplify_eq. simpl.
      intros e [He|He%list_elem_of_singleton]%elem_of_app; [by apply Hst|].
      subst e. split; [simpl; lia|]. exists c. split; [done|].
      destruct (takes_label py_internals c).
      + destruct Harg as [l ->]. by exists nm, l.
      + intros o l [= <-]. apply Harg. }
  unfold takes_label in Hop.
  destruct (have_argument py_internals <=? byte2int c).
  - destruct rest as [|x [|y rest]]; try done.
    destruct (scan_arg py_internals st a (byte2int c) x y) as [[arg d] n] eqn:Ea.
    destruct (scan_op py_internals ext_arg_name st a (byte2int c) arg d n)
      as [st1|] eqn:Eo; [|done].
    change (Ok st1 ≫= ?k) with (k st1) in H. cbn beta in H.
    replace (pre ++ c :: x :: y :: rest) with ((pre ++ [c; x; y]) ++ rest) in *
      by (by rewrite <- app_assoc).
    apply (IH (length rest) ltac:(subst k; simpl; lia) rest eq_refl _ _ _ _ H).
    + rewrite length_app. simpl. lia.
    + eapply Hop; [|done]. simpl. unfold scan_arg in Ea.
      destruct (is_jump py_internals (byte2int c)).
      * destruct (setdefault _ _ _) as [l d']. simplify_eq. eauto.
      * by simplify_eq.
  - destruct (scan_op py_internals ext_arg_name st a (byte2int c) ArgNone _ _)
      as [st1|] eqn:Eo; [|done].
    change (Ok st1 ≫= ?k) with (k st1) in H. cbn beta in H.
    replace (pre ++ c :: rest) with ((pre ++ [c]) ++ rest) in *
      by (by rewrite <- app_assoc).
    apply (IH (length rest) ltac:(subst k; simpl; lia) rest eq_refl _ _ _ _ H).
    + rewrite length_app. simpl. lia.
    + eapply Hop; [|done]. done.
Qed.

(** A jump carries the label of its target, and nothing else carries a
    label. *)
Lemma jump_labelled_intro py_internals code d es esn :
  Forall2 (labelled d) es esn ->
  (forall e, e ∈ es -> entry_kind py_internals code e) ->
  (forall n, n ∈ esn -> no_label n) ->
  Forall2 (jump_labelled py_internals code d) es esn.
Proof.
  induction 1 as [|e n es esn [H1 H2] _ IH]; intros Hes Hesn; [constructor|].
  constructor.
  2:{ apply IH; intros x Hx; [apply Hes|apply Hesn]; by apply list_elem_of_further. }
  destruct (Hes e (list_elem_of_here _ _)) as (Hpos & c & Hc & Hk).
  pose proof (Hesn n (list_elem_of_here _ _)) as Hn.
  split; [done|]. split; [done|]. exists c. split; [done|].
  destruct (takes_label py_internals c).
  - destruct Hk as (nm & l & He).
    destruct H2 as [H2|(nm' & t & l' & Hn' & He' & Hd)].
    + exfalso. rewrite He in H2. by eapply (Hn _ l).
    + exists nm', t, l'. done.
  - destruct H2 as [H2|(nm' & t & l' & Hn' & He' & Hd)]; [done|].
    exfalso. by eapply (Hk _ l').
Qed.

(** C7, as the code has it.  When [disassemble] returns, every opcode
    that takes an argument and is a jump has become an instruction that
    carries a label, the one that the memo table [addr_labels] keeps for
    the address the jump stands for in the numeric scan, and no other
    instruction carries a label; the table keeps one label for an address
    and two for two, so two jumps to one address carry one label and jumps
    to two addresses carry two; and the label kept for an address [t] is
    an element of the result exactly once, right before what the opcode
    decoded at [t] contributes, when an opcode was decoded at [t], and is
    no element of it otherwise. *)
Theorem disassemble_labels py_internals code result :
  disassemble py_internals code = Ok result ->
  exists st stn,
    scan_code py_internals code = Ok st
    /\ scan_numeric_code py_internals code = Ok stn
    /\ result = splice (addr_labels st) (addr_ops st)
    /\ Forall2 (jump_labelled py_internals code (addr_labels st))
         (addr_ops st) (addr_ops stn)
    /\ (forall t1 t2 l, addr_labels st !! t1 = Some l ->
                        addr_labels st !! t2 = Some l -> t1 = t2)
    /\ (forall t l, addr_labels st !! t = Some l ->
          (t ∈ (addr_ops st).*1 ->
           exists pre op post,
             addr_ops st = pre ++ (t, op) :: post
             /\ result = splice (addr_labels st) pre
                          ++ ILabel l :: (match op with Some o => [IOp o] | None => [] end
                                          ++ splice (addr_labels st) post)
             /\ (ILabel l ∉ splice (addr_labels st) pre)
             /\ (ILabel l ∉ splice (addr_labels st) post))
          /\ (t ∉ (addr_ops st).*1 -> ILabel l ∉ result)).
Proof.
  unfold disassemble, scan_code, scan_numeric_code. intros H.
  destruct (getitem (opname py_internals) (extended_arg py_internals))
    as [nm|] eqn:En; [|done].
  simpl in H |- *.
  destruct (scan py_internals nm code 0 (mkScan 0 ∅ [] 0)) as [st|] eqn:Es; [|done].
  simpl in H. simplify_eq.
  destruct (scan_inv_spec py_internals nm code 0 _ (mkScan 0 ∅ [] 0) st Es)
    as (stn & a' & Hn & (_ & Hops & _ & Hnd & _ & Hi)).
  { split_and!; simpl; try done.
    - intros e ?%elem_of_nil. done.
    - apply NoDup_nil_2. }
  assert (Hjump : Forall2 (jump_labelled py_internals code (addr_labels st))
                    (addr_ops st) (addr_ops stn)).
  { apply jump_labelled_intro; [done| |].
    - apply (scan_entry_kind py_internals nm code [] 0 _ st Es eq_refl).
      intros e ?%elem_of_nil. done.
    - apply (scan_numeric_no_label py_internals nm code 0 _ stn Hn).
      intros e ?%elem_of_nil. done. }
  exists st, stn. split_and!; try done.
  intros t l Hl. split.
  - intros (e & -> & He)%list_elem_of_fmap.
    apply list_elem_of_split in He as (pre & post & Hsplit).
    destruct e as [t op]. simpl in Hl.
    rewrite Hsplit, fmap_app, fmap_cons in Hnd. simpl in Hnd.
    apply NoDup_app in Hnd as (_ & Hpre & Hpost%NoDup_cons).
    exists pre, op, post. split; [done|]. split_and!.
    + rewrite Hsplit, splice_app. simpl. by rewrite Hl.
    + intros (e & He & Hle)%elem_of_splice_label.
      apply (Hpre e.1); [by apply list_elem_of_fmap_2|].
      rewrite (Hi _ _ _ Hle Hl). apply list_elem_of_here.
    + intros (e & He & Hle)%elem_of_splice_label.
      apply (proj1 Hpost). rewrite <- (Hi _ _ _ Hle Hl). by apply list_elem_of_fmap_2.
  - intros Hnot (e & He & Hle)%elem_of_splice_label. apply Hnot.
    rewrite <- (Hi _ _ _ Hle Hl). by apply list_elem_of_fmap_2.
Qed.

Lemma disassemble_labels_witness :
  exists st stn,
    scan_code sample_internals [x6e; x00; x00; x09] = Ok st
    /\ scan_numeric_code sample_internals [x6e; x00; x00; x09] = Ok stn
    /\ [IOp (mkOp "JUMP_FORWARD" (ArgLabel 0%nat)); ILabel 0%nat;
        IOp (mkOp "NOP" ArgNone)] = splice (addr_labels st) (addr_ops st)
    /\ Forall2 (jump_labelled sample_internals [x6e; x00; x00; x09] (addr_labels st))
         (addr_ops st) (addr_ops stn).
Proof.
  destruct (disassemble_labels sample_internals [x6e; x00; x00; x09]
              [IOp (mkOp "JUMP_FORWARD" (ArgLabel 0%nat)); ILabel 0%nat;
               IOp (mkOp "NOP" ArgNone)] eq_refl)
    as (st & stn & H1 & H2 & H3 & H4 & _).
  exists st, stn. exact (conj H1 (conj H2 (conj H3 H4))).
Defined.

(** C7 as the specification words it, for every input.  Both jumps of
    [JUMP_ABSOLUTE 4; JUMP_ABSOLUTE 4] aim at the address 4, the middle of
    the second instruction, where no opcode is decoded: they carry one
    label, and that label is no element of the result. *)
Lemma disassemble_label_not_spliced :
  disassemble sample_internals [x71; x04; x00; x71; x04; x00]
  = Ok [IOp (mkOp "JUMP_ABSOLUTE" (ArgLabel 0%nat)); IOp (mkOp "JUMP_ABSOLUTE" (ArgLabel 0%nat))]
  /\ ILabel 0%nat ∉ [IOp (mkOp "JUMP_ABSOLUTE" (ArgLabel 0%nat));
                 IOp (mkOp "JUMP_ABSOLUTE" (ArgLabel 0%nat))].
Proof.
  split; [reflexivity|].
  intros H. repeat (apply elem_of_cons in H as [H|H]; [done|]). by apply elem_of_nil in H.
Qed.

(** C10.  The jump of the three bytes [JUMP_FORWARD 0] aims at the address
    3, the end of the stream.  [disassemble] returns the jump with a label
    that is no element of the result, and [assemble] refuses the result
    with 'Label is not part of this op list.' *)
Theorem disassemble_dangling_label :
  disassemble sample_internals [x6e; x00; x00]
  = Ok [IOp (mkOp "JUMP_FORWARD" (ArgLabel 0%nat))]
  /\ (ILabel 0%nat ∉ [IOp (mkOp "JUMP_FORWARD" (ArgLabel 0%nat))])
  /\ forall fuel,
       assemble sample_internals (S fuel) [IOp (mkOp "JUMP_FORWARD" (ArgLabel 0%nat))]
       = Raises ValueError_label_not_in_list.
Proof.
  split; [reflexivity|]. split.
  - intros H. apply elem_of_cons in H as [H|H]; [done|]. by apply elem_of_nil in H.
  - intros fuel. reflexivity.
Qed.

(** ** CodeObject.assemble *)


(** ** The stack-depth walk terminates *)

Lemma unseen_le store : (unseen store <= length store)%nat.
Proof.
  unfold unseen. etrans; [apply length_filter|]. by rewrite length_fmap.
Qed.

Lemma count_false_insert (l : list bool) h :
  l !! h = Some false ->
  S (length (filter (fun s : bool => s = false) (<[h := true]> l)))
  = length (filter (fun s : bool => s = false) l).
Proof.
  revert h. induction l as [|s l IH]; intros h H; [done|].
  destruct h as [|h]; simpl in H.
  - simplify_eq. change (<[0%nat:=true]> (false :: l)) with (true :: l).
    rewrite filter_cons_False by done.
    by rewrite filter_cons_True by done.
  - change (<[S h:=true]> (s :: l)) with (s :: <[h:=true]> l). destruct s.
    + rewrite !filter_cons_False by done. by apply IH.
    + rewrite !filter_cons_True by done. simpl. f_equal. by apply IH.
Qed.

Lemma unseen_mark (store : list Block) (h : nat) b d :
  store !! h = Some b -> seen b = false ->
  S (unseen (<[h := set_startdepth d (set_seen true b)]> store)) = unseen store.
Proof.
  intros Hh Hs. unfold unseen. rewrite list_fmap_insert. simpl.
  apply count_false_insert. rewrite list_lookup_fmap, Hh. simpl. by rewrite Hs.
Qed.

Lemma unseen_same store1 store2 :
  seen <$> store1 = seen <$> store2 -> unseen store1 = unseen store2.
Proof. unfold unseen. by intros ->. Qed.

(** Leaving a block restores the marks that the store had on entry. *)
Lemma seen_restored (store store' : list Block) (h : nat) b d :
  store !! h = Some b -> seen b = false ->
  seen <$> store' = seen <$> <[h := set_startdepth d (set_seen true b)]> store ->
  seen <$> alter (set_seen false) h store' = seen <$> store.
Proof.
  intros Hh Hs H. apply list_eq. intros i.
  rewrite !list_lookup_fmap.
  assert (Hi : seen <$> store' !! i
               = seen <$> <[h := set_startdepth d (set_seen true b)]> store !! i).
  { by rewrite <- !list_lookup_fmap, H. }
  destruct (decide (h = i)) as [<-|Hne].
  - rewrite list_lookup_alter_eq, Hh.
    rewrite list_lookup_insert_eq in Hi by (by eapply lookup_lt_Some).
    destruct (store' !! h); simpl in *; [by rewrite Hs | done].
  - rewrite list_lookup_alter_ne by done.
    by rewrite list_lookup_insert_ne in Hi.
Qed.

Section WalkOps.
Variable py_internals : PyInternals.
Variable rec : block_ref -> Z -> Z -> list Block -> run (Z * list Block).
Variable marks : list bool.
Hypothesis rec_total : forall block depth max_depth store,
  seen <$> store = marks ->
  rec block depth max_depth store <> OutOfFuel
  /\ forall m store', rec block depth max_depth store = Returns (m, store') ->
       seen <$> store' = marks.

(** The loop over the instructions of a block ends, and keeps the marks,
    when the calls it makes do. *)
Lemma walk_ops_total next_block l : forall depth max_depth store,
  seen <$> store = marks ->
  walk_ops py_internals rec next_block l depth max_depth store <> OutOfFuel
  /\ forall m store',
       walk_ops py_internals rec next_block l depth max_depth store = Returns (m, store') ->
       seen <$> store' = marks.
Proof.
  induction l as [|op l IH]; intros depth max_depth store Hs; simpl.
  { destruct next_block; [by apply rec_total|].
    split; [done|]. by intros ?? [= <- <-]. }
  destruct (effect_of py_internals op) as [effect|]; simpl; [|done].
  destruct (dict_get (opmap py_internals) (name op)) as [op_code|]; simpl; [|done].
  destruct (is_jrel py_internals op_code || is_jabs py_internals op_code).
  - destruct (branch_depths py_internals op _ _) as [[target_depth depth'] max_depth'].
    destruct (rec_total (RKey (arg op)) target_depth max_depth' store Hs) as [Hne Hret].
    destruct (rec (RKey (arg op)) target_depth max_depth' store)
      as [[m1 store1]| |]; simpl; [|done..].
    specialize (Hret _ _ eq_refl).
    destruct (name_in op _); [|by apply IH].
    split; [done|]. by intros ?? [= <- <-].
  - simpl. destruct (name_in op _); [|by apply IH].
    split; [done|]. by intros ?? [= <- <-].
Qed.

End WalkOps.

(** [walk] ends when it is given more fuel than there are unmarked blocks,
    and returns the store with the marks it found. *)
Lemma walk_total py_internals blocks fuel : forall block depth max_depth store,
  (unseen store < fuel)%nat ->
  walk py_internals blocks fuel block depth max_depth store <> OutOfFuel
  /\ forall m store',
       walk py_internals blocks fuel block depth max_depth store = Returns (m, store') ->
       seen <$> store' = seen <$> store.
Proof.
  induction fuel as [|fuel IH]; intros block depth max_depth store Hfuel; [lia|].
  simpl.
  destruct (resolve blocks block) as [h|]; simpl; [|done].
  destruct (store !! h) as [b|] eqn:Hh; simpl; [|done].
  destruct (seen b || (depth <=? startdepth b)) eqn:Hprune.
  { split; [done|]. by intros ?? [= <- <-]. }
  apply orb_false_iff in Hprune as [Hs _].
  pose proof (unseen_mark store h b depth Hh Hs) as Hmark.
  destruct (walk_ops_total py_internals (walk py_internals blocks fuel)
              (seen <$> <[h := set_startdepth depth (set_seen true b)]> store))
    with (next_block := next b) (l := ops b) (depth := depth) (max_depth := max_depth)
         (store := <[h := set_startdepth depth (set_seen true b)]> store)
    as [Hne Hret]; [|done|].
  { intros blk d m st Hst. destruct (IH blk d m st) as [H1 H2].
    - rewrite (unseen_same _ _ Hst). lia.
    - split; [done|]. intros m' st' H. rewrite <- Hst. by eapply H2. }
  destruct (walk_ops _ _ _ _ _ _ _) as [[m1 store1]| |]; simpl; [|done..].
  split; [done|]. intros ?? [= <- <-].
  eapply seen_restored; [done..|]. by eapply Hret.
Qed.

(** The blocks that [blocks_from_ops] makes are chained in order. *)
Lemma chained_insert (store : list Block) (h : nat) b b' :
  store !! h = Some b -> next b' = next b -> chained store ->
  chained (<[h := b']> store).
Proof.
  intros Hh Hn Hc i x. rewrite length_insert, list_lookup_insert.
  case_decide as Hi.
  - intros [= <-]. destruct Hi as [-> _]. rewrite Hn. by apply Hc.
  - apply Hc.
Qed.

Lemma blocks_step_inv st op : blocks_inv st -> blocks_inv (blocks_step st op).
Proof.
  intros (Hc & Hcur & Hnone). destruct op as [o|l]; simpl.
  - split_and!; simpl; [|by rewrite length_alter|done].
    intros i x. rewrite length_alter, list_lookup_alter.
    case_decide as Hi.
    + subst i. destruct (store st !! current_block st) as [b|] eqn:Hb; simpl; [|done].
      intros ?; simplify_eq. simpl. by apply Hc.
    + apply Hc.
  - split_and!; simpl.
    + intros i x. rewrite length_app, length_alter. simpl.
      intros [Hx|[Hi Hx]]%lookup_app_Some.
      * assert (i < length (store st))%nat as Hlt.
        { apply lookup_lt_Some in Hx. by rewrite length_alter in Hx. }
        rewrite list_lookup_alter in Hx.
        case_decide as Hcase.
        -- subst i. destruct (store st !! current_block st) as [b|] eqn:Hb; [|done].
           simpl in Hx. simplify_eq. simpl.
           rewrite decide_True by lia. f_equal. lia.
        -- rewrite (Hc _ _ Hx). repeat case_decide; try done; lia.
      * rewrite length_alter in Hi, Hx.
        apply list_lookup_singleton_Some in Hx as [Hx <-]. simpl.
        rewrite decide_False by lia. done.
    + rewrite length_app, length_alter. simpl. lia.
    + by rewrite lookup_insert_ne.
Qed.

Lemma blocks_from_ops_inv ops : blocks_inv (blocks_from_ops ops).
Proof.
  unfold blocks_from_ops.
  assert (H : blocks_inv (mkBlocks [new_block None] {[None := 0%nat]} 0%nat)).
  { split_and!; simpl; [|done|done].
    intros i x [-> <-]%list_lookup_singleton_Some. done. }
  revert H. generalize (mkBlocks [new_block None] {[None := 0%nat]} 0%nat).
  induction ops as [|op ops IH]; intros st H; simpl; [done|].
  apply IH. by apply blocks_step_inv.
Qed.

Lemma blocks_from_ops_length ops :
  length (store (blocks_from_ops ops)) = S (length (labels_of ops)).
Proof.
  unfold blocks_from_ops.
  change (S (length (labels_of ops))) with
    (length (store (mkBlocks [new_block None] {[None := 0%nat]} 0%nat))
     + length (labels_of ops))%nat.
  generalize (mkBlocks [new_block None] {[None := 0%nat]} 0%nat).
  induction ops as [|[o|l] ops IH]; intros st; simpl.
  - lia.
  - rewrite IH. simpl. by rewrite length_alter.
  - rewrite IH. simpl. rewrite length_app, length_alter. simpl.
    unfold labels_of. simpl. lia.
Qed.

(** The loop that resets the marks ends: it follows the chain. *)
Lemma reset_blocks_total fuel : forall (h : nat) (store : list Block),
  chained store -> (h < length store)%nat -> (length store <= h + fuel)%nat ->
  exists store', reset_blocks fuel (Some h) store = Returns store'
                 /\ length store' = length store.
Proof.
  induction fuel as [|fuel IH]; intros h store Hc Hh Hfuel; [lia|].
  simpl. destruct (lookup_lt_is_Some_2 store h Hh) as [b Hb]. rewrite Hb.
  pose proof (Hc _ _ Hb) as Hnext.
  set (b' := set_startdepth (-1) (set_seen false b)).
  assert (Hc' : chained (<[h := b']> store)) by by eapply chained_insert.
  rewrite Hnext. case_decide as Hlt.
  - destruct (IH (S h) (<[h := b']> store) Hc') as (store' & -> & Hlen).
    + by rewrite length_insert.
    + rewrite length_insert. lia.
    + exists store'. split; [done|]. by rewrite Hlen, length_insert.
  - exists (<[h := b']> store). split; [by destruct fuel|]. by rewrite length_insert.
Qed.

(** C8.  [calculate_max_stack_depth] ends, by returning a depth or by
    raising, for every sequence, jumps that form cycles included: the
    recursion of [walk] never needs more fuel than one more than the number
    of blocks (two more than the number of label elements).  The walk
    returns at once from a block that is marked [seen] or whose
    [startdepth] is at least the current depth. *)
Theorem calculate_max_stack_depth_terminates py_internals ops fuel :
  (depth_fuel ops <= fuel)%nat ->
  calculate_max_stack_depth py_internals fuel ops <> OutOfFuel
  /\ depth_fuel ops = (2 + length (labels_of ops))%nat
  /\ forall blocks n h b depth max_depth (store : list Block),
       store !! h = Some b ->
       seen b = true \/ depth <= startdepth b ->
       walk py_internals blocks (S n) (RBlock h) depth max_depth store
       = Returns (max_depth, store).
Proof.
  intros Hfuel. unfold depth_fuel in *. split_and!.
  - unfold calculate_max_stack_depth, dict_get.
    destruct (blocks_from_ops_inv ops) as (Hc & Hcur & ->). simpl.
    destruct (reset_blocks_total fuel 0 (store (blocks_from_ops ops)) Hc)
      as (store' & -> & Hlen); [lia..|].
    simpl.
    destruct (walk_total py_internals (blocks (blocks_from_ops ops)) fuel
                (RKey ArgNone) 0 0 store') as [Hne _].
    { pose proof (unseen_le store'). lia. }
    by destruct (walk _ _ _ _ _ _ _) as [[m st]| |].
  - by rewrite blocks_from_ops_length.
  - intros blocks n h b depth max_depth store Hh Hp. simpl. rewrite Hh. simpl.
    destruct Hp as [->|Hp]; [done|].
    destruct (Z.leb_spec depth (startdepth b)); [|lia].
    by rewrite orb_true_r.
Qed.

Lemma calculate_max_stack_depth_terminates_witness :
  calculate_max_stack_depth sample_internals 3
    [ILabel 0%nat; IOp (mkOp "LOAD_CONST" (ArgInt 1)); IOp (mkOp "POP_TOP" ArgNone);
     IOp (mkOp "JUMP_ABSOLUTE" (ArgLabel 0%nat))] <> OutOfFuel.
Proof.
  apply (calculate_max_stack_depth_terminates sample_internals
           [ILabel 0%nat; IOp (mkOp "LOAD_CONST" (ArgInt 1)); IOp (mkOp "POP_TOP" ArgNone);
            IOp (mkOp "JUMP_ABSOLUTE" (ArgLabel 0%nat))] 3).
  vm_compute. lia.
Defined.

(** ** Addresses within a pass *)

Lemma arg_size_cases v : arg_size v = 3 \/ arg_size v = 6.
Proof. unfold arg_size. destruct (65536 <=? v); auto. Qed.

Lemma arg_size_mono v w : v <= w -> arg_size v <= arg_size w.
Proof.
  unfold arg_size. intros H.
  destruct (Z.leb_spec 65536 v), (Z.leb_spec 65536 w); lia.
Qed.

Lemma op_advance_cases py_internals la addr o c :
  op_advance py_internals la addr o c = 1
  \/ op_advance py_internals la addr o c = 3
  \/ op_advance py_internals la addr o c = 6.
Proof.
  unfold op_advance.
  destruct (arg o) as [|n|l]; [auto|right; apply arg_size_cases|].
  destruct (la !! l) as [a|].
  - destruct (is_jrel py_internals c); right; apply arg_size_cases.
  - destruct (is_jabs py_internals c && (65535 <? addr)); auto.
Qed.

Section Addresses.
Variable py_internals : PyInternals.
Variable ops : list Item.

Lemma emit_Next st op_code op_arg st' :
  emit py_internals st op_code op_arg = Next st' ->
  label_address st' = label_address st
  /\ retry st' = retry st
  /\ address st' = address st + arg_size op_arg
  /\ Z.of_nat (length (output st')) = Z.of_nat (length (output st)) + arg_size op_arg.
Proof.
  unfold emit, arg_size. intros H.
  destruct (65536 <=? op_arg).
  - destruct (encode_op (extended_arg py_internals) _) as [bs1|] eqn:E1; [|done].
    destruct (encode_op op_code _) as [bs2|] eqn:E2; [|done].
    simplify_eq. simpl.
    apply encode_op_arg_length in E1, E2. rewrite !length_app. split_and!; try done; lia.
  - destruct (encode_op op_code _) as [bs2|] eqn:E2; [|done].
    simplify_eq. simpl.
    apply encode_op_arg_length in E2. rewrite !length_app. split_and!; try done; lia.
Qed.

(** What an instruction does to the locals of a pass. *)
Lemma step_op_Next st o st' :
  step py_internals ops st (IOp o) = Next st' ->
  exists op_code,
    opmap py_internals !! name o = Some op_code
    /\ label_address st' = label_address st
    /\ retry st' = retry st
    /\ address st' = address st
                     + op_advance py_internals (label_address st) (address st) o op_code.
Proof.
  unfold step, op_advance. intros H.
  destruct (opmap py_internals !! name o) as [op_code|]; [|done].
  exists op_code. split; [done|].
  destruct (arg o) as [|n|l].
  - destruct (have_argument py_internals <=? op_code); [done|].
    destruct (encode_op op_code None); [|done]. by simplify_eq.
  - destruct (op_code <? have_argument py_internals); [done|].
    destruct (is_jump py_internals op_code); [done|].
    apply emit_Next in H as (? & ? & ? & _). done.
  - destruct (op_code <? have_argument py_internals); [done|].
    destruct (negb (is_jump py_internals op_code)); [done|].
    destruct (negb (bool_decide (ILabel l ∈ ops))); [done|].
    destruct (label_address st !! l) as [a|].
    + destruct (is_jrel py_internals op_code);
        apply emit_Next in H as (? & ? & ? & _); done.
    + destruct (is_jabs py_internals op_code && (65535 <? address st)); by simplify_eq.
Qed.

(** What a label element does to them. *)
Lemma step_label st l :
  exists st',
    step py_internals ops st (ILabel l) = Next st'
    /\ label_address st' = <[l := address st]> (label_address st)
    /\ address st' = address st
    /\ output st' = output st
    /\ (retry st' = true <->
        retry st = true \/ label_address st !! l <> Some (address st)).
Proof.
  unfold step. case_decide as H.
  - exists st. split_and!; try done.
    + by rewrite insert_id.
    + split; [by left | by intros [?|?]].
  - eexists. split_and!; try done. simpl. split; [by right | done].
Qed.

(** Along the loop the address does not decrease, and a label keeps its
    address or is recorded at an address that the loop reaches. *)
Lemma steps_lookup rest : forall st st',
  steps py_internals ops rest st = Next st' ->
  address st <= address st'
  /\ forall l, label_address st' !! l = label_address st !! l
               \/ exists a, label_address st' !! l = Some a
                            /\ address st <= a <= address st'.
Proof.
  induction rest as [|x rest IH]; intros st st' H; simpl in H.
  { simplify_eq. split; [lia|]. by left. }
  destruct (step py_internals ops st x) as [st1|] eqn:E; [|done].
  destruct (IH _ _ H) as [Hle Hl].
  destruct x as [o|l].
  - apply step_op_Next in E as (c & _ & Hla & _ & Ha).
    pose proof (op_advance_cases py_internals (label_address st) (address st) o c).
    split; [lia|]. intros l. rewrite <- Hla.
    destruct (Hl l) as [?|(a & ? & ?)]; [by left|right]. exists a. split; [done|lia].
  - destruct (step_label st l) as (st1' & E' & Hla & Ha & _).
    rewrite E in E'. simplify_eq.
    split; [lia|]. intros l'.
    destruct (Hl l') as [Hsame|(a & ? & ?)].
    + rewrite Hsame, Hla. destruct (decide (l = l')) as [<-|Hne].
      * right. exists (address st). rewrite lookup_insert_eq. split; [done|lia].
      * left. by rewrite lookup_insert_ne.
    + right. exists a. split; [done|lia].
Qed.

End Addresses.

(** ** Label addresses do not decrease from one pass to the next *)

Lemma ahead_arith addrA addrB sA sB :
  addrA <= addrB -> (3 | addrB - addrA) ->
  sA = 3 \/ sA = 6 -> sB = 3 \/ sB = 6 ->
  (sA = 6 -> sB = 3 -> addrA < addrB) ->
  addrA + sA <= addrB + sB /\ (3 | addrB + sB - (addrA + sA)).
Proof.
  intros Hle [k Hk] HA HB Hlt.
  destruct HA as [-> | ->], HB as [-> | ->].
  - split; [lia|]. exists k. lia.
  - split; [lia|]. exists (k + 1). lia.
  - specialize (Hlt eq_refl eq_refl). split; [lia|]. exists (k - 1). lia.
  - split; [lia|]. exists k. lia.
Qed.

(** Closes a goal that an instruction with an argument takes three bytes
    or six. *)
Ltac size_cases := first [apply arg_size_cases | by left | by right].

Section Monotone.
Variable py_internals : PyInternals.
Variable ops : list Item.
Hypothesis disjoint : disjoint_jumps py_internals.

(** The second run stays ahead over one instruction. *)
Lemma op_advance_ahead laA laB addrA addrB o c :
  addrA <= addrB -> (3 | addrB - addrA) -> addr_le laA laB ->
  (forall l b, arg o = ArgLabel l -> laA !! l = None -> laB !! l = Some b ->
               addrA + op_advance py_internals laA addrA o c <= b) ->
  addrA + op_advance py_internals laA addrA o c
  <= addrB + op_advance py_internals laB addrB o c
  /\ (3 | addrB + op_advance py_internals laB addrB o c
          - (addrA + op_advance py_internals laA addrA o c)).
Proof.
  intros Hle Hdiv Hla Hnew. unfold op_advance in *.
  destruct (arg o) as [|n|l].
  - split; [lia|]. by replace (addrB + 1 - (addrA + 1)) with (addrB - addrA) by lia.
  - apply ahead_arith; [done|done|size_cases|size_cases|lia].
  - destruct (laA !! l) as [a|] eqn:EA.
    + destruct (Hla _ _ EA) as (b & -> & Hab & [k Hk]).
      destruct (is_jrel py_internals c).
      * apply ahead_arith; [done|done|size_cases|size_cases|].
        unfold arg_size. intros HA HB.
        destruct (Z.leb_spec 65536 (a - (addrA + 3))); [|lia].
        destruct (Z.leb_spec 65536 (b - (addrB + 3))); [lia|].
        destruct Hdiv as [j Hj]. lia.
      * apply ahead_arith; [done|done|size_cases|size_cases|].
        pose proof (arg_size_mono a b Hab). lia.
    + destruct (laB !! l) as [b|] eqn:EB.
      * specialize (Hnew l b eq_refl EA EB).
        destruct (is_jabs py_internals c && (65535 <? addrA)) eqn:Eh.
        -- apply andb_true_iff in Eh as [Hjabs Haddr].
           apply Z.ltb_lt in Haddr.
           destruct (is_jrel py_internals c) eqn:Hjrel.
           { apply disjoint in Hjrel. congruence. }
           apply ahead_arith; [done|done|size_cases|size_cases|].
           unfold arg_size. destruct (Z.leb_spec 65536 b); lia.
        -- destruct (is_jrel py_internals c);
             (apply ahead_arith; [done|done|size_cases|size_cases|lia]).
      * destruct (is_jabs py_internals c); simpl.
        -- destruct (Z.ltb_spec 65535 addrA), (Z.ltb_spec 65535 addrB);
             (apply ahead_arith; [done|done|size_cases|size_cases|lia]).
        -- apply ahead_arith; [done|done|size_cases|size_cases|lia].
Qed.

(** The second run stays ahead of the first along the whole loop. *)
Lemma steps_ahead fin rest : forall stA stB stA' stB',
  steps py_internals ops rest stA = Next stA' ->
  steps py_internals ops rest stB = Next stB' ->
  label_address stA' = fin ->
  ahead stA stB fin ->
  ahead stA' stB' fin.
Proof.
  induction rest as [|x rest IH]; intros stA stB stA' stB' HA HB Hfin Hah; simpl in *.
  { by simplify_eq. }
  destruct (step py_internals ops stA x) as [stA1|] eqn:EA; [|done].
  destruct (step py_internals ops stB x) as [stB1|] eqn:EB; [|done].
  apply (IH stA1 stB1); try done.
  destruct Hah as (Hle & Hdiv & Hla & Hnew).
  destruct x as [o|l].
  - apply step_op_Next in EA as (c & Hc & HlaA & _ & HaA).
    apply step_op_Next in EB as (c' & Hc' & HlaB & _ & HaB).
    assert (c' = c) as -> by congruence.
    unfold ahead. rewrite HlaA, HlaB, HaA, HaB.
    destruct (op_advance_ahead (label_address stA) (label_address stB)
                (address stA) (address stB) o c Hle Hdiv Hla) as [H1 H2];
      [|by split_and!].
    intros l b _ HlA HlB. specialize (Hnew l b HlA HlB).
    destruct (steps_lookup py_internals ops rest _ _ HA) as [_ Hl].
    rewrite <- HaA.
    destruct (Hl l) as [Hsame|(a & Ha & Hge & _)].
    + rewrite Hfin, HlaA, HlA in Hsame. congruence.
    + rewrite Hfin in Ha. by simplify_eq.
  - destruct (step_label py_internals ops stA l) as (? & E1 & HlaA & HaA & _).
    destruct (step_label py_internals ops stB l) as (? & E2 & HlaB & HaB & _).
    rewrite EA in E1. rewrite EB in E2. simplify_eq.
    unfold ahead. rewrite HlaA, HlaB, HaA, HaB. split_and!; try done.
    + intros l' a. rewrite !lookup_insert. case_decide.
      * intros [= <-]. eauto.
      * apply Hla.
    + intros l' b. rewrite !lookup_insert. case_decide; [done|]. apply Hnew.
Qed.

(** One pass after another: when the first did not lower the addresses
    that it started from, the second does not lower those of the first. *)
Lemma pass_ahead la stA stB :
  pass py_internals ops la = Next stA ->
  pass py_internals ops (label_address stA) = Next stB ->
  addr_le la (label_address stA) ->
  addr_le (label_address stA) (label_address stB).
Proof.
  unfold pass. intros HA HB Hle.
  eapply (steps_ahead (label_address stA)) in HB as (_ & _ & H & _); [done..|].
  split_and!; simpl; try done. by exists 0.
Qed.

Lemma reached_addr_le la st :
  reached py_internals ops la ->
  pass py_internals ops la = Next st ->
  addr_le la (label_address st).
Proof.
  intros Hr. revert st. induction Hr as [|la st0 Hr IH H0 _]; intros st H.
  - intros l a. by rewrite lookup_empty.
  - eapply pass_ahead; [done..|]. by apply IH.
Qed.

End Monotone.

(** ** Running a pass on given elements *)

Section Evaluate.
Variable py_internals : PyInternals.
Variable ops : list Item.

Lemma step_label_eq out la r a l :
  step py_internals ops (mkPass out la r a) (ILabel l)
  = Next (mkPass out (<[l := a]> la) (r || negb (bool_decide (la !! l = Some a))) a).
Proof.
  unfold step. simpl. case_decide as H.
  - rewrite bool_decide_eq_true_2 by done. rewrite orb_false_r. by rewrite insert_id.
  - rewrite bool_decide_eq_false_2 by done. by rewrite orb_true_r.
Qed.

Lemma step_noarg_eq out la r a nm c b :
  opmap py_internals !! nm = Some c -> c < have_argument py_internals ->
  int2byte c = Some b ->
  step py_internals ops (mkPass out la r a) (IOp (mkOp nm ArgNone))
  = Next (mkPass (out ++ [b]) la r (a + 1)).
Proof.
  intros Hc Hlt Hb. unfold step, encode_op. simpl. rewrite Hc.
  destruct (Z.leb_spec (have_argument py_internals) c); [lia|]. by rewrite Hb.
Qed.

Lemma step_jump_unresolved out la r a nm c l :
  opmap py_internals !! nm = Some c -> have_argument py_internals <= c ->
  is_jump py_internals c = true -> ILabel l ∈ ops -> la !! l = None ->
  step py_internals ops (mkPass out la r a) (IOp (mkOp nm (ArgLabel l)))
  = Next (mkPass out la r
            (a + if is_jabs py_internals c && (65535 <? a) then 6 else 3)).
Proof.
  intros Hc Hge Hj Hin Hl. unfold step. simpl. rewrite Hc, Hj, Hl.
  destruct (Z.ltb_spec c (have_argument py_internals)); [lia|].
  rewrite bool_decide_eq_true_2 by done. simpl.
  by destruct (is_jabs py_internals c && (65535 <? a)).
Qed.

Lemma step_jump_resolved out la r a nm c l t :
  opmap py_internals !! nm = Some c -> have_argument py_internals <= c ->
  is_jump py_internals c = true -> ILabel l ∈ ops -> la !! l = Some t ->
  step py_internals ops (mkPass out la r a) (IOp (mkOp nm (ArgLabel l)))
  = emit py_internals (mkPass out la r a) c
      (if is_jrel py_internals c then t - (a + 3) else t).
Proof.
  intros Hc Hge Hj Hin Hl. unfold step. simpl. rewrite Hc, Hj, Hl.
  destruct (Z.ltb_spec c (have_argument py_internals)); [lia|].
  rewrite bool_decide_eq_true_2 by done. simpl.
  by destruct (is_jrel py_internals c).
Qed.

(** [emit] appends to the output the bytes that it emits from an empty
    output. *)
Lemma emit_eq out la r a c v bs :
  emit py_internals (mkPass [] ∅ false 0) c v
  = Next (mkPass bs ∅ false (Z.of_nat (length bs))) ->
  emit py_internals (mkPass out la r a) c v
  = Next (mkPass (out ++ bs) la r (a + Z.of_nat (length bs))).
Proof.
  unfold emit. cbn [output label_address retry address].
  destruct (65536 <=? v).
  - destruct (encode_op (extended_arg py_internals) _) as [bs1|]; [|done].
    cbn [output label_address retry address].
    destruct (encode_op c _) as [bs2|]; [|done].
    intros H. injection H as Hbs Ha. subst bs. rewrite <- Ha.
    cbn [app]. rewrite <- app_assoc. do 2 f_equal. lia.
  - destruct (encode_op c _) as [bs2|]; [|done].
    intros H. injection H as Hbs Ha. subst bs. rewrite <- Ha.
    cbn [app]. do 2 f_equal.
Qed.

Lemma steps_nops n : forall out la r a,
  opmap py_internals !! "NOP" = Some 9 -> 9 < have_argument py_internals ->
  steps py_internals ops (repeat (IOp (mkOp "NOP" ArgNone)) n) (mkPass out la r a)
  = Next (mkPass (out ++ repeat x09 n) la r (a + Z.of_nat n)).
Proof.
  intros out la r a Hc Hlt. revert out a.
  induction n as [|n IH]; intros out a.
  { simpl. rewrite app_nil_r. do 2 f_equal. lia. }
  cbn [repeat steps].
  rewrite (step_noarg_eq _ _ _ _ _ 9 x09) by done.
  rewrite IH. rewrite <- app_assoc. do 2 f_equal. lia.
Qed.

End Evaluate.

(** ** A descriptor with an opcode in both jump tables *)

Section LateJump.
Variable n : nat.
Hypothesis Hn : Z.of_nat n = 65536.

(** The first pass meets the jump at the address 65536 with its label
    unknown and reserves six bytes for it. *)
Lemma late_jump_first_pass :
  pass overlap_internals (late_jump n) ∅
  = Next (mkPass (repeat x09 n) {[0%nat := 65542]} true 65542).
Proof.
  unfold pass, late_jump. rewrite steps_app.
  rewrite steps_nops by (by vm_compute).
  cbn [steps app].
  rewrite (step_jump_unresolved _ _ _ _ _ _ "JUMP_FORWARD" 110 0%nat);
    [|by vm_compute|by vm_compute|by vm_compute| |by rewrite lookup_empty].
  2:{ apply elem_of_app. right. apply elem_of_cons. right. apply list_elem_of_here. }
  rewrite step_label_eq. rewrite Hn.
  rewrite lookup_empty.
  reflexivity.
Qed.

(** The second pass encodes it, as a relative jump by 3, in three. *)
Lemma late_jump_second_pass :
  pass overlap_internals (late_jump n) {[0%nat := 65542]}
  = Next (mkPass (repeat x09 n ++ [x6e; x03; x00]) {[0%nat := 65539]} true 65539).
Proof.
  unfold pass, late_jump. rewrite steps_app.
  rewrite steps_nops by (by vm_compute).
  cbn [steps app].
  rewrite (step_jump_resolved _ _ _ _ _ _ "JUMP_FORWARD" 110 0%nat 65542);
    [|by vm_compute|by vm_compute|by vm_compute| |by vm_compute].
  2:{ apply elem_of_app. right. apply elem_of_cons. right. apply list_elem_of_here. }
  rewrite Hn.
  set (v := if is_jrel _ _ then _ else _). vm_compute in v. subst v.
  rewrite (emit_eq _ _ _ _ _ 110 3 [x6e; x03; x00]) by (by vm_compute).
  rewrite step_label_eq.
  reflexivity.
Qed.

End LateJump.

(** Why the addresses are compared under disjoint jump tables.  With
    [JUMP_FORWARD] in both jump tables, the label after 65536 [NOP]s and a
    jump to it is recorded at 65542 by the first pass and at 65539 by the
    second. *)
Lemma late_jump_lowers_address :
  exists st1 st2,
    pass overlap_internals (late_jump (Z.to_nat 65536)) ∅ = Next st1
    /\ retry st1 = true
    /\ label_address st1 !! 0%nat = Some 65542
    /\ pass overlap_internals (late_jump (Z.to_nat 65536)) (label_address st1) = Next st2
    /\ label_address st2 !! 0%nat = Some 65539
    /\ 65539 < 65542.
Proof.
  eexists _, _. split; [apply late_jump_first_pass; lia|].
  split; [done|]. split; [done|].
  split; [apply late_jump_second_pass; lia|]. done.
Qed.

Lemma sample_disjoint_jumps : disjoint_jumps sample_internals.
Proof.
  intros c H. apply bool_decide_eq_true in H. apply bool_decide_eq_false.
  simpl in *. set_unfold. lia.
Qed.

(** ** The passes come to an end *)

(** Twice the same label at two addresses: every pass moves it, from 0 to
    1, and asks for another pass. *)
Lemma label_twice_pass la :
  pass sample_internals label_twice la
  = Next (mkPass [x09] (<[0%nat := 1]> (<[0%nat := 0]> la)) true 1).
Proof.
  unfold pass, label_twice, nop. cbn [steps].
  rewrite step_label_eq.
  rewrite (step_noarg_eq _ _ _ _ _ _ "NOP" 9 x09) by (by vm_compute).
  rewrite step_label_eq. rewrite lookup_insert_eq.
  rewrite (bool_decide_eq_false_2 (Some 0 = Some (0 + 1))) by done.
  by rewrite orb_true_r.
Qed.

(** C2 as the specification words it.  The sequence [L; NOP; L] uses no
    label as an argument, so it has the structural invariant, and the loop
    of [assemble] does not end on it. *)
Lemma label_twice_never_ends :
  (forall o l, IOp o ∈ label_twice -> arg o = ArgLabel l -> ILabel l ∈ label_twice)
  /\ forall fuel, assemble sample_internals fuel label_twice = OutOfFuel.
Proof.
  split.
  - intros o l Hin Harg. unfold label_twice, nop in Hin.
    exfalso.
    repeat (apply elem_of_cons in Hin as [Hin|Hin];
            [try done; injection Hin as ->; done|]).
    by apply elem_of_nil in Hin.
  - intros fuel. unfold assemble. generalize (∅ : gmap Label Z).
    induction fuel as [|fuel IH]; intros la; [done|].
    cbn [assemble_loop]. rewrite label_twice_pass. cbn [retry label_address].
    apply IH.
Qed.

Section Termination.
Variable py_internals : PyInternals.
Variable ops : list Item.

(** A label that is not among the elements keeps its address. *)
Lemma steps_label_keep rest l : forall st st',
  steps py_internals ops rest st = Next st' ->
  l ∉ labels_of rest ->
  label_address st' !! l = label_address st !! l.
Proof.
  induction rest as [|x rest IH]; intros st st' H Hl; simpl in H.
  { by simplify_eq. }
  destruct (step py_internals ops st x) as [st1|] eqn:E; [|done].
  destruct x as [o|l'].
  - apply step_op_Next in E as (c & _ & Hla & _).
    rewrite <- Hla. by apply IH.
  - destruct (step_label py_internals ops st l') as (? & E' & Hla & _).
    rewrite E in E'. simplify_eq.
    unfold labels_of in Hl. simpl in Hl. apply not_elem_of_cons in Hl as [Hne Hl].
    rewrite (IH _ _ H Hl), Hla. by rewrite lookup_insert_ne.
Qed.

(** A label among the elements is recorded, at an address of the loop. *)
Lemma steps_label_set rest l : forall st st',
  steps py_internals ops rest st = Next st' ->
  l ∈ labels_of rest ->
  exists a, label_address st' !! l = Some a /\ address st <= a <= address st'.
Proof.
  induction rest as [|x rest IH]; intros st st' H Hl; simpl in H.
  { by apply elem_of_nil in Hl. }
  destruct (step py_internals ops st x) as [st1|] eqn:E; [|done].
  pose proof (steps_lookup _ _ _ _ _ H) as [Hle1 Hlook].
  destruct x as [o|l'].
  - apply step_op_Next in E as (c & _ & _ & _ & Ha).
    pose proof (op_advance_cases py_internals (label_address st) (address st) o c).
    destruct (IH _ _ H Hl) as (a & ? & ?). exists a. split; [done|lia].
  - destruct (step_label py_internals ops st l') as (? & E' & Hla & Ha & _).
    rewrite E in E'. simplify_eq.
    unfold labels_of in Hl. simpl in Hl. apply elem_of_cons in Hl as [->|Hl].
    + destruct (Hlook l') as [Hsame|(a & ? & ?)].
      * exists (address st). rewrite Hsame, Hla, lookup_insert_eq. split; [done|lia].
      * exists a. split; [done|lia].
    + destruct (IH _ _ H Hl) as (a & ? & ?). exists a. split; [done|lia].
Qed.

(** No element takes more than six bytes. *)
Lemma steps_address_le rest : forall st st',
  steps py_internals ops rest st = Next st' ->
  address st' <= address st + 6 * Z.of_nat (length rest).
Proof.
  induction rest as [|x rest IH]; intros st st' H; simpl in H.
  { simplify_eq. simpl. lia. }
  destruct (step py_internals ops st x) as [st1|] eqn:E; [|done].
  apply IH in H. cbn [length]. destruct x as [o|l'].
  - apply step_op_Next in E as (c & _ & _ & _ & Ha).
    pose proof (op_advance_cases py_internals (label_address st) (address st) o c). lia.
  - destruct (step_label py_internals ops st l') as (? & E' & _ & Ha & _).
    rewrite E in E'. simplify_eq. lia.
Qed.

(** [retry] is set only where a label has moved. *)
Lemma steps_retry rest : forall st st',
  steps py_internals ops rest st = Next st' ->
  NoDup (labels_of rest) ->
  retry st' = true ->
  retry st = true
  \/ exists l, l ∈ labels_of rest /\ label_address st' !! l <> label_address st !! l.
Proof.
  induction rest as [|x rest IH]; intros st st' H Hnd Hr; simpl in H.
  { simplify_eq. by left. }
  destruct (step py_internals ops st x) as [st1|] eqn:E; [|done].
  destruct x as [o|l'].
  - apply step_op_Next in E as (c & _ & Hla & Hre & _).
    destruct (IH _ _ H Hnd Hr) as [?|(l & ? & ?)]; [left; congruence|right].
    exists l. by rewrite <- Hla.
  - destruct (step_label py_internals ops st l') as (? & E' & Hla & _ & _ & Hre).
    rewrite E in E'. simplify_eq.
    unfold labels_of in Hnd |- *. simpl in Hnd |- *.
    apply NoDup_cons in Hnd as [Hnotin Hnd].
    destruct (IH _ _ H Hnd Hr) as [Hr1|(l & Hl & Hne)].
    + apply Hre in Hr1 as [?|Hmoved]; [by left|right].
      exists l'. split; [apply list_elem_of_here|].
      rewrite (steps_label_keep _ _ _ _ H Hnotin), Hla, lookup_insert_eq.
      congruence.
    + right. exists l. split; [by apply list_elem_of_further|].
      rewrite Hla, lookup_insert_ne in Hne; [done|]. by intros ->.
Qed.

End Termination.

Lemma addr_sum_le la lb ls :
  (forall l, l ∈ ls -> default 0 (la !! l) <= default 0 (lb !! l)) ->
  addr_sum la ls <= addr_sum lb ls.
Proof.
  induction ls as [|l ls IH]; intros H; simpl; [lia|].
  pose proof (H l (list_elem_of_here _ _)).
  assert (addr_sum la ls <= addr_sum lb ls).
  { apply IH. intros l' Hl'. apply H. by apply list_elem_of_further. }
  lia.
Qed.

Lemma addr_sum_lt la lb ls l :
  (forall l, l ∈ ls -> default 0 (la !! l) <= default 0 (lb !! l)) ->
  l ∈ ls -> default 0 (la !! l) < default 0 (lb !! l) ->
  addr_sum la ls < addr_sum lb ls.
Proof.
  induction ls as [|l' ls IH]; intros H Hl Hlt; simpl.
  { by apply elem_of_nil in Hl. }
  pose proof (H l' (list_elem_of_here _ _)).
  assert (Hrest : forall l, l ∈ ls -> default 0 (la !! l) <= default 0 (lb !! l)).
  { intros l'' Hl''. apply H. by apply list_elem_of_further. }
  apply elem_of_cons in Hl as [->|Hl].
  - pose proof (addr_sum_le la lb ls Hrest). lia.
  - specialize (IH Hrest Hl Hlt). lia.
Qed.

Lemma addr_sum_bounds la ls B :
  (forall l, l ∈ ls -> 0 <= default 0 (la !! l) <= B) ->
  0 <= addr_sum la ls <= B * Z.of_nat (length ls).
Proof.
  induction ls as [|l ls IH]; intros H; simpl; [lia|].
  pose proof (H l (list_elem_of_here _ _)).
  assert (0 <= addr_sum la ls <= B * Z.of_nat (length ls)).
  { apply IH. intros l' Hl'. apply H. by apply list_elem_of_further. }
  lia.
Qed.

Section Loop.
Variable py_internals : PyInternals.
Variable ops : list Item.
Hypothesis disjoint : disjoint_jumps py_internals.
Hypothesis labels_once : NoDup (labels_of ops).

(** The addresses that a pass records are within six bytes for each
    element. *)
Lemma pass_bounds la st l :
  pass py_internals ops la = Next st -> l ∈ labels_of ops ->
  exists a, label_address st !! l = Some a
            /\ 0 <= a <= 6 * Z.of_nat (length ops).
Proof.
  unfold pass. intros H Hl.
  destruct (steps_label_set _ _ _ _ _ _ H Hl) as (a & Ha & Hge & Hle).
  apply steps_address_le in H. simpl in *. exists a. split; [done|lia].
Qed.

Lemma pass_sum_bounds la st :
  pass py_internals ops la = Next st ->
  0 <= addr_sum (label_address st) (labels_of ops)
    <= 6 * Z.of_nat (length ops) * Z.of_nat (length (labels_of ops)).
Proof.
  intros H. apply addr_sum_bounds. intros l Hl.
  destruct (pass_bounds la st l H Hl) as (a & -> & ?). done.
Qed.

(** A pass that asks for another one has moved a label up. *)
Lemma pass_retry_sum la st :
  pass py_internals ops la = Next st -> retry st = true ->
  (forall l, l ∈ labels_of ops -> is_Some (la !! l)) ->
  addr_le la (label_address st) ->
  addr_sum la (labels_of ops) < addr_sum (label_address st) (labels_of ops).
Proof.
  intros H Hr Hfull Hle.
  destruct (steps_retry _ _ _ _ _ H labels_once Hr) as [?|(l & Hl & Hne)]; [done|].
  simpl in Hne.
  apply (addr_sum_lt _ _ _ l); [|done|].
  - intros l' Hl'. destruct (Hfull l' Hl') as [a Ha].
    destruct (Hle _ _ Ha) as (b & Hb & ? & _). by rewrite Ha, Hb.
  - destruct (Hfull l Hl) as [a Ha].
    destruct (Hle _ _ Ha) as (b & Hb & ? & _). rewrite Ha, Hb in *. simpl.
    assert (a <> b) by congruence. lia.
Qed.

(** From a pass on, the loop ends within the room that the addresses
    have left to grow. *)
Lemma assemble_loop_total fuel : forall la,
  (forall l, l ∈ labels_of ops -> is_Some (la !! l)) ->
  (forall st, pass py_internals ops la = Next st -> addr_le la (label_address st)) ->
  addr_sum la (labels_of ops)
    <= 6 * Z.of_nat (length ops) * Z.of_nat (length (labels_of ops)) ->
  6 * Z.of_nat (length ops) * Z.of_nat (length (labels_of ops))
    - addr_sum la (labels_of ops) < Z.of_nat fuel ->
  assemble_loop py_internals fuel ops la <> OutOfFuel.
Proof.
  induction fuel as [|fuel IH]; intros la Hfull Hle Hsum Hfuel; [simpl in Hfuel; lia|].
  cbn [assemble_loop].
  destruct (pass py_internals ops la) as [st|] eqn:E; [|done].
  destruct (retry st) eqn:Hr; [|done].
  apply IH.
  - intros l Hl. destruct (pass_bounds la st l E Hl) as (a & -> & _). eauto.
  - intros st' E'. eapply pass_ahead; [done..|]. by apply Hle.
  - by apply (pass_sum_bounds la st).
  - pose proof (pass_retry_sum la st E Hr Hfull (Hle _ eq_refl)). lia.
Qed.

Lemma assemble_loop_S fuel la :
  assemble_loop py_internals (S fuel) ops la
  = match pass py_internals ops la with
    | Abort e _ => Raises e
    | Next st =>
        if retry st then assemble_loop py_internals fuel ops (label_address st)
        else Returns (output st)
    end.
Proof. reflexivity. Qed.

Lemma assemble_total fuel :
  (pass_bound ops <= fuel)%nat -> assemble py_internals fuel ops <> OutOfFuel.
Proof.
  unfold assemble, pass_bound. intros Hfuel.
  destruct fuel as [|fuel]; [lia|]. rewrite assemble_loop_S.
  destruct (pass py_internals ops ∅) as [st|] eqn:E; [|done].
  destruct (retry st) eqn:Hr; [|done].
  pose proof (pass_sum_bounds ∅ st E) as Hsum.
  apply assemble_loop_total.
  - intros l Hl. destruct (pass_bounds ∅ st l E Hl) as (a & -> & _). eauto.
  - intros st' E'. eapply pass_ahead; [done..|].
    intros l a. by rewrite lookup_empty.
  - lia.
  - lia.
Qed.

End Loop.

(** ** The last pass: recorded addresses are offsets in the output *)

Section LastPass.
Variable py_internals : PyInternals.
Variable ops : list Item.

Lemma assemble_loop_Returns fuel : forall la out,
  assemble_loop py_internals fuel ops la = Returns out ->
  exists la' st, pass py_internals ops la' = Next st
                 /\ retry st = false /\ output st = out.
Proof.
  induction fuel as [|fuel IH]; intros la out H; simpl in H; [done|].
  destruct (pass py_internals ops la) as [st|] eqn:E; [|done].
  destruct (retry st) eqn:Hr; [by eapply IH|].
  simplify_eq. eauto.
Qed.

Lemma steps_split pre post st st' :
  steps py_internals ops (pre ++ post) st = Next st' ->
  exists st1, steps py_internals ops pre st = Next st1
              /\ steps py_internals ops post st1 = Next st'.
Proof.
  rewrite steps_app. destruct (steps py_internals ops pre st); [eauto|done].
Qed.

(** An element that leaves [retry] unset has found it unset, has left
    [label_address] as it was and, if it is a label, has found the label
    at the current address. *)
Lemma step_quiet st x st' :
  step py_internals ops st x = Next st' -> retry st' = false ->
  retry st = false
  /\ label_address st' = label_address st
  /\ forall l, x = ILabel l -> label_address st !! l = Some (address st).
Proof.
  intros H Hr. destruct x as [o|l].
  - apply step_op_Next in H as (c & _ & Hla & Hre & _).
    split_and!; [congruence|done|done].
  - unfold step in H. case_decide as Hl; simplify_eq.
    split_and!; [done|done|]. by intros ? [= <-].
Qed.

Lemma steps_quiet rest : forall st st',
  steps py_internals ops rest st = Next st' -> retry st' = false ->
  retry st = false /\ label_address st' = label_address st.
Proof.
  induction rest as [|x rest IH]; intros st st' H Hr; simpl in H.
  { by simplify_eq. }
  destruct (step py_internals ops st x) as [st1|] eqn:E; [|done].
  destruct (IH _ _ H Hr) as [Hr1 Hla].
  destruct (step_quiet _ _ _ E Hr1) as (? & Hla1 & _).
  split; [done|congruence].
Qed.

Lemma emit_output st op_code op_arg st' :
  emit py_internals st op_code op_arg = Next st' ->
  exists bs, output st' = output st ++ bs
             /\ address st' = address st + Z.of_nat (length bs).
Proof.
  unfold emit. intros H.
  destruct (65536 <=? op_arg).
  - destruct (encode_op (extended_arg py_internals) _) as [bs1|] eqn:E1; [|done].
    destruct (encode_op op_code _) as [bs2|] eqn:E2; [|done].
    simplify_eq. simpl. exists (bs1 ++ bs2).
    apply encode_op_arg_length in E1, E2.
    rewrite app_assoc, length_app. split; [done|lia].
  - destruct (encode_op op_code _) as [bs2|] eqn:E2; [|done].
    simplify_eq. simpl. exists bs2.
    apply encode_op_arg_length in E2. split; [done|lia].
Qed.

(** With every label of the sequence recorded, an instruction emits as
    many bytes as the address moves. *)
Lemma step_op_output st o st' :
  step py_internals ops st (IOp o) = Next st' ->
  (forall l, ILabel l ∈ ops -> is_Some (label_address st !! l)) ->
  exists bs, output st' = output st ++ bs
             /\ address st' = address st + Z.of_nat (length bs).
Proof.
  unfold step. intros H Hfull.
  destruct (opmap py_internals !! name o) as [op_code|]; [|done].
  destruct (arg o) as [|n|l].
  - destruct (have_argument py_internals <=? op_code); [done|].
    destruct (encode_op op_code None) as [bs|] eqn:E; [|done]. simplify_eq.
    exists bs. apply encode_op_noarg_length in E. simpl. split; [done|lia].
  - destruct (op_code <? have_argument py_internals); [done|].
    destruct (is_jump py_internals op_code); [done|].
    by apply emit_output in H.
  - destruct (op_code <? have_argument py_internals); [done|].
    destruct (negb (is_jump py_internals op_code)); [done|].
    case_bool_decide as Hin; [|done]. simpl in H.
    destruct (Hfull l Hin) as [a Ha]. rewrite Ha in H.
    destruct (is_jrel py_internals op_code); by apply emit_output in H.
Qed.

Lemma steps_quiet_output rest : forall st st',
  steps py_internals ops rest st = Next st' -> retry st' = false ->
  (forall l, ILabel l ∈ ops -> is_Some (label_address st !! l)) ->
  exists bs, output st' = output st ++ bs
             /\ address st' = address st + Z.of_nat (length bs).
Proof.
  induction rest as [|x rest IH]; intros st st' H Hr Hfull; simpl in H.
  { simplify_eq. exists []. rewrite app_nil_r. simpl. split; [done|lia]. }
  destruct (step py_internals ops st x) as [st1|] eqn:E; [|done].
  destruct (steps_quiet _ _ _ H Hr) as [Hr1 _].
  destruct (step_quiet _ _ _ E Hr1) as (_ & Hla1 & _).
  destruct (IH _ _ H Hr) as (bs2 & Ho2 & Ha2).
  { by rewrite Hla1. }
  destruct x as [o|l].
  - destruct (step_op_output _ _ _ E Hfull) as (bs1 & Ho1 & Ha1).
    exists (bs1 ++ bs2). rewrite Ho2, Ho1, Ha2, Ha1, app_assoc, length_app.
    split; [done|lia].
  - destruct (step_label py_internals ops st l) as (? & E' & _ & Ha1 & Ho1 & _).
    rewrite E in E'. simplify_eq.
    exists bs2. rewrite Ho2, Ho1, Ha2, Ha1. done.
Qed.

(** In a pass that leaves [retry] unset, each label element stands at the
    offset in the output that is recorded for it. *)
Lemma pass_quiet_offsets la st pre l post :
  pass py_internals ops la = Next st -> retry st = false ->
  ops = pre ++ ILabel l :: post ->
  label_address st = la
  /\ exists st_pre,
       steps py_internals ops pre (pass_start la) = Next st_pre
       /\ la !! l = Some (Z.of_nat (length (output st_pre)))
       /\ exists bs, output st = output st_pre ++ bs.
Proof.
  unfold pass. fold (pass_start la). intros H Hr Hops.
  destruct (steps_quiet _ _ _ H Hr) as [_ Hla]. split; [done|].
  assert (Hfull : forall l, ILabel l ∈ ops -> is_Some (la !! l)).
  { intros l' (pre' & post' & Hsplit)%list_elem_of_split.
    pose proof H as H'. rewrite Hsplit in H' at 2.
    apply steps_split in H' as (st1 & H1 & H2).
    destruct (steps_quiet _ _ _ H2 Hr) as [Hr1 _].
    cbn [steps] in H2.
    destruct (step py_internals ops st1 (ILabel l')) as [st2|] eqn:E; [|done].
    destruct (steps_quiet _ _ _ H2 Hr) as [Hr2 _].
    destruct (step_quiet _ _ _ E Hr2) as (_ & _ & Hl').
    destruct (steps_quiet _ _ _ H1 Hr1) as [_ Hla1].
    specialize (Hl' l' eq_refl). rewrite Hla1 in Hl'. simpl in Hl'. eauto. }
  pose proof H as H'. rewrite Hops in H' at 2.
  apply steps_split in H' as (st_pre & H1 & H2).
  exists st_pre. split; [done|].
  destruct (steps_quiet _ _ _ H2 Hr) as [Hr1 _].
  destruct (steps_quiet _ _ _ H1 Hr1) as [_ Hla1].
  destruct (steps_quiet_output _ _ _ H1 Hr1 Hfull) as (bs1 & Ho1 & Ha1).
  destruct (steps_quiet_output _ _ _ H2 Hr) as (bs2 & Ho2 & _).
  { by rewrite Hla1. }
  split; [|eauto].
  cbn [steps] in H2.
  destruct (step py_internals ops st_pre (ILabel l)) as [st2|] eqn:E; [|done].
  destruct (steps_quiet _ _ _ H2 Hr) as [Hr2 _].
  destruct (step_quiet _ _ _ E Hr2) as (_ & _ & Hl).
  specialize (Hl l eq_refl). rewrite Hla1 in Hl. simpl in Hl, Ho1, Ha1.
  rewrite Hl. f_equal. rewrite Ho1 in *. simpl in *. lia.
Qed.

End LastPass.

(** ** Label addresses from one pass to the next *)

(** C3, as the code has it.  When no opcode is both a relative and an
    absolute jump and no label is an element of the sequence twice, a pass
    of [while retry] lowers the address of no label: the address that the
    pass leaves in [label_address] for a label is not smaller than the
    address with which the pass started, which the pass before recorded;
    and at the one label element where line 194 records, or line 192
    finds, the address of the label, that address is the one the pass
    leaves and is not smaller than the one of the pass before. *)
Theorem label_addresses_monotone py_internals ops la st :
  disjoint_jumps py_internals -> NoDup (labels_of ops) ->
  reached py_internals ops la ->
  pass py_internals ops la = Next st ->
  (forall l a, la !! l = Some a ->
     exists a', label_address st !! l = Some a' /\ a <= a')
  /\ (forall pre l post st_pre a,
        ops = pre ++ ILabel l :: post ->
        steps py_internals ops pre (pass_start la) = Next st_pre ->
        la !! l = Some a ->
        label_address st !! l = Some (address st_pre) /\ a <= address st_pre).
Proof.
  intros Hdisj Hnd Hr H.
  assert (Hend : forall l a, la !! l = Some a ->
                   exists a', label_address st !! l = Some a' /\ a <= a').
  { intros l a Hl.
    destruct (reached_addr_le py_internals ops Hdisj la st Hr H l a Hl)
      as (b & ? & ? & _). eauto. }
  split; [done|].
  intros pre l post st_pre a Hops Hpre Hl.
  assert (Hrec : label_address st !! l = Some (address st_pre)).
  { unfold pass in H. fold (pass_start la) in H.
    pose proof H as H'. rewrite Hops in H' at 2.
    apply steps_split in H' as (st0 & H0 & Hpost).
    rewrite Hpre in H0. injection H0 as <-.
    cbn [steps] in Hpost.
    destruct (step_label py_internals ops st_pre l) as (st1 & E & Hla & _).
    rewrite E in Hpost.
    rewrite (steps_label_keep py_internals ops post l st1 st Hpost).
    - by rewrite Hla, lookup_insert_eq.
    - rewrite Hops in Hnd. unfold labels_of in Hnd. rewrite omap_app in Hnd.
      apply NoDup_app in Hnd as (_ & _ & Hnd). cbn [omap] in Hnd.
      by apply NoDup_cons in Hnd as [? _]. }
  split; [done|].
  destruct (Hend l a Hl) as (a' & Ha' & Hle). congruence.
Qed.

Lemma label_addresses_monotone_witness :
  (exists a',
     label_address (mkPass [x6e; x01; x00; x09] {[0%nat := 4]} false 4) !! 0%nat
     = Some a' /\ 4 <= a')
  /\ label_address (mkPass [x6e; x01; x00; x09] {[0%nat := 4]} false 4) !! 0%nat
     = Some (address (mkPass [x6e; x01; x00; x09] {[0%nat := 4]} false 4))
  /\ 4 <= address (mkPass [x6e; x01; x00; x09] {[0%nat := 4]} false 4).
Proof.
  destruct (label_addresses_monotone sample_internals
              [jump_forward 0%nat; nop; ILabel 0%nat] {[0%nat := 4]}
              (mkPass [x6e; x01; x00; x09] {[0%nat := 4]} false 4)
              sample_disjoint_jumps (NoDup_singleton 0%nat)) as [H1 H2].
  - refine (reached_retry sample_internals [jump_forward 0%nat; nop; ILabel 0%nat]
              ∅ (mkPass [x09] {[0%nat := 4]} true 4) _ _ _).
    + apply reached_first.
    + reflexivity.
    + reflexivity.
  - reflexivity.
  - split.
    + apply (H1 0%nat 4). reflexivity.
    + apply (H2 [jump_forward 0%nat; nop] 0%nat []
               (mkPass [x6e; x01; x00; x09] {[0%nat := 4]} false 4) 4);
        reflexivity.
Defined.

(** C3 as the specification words it.  With the opcode table of CPython
    2.7, the first pass over [L; NOP; L] records the label at 0 and then at
    1; the second pass starts with 1 and, at its first element, records the
    label at 0. *)
Lemma label_twice_lowers_address :
  disjoint_jumps sample_internals
  /\ exists st1 st2,
       pass sample_internals label_twice ∅ = Next st1
       /\ retry st1 = true
       /\ label_address st1 !! 0%nat = Some 1
       /\ step sample_internals label_twice (pass_start (label_address st1))
            (ILabel 0%nat) = Next st2
       /\ label_address st2 !! 0%nat = Some 0
       /\ 0 < 1.
Proof.
  split; [apply sample_disjoint_jumps|].
  eexists _, _. split; [apply label_twice_pass|].
  cbn [retry label_address]. split; [done|].
  split; [by rewrite lookup_insert_eq|].
  unfold pass_start. split; [apply step_label_eq|].
  cbn [label_address]. split; [by rewrite lookup_insert_eq|done].
Qed.

(** C2, as the code has it.  When no opcode is both a relative and an
    absolute jump and no label is an element of the sequence twice, the
    loop of [assemble] ends within [pass_bound] passes, by returning or by
    raising: no fuel from [pass_bound] on runs out.  When [assemble] returns, its last pass has left every label
    at the address recorded for it, and that address is the length of the
    output before the label: its offset in the bytes returned. *)
Theorem assemble_terminates py_internals ops :
  disjoint_jumps py_internals -> NoDup (labels_of ops) ->
  (forall fuel, (pass_bound ops <= fuel)%nat ->
                assemble py_internals fuel ops <> OutOfFuel)
  /\ forall fuel out,
       assemble py_internals fuel ops = Returns out ->
       exists st,
         pass py_internals ops (label_address st) = Next st
         /\ retry st = false /\ output st = out
         /\ forall pre l post,
              ops = pre ++ ILabel l :: post ->
              exists st_pre,
                steps py_internals ops pre (pass_start (label_address st)) = Next st_pre
                /\ label_address st !! l = Some (Z.of_nat (length (output st_pre)))
                /\ exists bs, out = output st_pre ++ bs.
Proof.
  intros Hdisj Hnd. split; [intros fuel; by apply assemble_total|].
  intros fuel out H.
  apply assemble_loop_Returns in H as (la & st & Hpass & Hr & Hout).
  assert (Hla : label_address st = la).
  { unfold pass in Hpass. by destruct (steps_quiet _ _ _ _ _ Hpass Hr) as [_ ?]. }
  exists st. rewrite Hla. split_and!; try done.
  intros pre l post Hops.
  destruct (pass_quiet_offsets _ _ _ _ _ _ _ Hpass Hr Hops) as (_ & st_pre & ? & ? & ?).
  exists st_pre. by rewrite <- Hout.
Qed.

Lemma assemble_terminates_witness :
  assemble sample_internals (pass_bound [jump_forward 0%nat; nop; ILabel 0%nat])
    [jump_forward 0%nat; nop; ILabel 0%nat] <> OutOfFuel.
Proof.
  apply (proj1 (assemble_terminates sample_internals
                  [jump_forward 0%nat; nop; ILabel 0%nat]
                  sample_disjoint_jumps (NoDup_singleton 0%nat)) _ (le_n _)).
Defined.

(** ** Running the first loop of disassemble on given bytes *)

Section ScanEvaluate.
Variable py_internals : PyInternals.
Variable ext_arg_name : string.

Lemma scan_arg_step c a b rest addr st arg d f st' :
  (have_argument py_internals <=? byte2int c) = true ->
  scan_arg py_internals st addr (byte2int c) a b = (arg, d, f) ->
  scan_op py_internals ext_arg_name st addr (byte2int c) arg d f = Ok st' ->
  scan py_internals ext_arg_name (c :: a :: b :: rest) addr st
  = scan py_internals ext_arg_name rest (addr + 3) st'.
Proof. intros H1 H2 H3. cbn [scan]. rewrite H1, H2, H3. reflexivity. Qed.

Lemma scan_noarg_eq c rest addr e d es f nm :
  (have_argument py_internals <=? byte2int c) = false ->
  getitem (opname py_internals) (byte2int c) = Ok nm ->
  nm <> ext_arg_name ->
  scan py_internals ext_arg_name (c :: rest) addr (mkScan e d es f)
  = scan py_internals ext_arg_name rest (addr + 1)
      (mkScan 0 d (es ++ [(addr, Some (mkOp nm ArgNone))]) f).
Proof.
  intros H1 H2 H3. cbn [scan]. rewrite H1. unfold scan_op.
  cbn [addr_labels fresh addr_ops]. rewrite H2.
  change (Ok nm ≫= ?k) with (k nm). cbn beta.
  by rewrite decide_False by done.
Qed.

Lemma scan_nops n : forall rest addr d es f,
  (have_argument py_internals <=? 9) = false ->
  getitem (opname py_internals) 9 = Ok "NOP" ->
  "NOP" <> ext_arg_name ->
  scan py_internals ext_arg_name (repeat x09 n ++ rest) addr (mkScan 0 d es f)
  = scan py_internals ext_arg_name rest (addr + Z.of_nat n)
      (mkScan 0 d (es ++ nop_entries addr n) f).
Proof.
  intros rest addr d es f H1 H2 H3. revert addr es.
  induction n as [|n IH]; intros addr es.
  { cbn [repeat app nop_entries]. rewrite app_nil_r. do 2 f_equal. lia. }
  cbn [repeat app nop_entries].
  rewrite (scan_noarg_eq x09 _ _ _ _ _ _ "NOP") by done.
  rewrite IH. rewrite <- app_assoc. cbn [app].
  by replace (addr + Z.of_nat (S n)) with (addr + 1 + Z.of_nat n) by lia.
Qed.

End ScanEvaluate.

Lemma splice_nops (d : gmap Z Label) n : forall a,
  (forall i, a <= i < a + Z.of_nat n -> d !! i = None) ->
  splice d (nop_entries a n) = repeat nop n.
Proof.
  induction n as [|n IH]; intros a H; [done|].
  cbn [nop_entries splice repeat]. rewrite H by lia. cbn [app].
  rewrite IH; [done|]. intros i Hi. apply H. lia.
Qed.

(** ** A relative jump that needs the extended argument *)

Section RelativeJump.
Variable py_internals : PyInternals.

(** Without the prefix, what [assemble] subtracts is what [disassemble]
    adds: the bytes emitted at the address [a] for a relative jump to [t]
    are read back, at [a], as a jump to [t]. *)
Lemma relative_jump_inverse out la r a c t :
  is_jrel py_internals c = true -> 0 <= c < 256 ->
  0 <= t - (a + 3) < 65536 ->
  exists cb lo hi,
    emit py_internals (mkPass out la r a) c (t - (a + 3))
    = Next (mkPass (out ++ [cb; lo; hi]) la r (a + 3))
    /\ byte2int cb = c
    /\ numeric_arg py_internals 0 a c lo hi = t.
Proof.
  intros Hj Hc Hv.
  destruct (emit_short py_internals (mkPass out la r a) c _ Hc Hv)
    as (cb & lo & hi & E & ? & Hlo).
  exists cb, lo, hi. split_and!; try done.
  unfold numeric_arg. rewrite Hj, Z.shiftl_mul_pow2 by lia.
  change (2 ^ 8) with 256. lia.
Qed.

(** With the prefix, it is not: the argument is computed from the address
    [a] of the prefix, the jump opcode stands at [a + 3], and the bytes are
    read back as a jump to [t + 3]. *)
Lemma relative_jump_extended out la r a c t :
  is_jrel py_internals c = true -> 0 <= c < 256 ->
  0 <= extended_arg py_internals < 256 ->
  65536 <= t - (a + 3) < 2 ^ 32 ->
  exists e h0 h1 cb l0 l1,
    emit py_internals (mkPass out la r a) c (t - (a + 3))
    = Next (mkPass (out ++ [e; h0; h1; cb; l0; l1]) la r (a + 6))
    /\ byte2int cb = c
    /\ numeric_arg py_internals
         (Z.shiftl (byte2int h0 + Z.shiftl (byte2int h1) 8) 16) (a + 3) c l0 l1
       = t + 3.
Proof.
  intros Hj Hc He Hv.
  destruct (emit_prefixed py_internals (mkPass out la r a) c _ Hc He Hv)
    as (e & h0 & h1 & cb & l0 & l1 & E & _ & Hh & ? & Hl).
  exists e, h0, h1, cb, l0, l1. split_and!; try done.
  unfold numeric_arg. rewrite Hj, !Z.shiftl_mul_pow2 by lia.
  change (2 ^ 8) with 256. change (2 ^ 16) with 65536.
  replace (byte2int h0 + byte2int h1 * 256) with (Z.shiftr (t - (a + 3)) 16) by lia.
  replace (byte2int l0 + byte2int l1 * 256) with (Z.land (t - (a + 3)) 65535) by lia.
  change 65535 with (Z.ones 16). rewrite Z.land_ones, Z.shiftr_div_pow2 by lia.
  change (2 ^ 16) with 65536.
  pose proof (Z.div_mod (t - (a + 3)) 65536). lia.
Qed.

End RelativeJump.


Section FarJump.
Variable n : nat.
Hypothesis Hn : Z.of_nat n = 65536.
Variable tail : list Item.
Variable tail_bytes : list byte.
Hypothesis Htail : forall out la r a,
  steps sample_internals (far_jump n tail) tail (mkPass out la r a)
  = Next (mkPass (out ++ tail_bytes) la r (a + Z.of_nat (length tail_bytes))).

Lemma far_jump_label : ILabel 0%nat ∈ far_jump n tail.
Proof.
  unfold far_jump. apply elem_of_cons. right. apply elem_of_app. right.
  apply list_elem_of_here.
Qed.

(** First pass: the label is unknown at the jump, three bytes are
    reserved and the label is recorded at 65539. *)
Lemma far_jump_first_pass :
  pass sample_internals (far_jump n tail) ∅
  = Next (mkPass (repeat x09 n ++ tail_bytes) {[0%nat := 65539]} true
            (65539 + Z.of_nat (length tail_bytes))).
Proof.
  unfold pass. unfold far_jump at 2. cbn [steps]. unfold jump_forward.
  rewrite (step_jump_unresolved _ _ _ _ _ _ "JUMP_FORWARD" 110 0%nat);
    [|by vm_compute|by vm_compute|by vm_compute|apply far_jump_label
     |by rewrite lookup_empty].
  rewrite steps_app. rewrite steps_nops by (by vm_compute).
  cbn [steps]. rewrite step_label_eq, Htail, Hn, lookup_empty.
  reflexivity.
Qed.

(** Second pass: the jump is by 65539 - 3 = 65536 and gets the prefix,
    which moves the label to 65542. *)
Lemma far_jump_second_pass :
  pass sample_internals (far_jump n tail) {[0%nat := 65539]}
  = Next (mkPass ([x91; x01; x00; x6e; x00; x00] ++ repeat x09 n ++ tail_bytes)
            {[0%nat := 65542]} true (65542 + Z.of_nat (length tail_bytes))).
Proof.
  unfold pass. unfold far_jump at 2. cbn [steps]. unfold jump_forward.
  rewrite (step_jump_resolved _ _ _ _ _ _ "JUMP_FORWARD" 110 0%nat 65539);
    [|by vm_compute|by vm_compute|by vm_compute|apply far_jump_label|by vm_compute].
  set (v := if is_jrel _ _ then _ else _). vm_compute in v. subst v.
  rewrite (emit_eq _ _ _ _ _ 110 65536 [x91; x01; x00; x6e; x00; x00])
    by (by vm_compute).
  rewrite steps_app. rewrite steps_nops by (by vm_compute).
  cbn [steps]. rewrite step_label_eq, Htail, Hn.
  rewrite <- !app_assoc.
  reflexivity.
Qed.

(** Third pass: the jump is by 65542 - 3 = 65539, with the address of the
    prefix as the address of the instruction; nothing moves. *)
Lemma far_jump_third_pass :
  pass sample_internals (far_jump n tail) {[0%nat := 65542]}
  = Next (mkPass ([x91; x01; x00; x6e; x03; x00] ++ repeat x09 n ++ tail_bytes)
            {[0%nat := 65542]} false (65542 + Z.of_nat (length tail_bytes))).
Proof.
  unfold pass. unfold far_jump at 2. cbn [steps]. unfold jump_forward.
  rewrite (step_jump_resolved _ _ _ _ _ _ "JUMP_FORWARD" 110 0%nat 65542);
    [|by vm_compute|by vm_compute|by vm_compute|apply far_jump_label|by vm_compute].
  set (v := if is_jrel _ _ then _ else _). vm_compute in v. subst v.
  rewrite (emit_eq _ _ _ _ _ 110 65539 [x91; x01; x00; x6e; x03; x00])
    by (by vm_compute).
  rewrite steps_app. rewrite steps_nops by (by vm_compute).
  cbn [steps]. rewrite step_label_eq, Htail, Hn.
  rewrite <- !app_assoc.
  reflexivity.
Qed.

Lemma far_jump_assemble fuel :
  assemble sample_internals (S (S (S fuel))) (far_jump n tail)
  = Returns (far_jump_code x03 n tail_bytes).
Proof.
  unfold assemble. rewrite assemble_loop_S, far_jump_first_pass.
  cbn [retry label_address].
  rewrite assemble_loop_S, far_jump_second_pass. cbn [retry label_address].
  rewrite assemble_loop_S, far_jump_third_pass. reflexivity.
Qed.

End FarJump.

Section FarJumpCode.
Variable n : nat.
Hypothesis Hn : Z.of_nat n = 65536.

Lemma sample_ext_arg_name :
  getitem (opname sample_internals) (extended_arg sample_internals) = Ok "EXTENDED_ARG".
Proof. by vm_compute. Qed.

Lemma far_jump_scan lo t tail :
  t = byte2int lo + 65542 ->
  scan sample_internals "EXTENDED_ARG" (far_jump_code lo n tail) 0 (mkScan 0 ∅ [] 0)
  = scan sample_internals "EXTENDED_ARG" tail 65542
      (mkScan 0 {[t := 0%nat]}
         ([(0, None); (3, Some (mkOp "JUMP_FORWARD" (ArgLabel 0%nat)))]
          ++ nop_entries 6 n) 1).
Proof.
  intros Ht. unfold far_jump_code. cbn [app].
  rewrite (scan_arg_step sample_internals "EXTENDED_ARG" x91 x01 x00 _ 0 _
             (ArgInt 1) ∅ 0%nat (mkScan 65536 ∅ [(0, None)] 0));
    [|by vm_compute..].
  rewrite (scan_arg_step sample_internals "EXTENDED_ARG" x6e lo x00 _ (0 + 3) _
             (ArgLabel 0%nat) {[t := 0%nat]} 1%nat
             (mkScan 0 {[t := 0%nat]}
                [(0, None); (3, Some (mkOp "JUMP_FORWARD" (ArgLabel 0%nat)))] 1));
    [|by vm_compute| |by vm_compute].
  - rewrite scan_nops by (by vm_compute).
    by replace (0 + 3 + 3 + Z.of_nat n) with 65542 by lia.
  - unfold scan_arg, numeric_arg. cbn [ext_arg addr_labels fresh].
    change (is_jrel sample_internals (byte2int x6e)) with true.
    change (is_jump sample_internals (byte2int x6e)) with true.
    cbn iota. unfold setdefault. rewrite lookup_empty.
    replace (byte2int lo + Z.shiftl (byte2int x00) 8 + 65536 + (0 + 3 + 3)) with t.
    + reflexivity.
    + change (Z.shiftl (byte2int x00) 8) with 0. lia.
Qed.

Lemma far_jump_disassemble :
  disassemble sample_internals (far_jump_code x00 n [x53])
  = Ok (far_jump n [return_value]).
Proof.
  unfold disassemble, scan_code. rewrite sample_ext_arg_name.
  change (Ok "EXTENDED_ARG" ≫= ?k) with (k "EXTENDED_ARG"). cbn beta.
  rewrite (far_jump_scan x00 65542) by reflexivity.
  rewrite (scan_noarg_eq _ _ x53 [] _ _ _ _ _ "RETURN_VALUE") by (by vm_compute).
  cbn [scan].
  change (Ok ?st ≫= ?k) with (k st). cbn beta. cbn [addr_labels addr_ops].
  rewrite !splice_app, splice_nops.
  - reflexivity.
  - intros i Hi. apply lookup_singleton_ne. lia.
Qed.

(** The bytes that [assemble] returns for a jump over the 65536 [NOP]s to
    the first of four instructions are read back as a jump to the last
    of them. *)
Lemma far_jump_moved_disassemble :
  disassemble sample_internals (far_jump_code x03 n [x09; x09; x09; x53])
  = Ok (jump_forward 0%nat
          :: repeat nop n ++ [nop; nop; nop; ILabel 0%nat; return_value]).
Proof.
  unfold disassemble, scan_code. rewrite sample_ext_arg_name.
  change (Ok "EXTENDED_ARG" ≫= ?k) with (k "EXTENDED_ARG"). cbn beta.
  rewrite (far_jump_scan x03 65545) by reflexivity.
  rewrite (scan_noarg_eq _ _ x09 _ _ _ _ _ _ "NOP") by (by vm_compute).
  rewrite (scan_noarg_eq _ _ x09 _ _ _ _ _ _ "NOP") by (by vm_compute).
  rewrite (scan_noarg_eq _ _ x09 _ _ _ _ _ _ "NOP") by (by vm_compute).
  rewrite (scan_noarg_eq _ _ x53 [] _ _ _ _ _ "RETURN_VALUE") by (by vm_compute).
  cbn [scan].
  change (Ok ?st ≫= ?k) with (k st). cbn beta. cbn [addr_labels addr_ops].
  rewrite !splice_app, splice_nops.
  - rewrite <- !app_assoc. reflexivity.
  - intros i Hi. apply lookup_singleton_ne. lia.
Qed.

End FarJumpCode.

Lemma far_jump_tail_return n out la r a :
  steps sample_internals (far_jump n [return_value]) [return_value] (mkPass out la r a)
  = Next (mkPass (out ++ [x53]) la r (a + Z.of_nat (length [x53]))).
Proof.
  unfold return_value. cbn [steps].
  by rewrite (step_noarg_eq _ _ _ _ _ _ "RETURN_VALUE" 83 x53) by (by vm_compute).
Qed.

Lemma far_jump_tail_nops n out la r a :
  steps sample_internals (far_jump n [nop; nop; nop; return_value])
    [nop; nop; nop; return_value] (mkPass out la r a)
  = Next (mkPass (out ++ [x09; x09; x09; x53]) la r
            (a + Z.of_nat (length [x09; x09; x09; x53]))).
Proof.
  unfold return_value, nop. cbn [steps].
  rewrite !(step_noarg_eq _ _ _ _ _ _ "NOP" 9 x09) by (by vm_compute).
  rewrite (step_noarg_eq _ _ _ _ _ _ "RETURN_VALUE" 83 x53) by (by vm_compute).
  rewrite <- !app_assoc. cbn [app length].
  do 2 f_equal. lia.
Qed.

(** C1 on a failing input.  The bytes [EXTENDED_ARG 1; JUMP_FORWARD 0],
    65536 times [NOP] and [RETURN_VALUE] are a forward jump by 65536 to the
    [RETURN_VALUE] at 65542.  [disassemble] reads them so; [assemble] of the
    result returns, in three passes, the jump as [JUMP_FORWARD 3] under the
    same prefix: other bytes than it was given. *)
Theorem round_trip_far_jump :
  disassemble sample_internals (far_jump_code x00 (Z.to_nat 65536) [x53])
  = Ok (far_jump (Z.to_nat 65536) [return_value])
  /\ (forall fuel,
        assemble sample_internals (S (S (S fuel))) (far_jump (Z.to_nat 65536) [return_value])
        = Returns (far_jump_code x03 (Z.to_nat 65536) [x53]))
  /\ far_jump_code x03 (Z.to_nat 65536) [x53] <> far_jump_code x00 (Z.to_nat 65536) [x53].
Proof.
  split_and!.
  - apply far_jump_disassemble. lia.
  - intros fuel. apply far_jump_assemble; [lia|]. apply far_jump_tail_return.
  - unfold far_jump_code. cbn [app]. congruence.
Qed.

Lemma far_jump_moved_ne n :
  jump_forward 0%nat :: repeat nop n ++ [nop; nop; nop; ILabel 0%nat; return_value]
  <> far_jump n [nop; nop; nop; return_value].
Proof.
  unfold far_jump. intros H. injection H as H. apply app_inv_head in H.
  discriminate H.
Qed.

(** C6 on a failing input.  For a forward jump over 65536 [NOP]s to a label
    that ends up at 65542, [assemble] computes the argument 65542 - 3 from
    the address 0 of the prefix and emits it with the opcode at the address
    3; [disassemble] adds 3 + 3 to it and finds the target 65545, three
    instructions further. *)
Theorem far_jump_not_inverse :
  (forall fuel,
     assemble sample_internals (S (S (S fuel)))
       (far_jump (Z.to_nat 65536) [nop; nop; nop; return_value])
     = Returns (far_jump_code x03 (Z.to_nat 65536) [x09; x09; x09; x53]))
  /\ disassemble sample_internals (far_jump_code x03 (Z.to_nat 65536) [x09; x09; x09; x53])
     = Ok (jump_forward 0%nat
             :: repeat nop (Z.to_nat 65536) ++ [nop; nop; nop; ILabel 0%nat; return_value])
  /\ jump_forward 0%nat
       :: repeat nop (Z.to_nat 65536) ++ [nop; nop; nop; ILabel 0%nat; return_value]
     <> far_jump (Z.to_nat 65536) [nop; nop; nop; return_value].
Proof.
  split_and!.
  - intros fuel. apply far_jump_assemble; [lia|]. apply far_jump_tail_nops.
  - apply far_jump_moved_disassemble. lia.
  - apply far_jump_moved_ne.
Qed.

(** * Further properties of the code *)

(** ** assemble: which arguments can be encoded *)

(** When the opcode and the extended-argument opcode are bytes, lines
    241-250 encode exactly the arguments from 0 to 2^32 - 1; any other
    argument makes [six.int2byte] raise before a byte is added to the
    output. *)
Theorem emit_range py_internals st op_code op_arg :
  0 <= op_code < 256 -> 0 <= extended_arg py_internals < 256 ->
  (0 <= op_arg < 2 ^ 32 ->
   exists st', emit py_internals st op_code op_arg = Next st')
  /\ (~ 0 <= op_arg < 2 ^ 32 ->
      emit py_internals st op_code op_arg = Abort ByteRangeError st).
Proof.
  intros Hc He. split.
  - intros Ha. destruct (Z.lt_ge_cases op_arg 65536).
    + destruct (emit_short py_internals st op_code op_arg) as (? & ? & ? & -> & _);
        [done|lia|eauto].
    + destruct (emit_prefixed py_internals st op_code op_arg)
        as (? & ? & ? & ? & ? & ? & -> & _); [done|done|lia|eauto].
  - intros Ha. unfold emit.
    destruct (Z.leb_spec 65536 op_arg).
    + assert (encode_op (extended_arg py_internals) (Some (Z.shiftr op_arg 16)) = None)
        as ->; [|done].
      apply encode_op_arg_None. intros [_ Hs]. apply Ha.
      rewrite Z.shiftr_div_pow2 in Hs by lia. change (2 ^ 16) with 65536 in Hs.
      pose proof (Z.div_mod op_arg 65536 ltac:(lia)).
      pose proof (Z.mod_pos_bound op_arg 65536 ltac:(lia)). lia.
    + assert (encode_op op_code (Some op_arg) = None) as ->; [|done].
      apply encode_op_arg_None. intros [_ Hs]. lia.
Qed.

Lemma emit_range_witness :
  (0 <= 70000 < 2 ^ 32 ->
   exists st', emit sample_internals (pass_start ∅) 100 70000 = Next st')
  /\ (~ 0 <= 70000 < 2 ^ 32 ->
      emit sample_internals (pass_start ∅) 100 70000
      = Abort ByteRangeError (pass_start ∅)).
Proof. apply (emit_range sample_internals (pass_start ∅) 100 70000); simpl; lia. Defined.

Lemma relative_jump_inverse_witness :
  exists cb lo hi,
    emit sample_internals (mkPass [] ∅ false 10) 110 (300 - (10 + 3))
    = Next (mkPass [cb; lo; hi] ∅ false (10 + 3))
    /\ byte2int cb = 110
    /\ numeric_arg sample_internals 0 10 110 lo hi = 300.
Proof.
  apply (relative_jump_inverse sample_internals [] ∅ false 10 110 300);
    [reflexivity|lia|lia].
Defined.

Lemma relative_jump_extended_witness :
  exists e h0 h1 cb l0 l1,
    emit sample_internals (mkPass [] ∅ false 0) 110 (70000 - (0 + 3))
    = Next (mkPass [e; h0; h1; cb; l0; l1] ∅ false (0 + 6))
    /\ byte2int cb = 110
    /\ numeric_arg sample_internals
         (Z.shiftl (byte2int h0 + Z.shiftl (byte2int h1) 8) 16) (0 + 3) 110 l0 l1
       = 70000 + 3.
Proof.
  apply (relative_jump_extended sample_internals [] ∅ false 0 110 70000);
    [reflexivity|lia|simpl; lia|lia].
Defined.

(** ** assemble: what a returned output says about the sequence *)

Lemma encode_op_arg_inv op_code op_arg bs :
  encode_op op_code (Some op_arg) = Some bs ->
  0 <= op_code < 256 /\ 0 <= op_arg < 65536.
Proof.
  intros E.
  destruct (decide (0 <= op_code < 256 /\ 0 <= op_arg < 65536)) as [|Hn]; [done|].
  apply encode_op_arg_None in Hn. congruence.
Qed.

Lemma encode_op_noarg_inv op_code bs :
  encode_op op_code None = Some bs -> 0 <= op_code < 256.
Proof.
  unfold encode_op. intros E.
  destruct (int2byte op_code) as [b|] eqn:Eb; [|done].
  apply int2byte_Some in Eb. pose proof (byte2int_range b). lia.
Qed.

(** Lines 241-250 go through only for a byte opcode and an argument of at
    most 32 bits. *)
Lemma emit_Next_range py_internals st op_code op_arg st' :
  emit py_internals st op_code op_arg = Next st' ->
  0 <= op_code < 256 /\ 0 <= op_arg < 2 ^ 32.
Proof.
  unfold emit. intros H.
  destruct (Z.leb_spec 65536 op_arg).
  - destruct (encode_op (extended_arg py_internals) _) as [bs1|] eqn:E1; [|done].
    destruct (encode_op op_code _) as [bs2|] eqn:E2; [|done].
    apply encode_op_arg_inv in E1 as [_ Hs], E2 as [? _]. split; [done|].
    rewrite Z.shiftr_div_pow2 in Hs by lia. change (2 ^ 16) with 65536 in Hs.
    pose proof (Z.div_mod op_arg 65536 ltac:(lia)).
    pose proof (Z.mod_pos_bound op_arg 65536 ltac:(lia)). lia.
  - destruct (encode_op op_code _) as [bs2|] eqn:E2; [|done].
    apply encode_op_arg_inv in E2. lia.
Qed.

(** In a pass that leaves [retry] unset, every label element of the
    sequence was recorded before the pass. *)
Lemma pass_quiet_full py_internals ops la st :
  pass py_internals ops la = Next st -> retry st = false ->
  forall l, ILabel l ∈ ops -> is_Some (la !! l).
Proof.
  unfold pass. intros H Hr l' (pre' & post' & Hsplit)%list_elem_of_split.
  pose proof H as H'. rewrite Hsplit in H' at 2.
  apply steps_split in H' as (st1 & H1 & H2).
  destruct (steps_quiet _ _ _ _ _ H2 Hr) as [Hr1 _].
  cbn [steps] in H2.
  destruct (step py_internals ops st1 (ILabel l')) as [st2|] eqn:E; [|done].
  destruct (steps_quiet _ _ _ _ _ H2 Hr) as [Hr2 _].
  destruct (step_quiet _ _ _ _ _ E Hr2) as (_ & _ & Hl').
  destruct (steps_quiet _ _ _ _ _ H1 Hr1) as [_ Hla1].
  specialize (Hl' l' eq_refl). rewrite Hla1 in Hl'. simpl in Hl'. eauto.
Qed.

Lemma steps_quiet_length py_internals ops rest : forall st st',
  steps py_internals ops rest st = Next st' -> retry st' = false ->
  (forall l, ILabel l ∈ ops -> is_Some (label_address st !! l)) ->
  (length (output st) + length (instrs_of rest) <= length (output st')
   <= length (output st) + 6 * length (instrs_of rest))%nat.
Proof.
  induction rest as [|x rest IH]; intros st st' H Hr Hfull; simpl in H.
  { simplify_eq. simpl. lia. }
  destruct (step py_internals ops st x) as [st1|] eqn:E; [|done].
  destruct (steps_quiet _ _ _ _ _ H Hr) as [Hr1 _].
  destruct (step_quiet _ _ _ _ _ E Hr1) as (_ & Hla1 & _).
  specialize (IH _ _ H Hr). rewrite Hla1 in IH. specialize (IH Hfull).
  destruct x as [o|l].
  - destruct (step_op_output _ _ _ _ _ E Hfull) as (bs & Ho & Ha).
    apply step_op_Next in E as (c & _ & _ & _ & Ha').
    pose proof (op_advance_cases py_internals (label_address st) (address st) o c).
    rewrite Ho, length_app in IH.
    change (instrs_of (IOp o :: rest)) with (o :: instrs_of rest). cbn [length]. lia.
  - destruct (step_label py_internals ops st l) as (? & E' & _ & _ & Ho & _).
    rewrite E in E'. simplify_eq. rewrite Ho in IH.
    by change (instrs_of (ILabel l :: rest)) with (instrs_of rest).
Qed.

(** A sequence without label elements is assembled in one pass: more fuel
    than one pass changes nothing, and one pass is enough. *)
Theorem assemble_label_free py_internals items fuel :
  labels_of items = [] ->
  assemble py_internals (S fuel) items = assemble py_internals 1 items
  /\ assemble py_internals 1 items <> OutOfFuel.
Proof.
  intros Hl. unfold assemble. rewrite !assemble_loop_S.
  destruct (pass py_internals items ∅) as [st|e st] eqn:E; [|done].
  destruct (retry st) eqn:Hr; [exfalso|done].
  unfold pass in E.
  destruct (steps_retry _ _ _ _ _ E) as [?|(l & Hin & _)]; try done.
  - rewrite Hl. apply NoDup_nil_2.
  - rewrite Hl in Hin. by apply elem_of_nil in Hin.
Qed.

Lemma assemble_label_free_witness :
  assemble sample_internals 5 [IOp (mkOp "LOAD_CONST" (ArgInt 1)); return_value]
  = assemble sample_internals 1 [IOp (mkOp "LOAD_CONST" (ArgInt 1)); return_value]
  /\ assemble sample_internals 1 [IOp (mkOp "LOAD_CONST" (ArgInt 1)); return_value]
     <> OutOfFuel.
Proof.
  apply (assemble_label_free sample_internals
           [IOp (mkOp "LOAD_CONST" (ArgInt 1)); return_value] 4).
  reflexivity.
Defined.

(** Label elements take no room in the output and an instruction takes
    from one to six bytes: the output that [assemble] returns has at least
    one byte and at most six bytes for each instruction of the sequence. *)
Theorem assemble_output_length py_internals items fuel out :
  assemble py_internals fuel items = Returns out ->
  (length (instrs_of items) <= length out <= 6 * length (instrs_of items))%nat.
Proof.
  intros H. apply assemble_loop_Returns in H as (la & st & Hpass & Hr & <-).
  pose proof (pass_quiet_full _ _ _ _ Hpass Hr) as Hfull.
  unfold pass in Hpass.
  pose proof (steps_quiet_length _ _ _ _ _ Hpass Hr Hfull) as Hlen.
  simpl in Hlen. lia.
Qed.

Lemma assemble_output_length_witness :
  (length (instrs_of [jump_forward 0%nat; nop; ILabel 0%nat; return_value])
   <= length [x6e; x01; x00; x09; x53]
   <= 6 * length (instrs_of [jump_forward 0%nat; nop; ILabel 0%nat; return_value]))%nat.
Proof.
  apply (assemble_output_length sample_internals
           [jump_forward 0%nat; nop; ILabel 0%nat; return_value] 2).
  reflexivity.
Defined.

(** The instruction at which the loop of a pass stands, in a pass that
    leaves [retry] unset. *)
Lemma pass_quiet_at py_internals ops la st pre x post :
  pass py_internals ops la = Next st -> retry st = false ->
  ops = pre ++ x :: post ->
  exists st1 st2,
    steps py_internals ops pre (pass_start la) = Next st1
    /\ step py_internals ops st1 x = Next st2
    /\ label_address st1 = la /\ label_address st2 = la
    /\ retry st2 = false.
Proof.
  unfold pass. fold (pass_start la). intros H Hr Hops.
  pose proof H as H'. rewrite Hops in H' at 2.
  apply steps_split in H' as (st1 & H1 & H2).
  cbn [steps] in H2.
  destruct (step py_internals ops st1 x) as [st2|] eqn:E; [|done].
  destruct (steps_quiet _ _ _ _ _ H2 Hr) as [Hr2 _].
  destruct (step_quiet _ _ _ _ _ E Hr2) as (Hr1 & Hla2 & _).
  destruct (steps_quiet _ _ _ _ _ H1 Hr1) as [_ Hla1].
  exists st1, st2. split_and!; try done. by rewrite Hla2.
Qed.

(** [assemble] returns bytes only for a sequence in which it can encode
    every instruction: none is skipped, and none is emitted with an opcode
    or an argument cut to fit. *)
Theorem assemble_Returns_encodable py_internals items fuel out :
  assemble py_internals fuel items = Returns out ->
  forall o, IOp o ∈ items -> encodable py_internals items o.
Proof.
  intros H o Hin.
  apply assemble_loop_Returns in H as (la & st & Hpass & Hr & _).
  pose proof (pass_quiet_full _ _ _ _ Hpass Hr) as Hfull.
  apply list_elem_of_split in Hin as (pre & post & Hsplit).
  destruct (pass_quiet_at _ _ _ _ _ _ _ Hpass Hr Hsplit)
    as (st1 & st2 & _ & E & Hla1 & _).
  unfold step in E. unfold encodable.
  destruct (opmap py_internals !! name o) as [op_code|]; [|done].
  exists op_code. split; [done|].
  destruct (arg o) as [|n|l].
  - destruct (Z.leb_spec (have_argument py_internals) op_code); [done|].
    destruct (encode_op op_code None) as [bs|] eqn:Eb; [|done].
    apply encode_op_noarg_inv in Eb. split; [lia|done].
  - destruct (Z.ltb_spec op_code (have_argument py_internals)); [done|].
    destruct (is_jump py_internals op_code); [done|].
    apply emit_Next_range in E. split_and!; try done; lia.
  - destruct (Z.ltb_spec op_code (have_argument py_internals)); [done|].
    destruct (is_jump py_internals op_code); [|done].
    case_bool_decide as Hl; [|done]. simpl in E.
    destruct (Hfull l Hl) as [a Ha]. rewrite Hla1, Ha in E.
    assert (0 <= op_code < 256); [|split_and!; try done; lia].
    destruct (is_jrel py_internals op_code); by apply emit_Next_range in E as [? _].
Qed.

Lemma assemble_Returns_encodable_witness :
  encodable sample_internals [jump_forward 0%nat; nop; ILabel 0%nat; return_value]
    (mkOp "JUMP_FORWARD" (ArgLabel 0%nat)).
Proof.
  apply (assemble_Returns_encodable sample_internals
           [jump_forward 0%nat; nop; ILabel 0%nat; return_value] 2
           [x6e; x01; x00; x09; x53]).
  - reflexivity.
  - apply list_elem_of_here.
Defined.

(** A relative jump is encoded as the distance from the end of the jump
    to its target, and [six.int2byte] refuses a negative one: a sequence
    with a relative jump to a label that stands before the jump is never
    assembled. *)
Theorem assemble_relative_backward py_internals pre l mid nm post op_code fuel out :
  opmap py_internals !! nm = Some op_code ->
  is_jrel py_internals op_code = true ->
  assemble py_internals fuel
    (pre ++ ILabel l :: mid ++ IOp (mkOp nm (ArgLabel l)) :: post)
  <> Returns out.
Proof.
  intros Hc Hj H.
  set (ops := pre ++ ILabel l :: mid ++ IOp (mkOp nm (ArgLabel l)) :: post) in *.
  apply assemble_loop_Returns in H as (la & st & Hpass & Hr & _).
  destruct (pass_quiet_at _ _ _ _ pre (ILabel l)
              (mid ++ IOp (mkOp nm (ArgLabel l)) :: post) Hpass Hr eq_refl)
    as (st1 & st2 & H1 & E1 & Hla1 & _ & Hr2).
  destruct (step_quiet _ _ _ _ _ E1 Hr2) as (_ & _ & Hl).
  specialize (Hl l eq_refl). rewrite Hla1 in Hl.
  destruct (pass_quiet_at _ _ _ _ (pre ++ ILabel l :: mid) (IOp (mkOp nm (ArgLabel l)))
              post Hpass Hr) as (st3 & st4 & H3 & E3 & Hla3 & _).
  { subst ops. by rewrite <- app_assoc. }
  apply steps_split in H3 as (st1' & H1' & H3).
  rewrite H1 in H1'. simplify_eq.
  cbn [steps] in H3. rewrite E1 in H3.
  destruct (step_label py_internals ops st1' l) as (? & E' & _ & Ha & _).
  rewrite E1 in E'. simplify_eq.
  apply steps_lookup in H3 as [Hle _].
  unfold step in E3. cbn [name arg] in E3. rewrite Hc in E3.
  destruct (op_code <? have_argument py_internals); [done|].
  destruct (negb (is_jump py_internals op_code)); [done|].
  destruct (negb (bool_decide (ILabel l ∈ ops))); [done|].
  rewrite Hla3, Hl, Hj in E3.
  apply emit_Next_range in E3. lia.
Qed.

Lemma assemble_relative_backward_witness :
  assemble sample_internals 3 ([] ++ ILabel 0%nat :: [nop] ++ jump_forward 0%nat :: [])
  <> Returns [x09; x6e; x00; x00].
Proof.
  apply (assemble_relative_backward sample_internals [] 0%nat [nop] "JUMP_FORWARD" []
           110 3 [x09; x6e; x00; x00]); reflexivity.
Defined.

(** ** disassemble: the result can be assembled *)

Lemma elem_of_labels_of l items : l ∈ labels_of items <-> ILabel l ∈ items.
Proof.
  unfold labels_of. rewrite list_elem_of_omap. split.
  - intros ([o|l'] & Hin & Hx); by simplify_eq.
  - intros Hin. by exists (ILabel l).
Qed.

Lemma labels_of_app l1 l2 : labels_of (l1 ++ l2) = labels_of l1 ++ labels_of l2.
Proof. apply omap_app. Qed.

(** The first loop of [disassemble] decodes each address once and keeps
    one label for an address. *)
Lemma scan_code_inv py_internals code st :
  scan_code py_internals code = Ok st ->
  NoDup (addr_ops st).*1
  /\ forall t1 t2 l, addr_labels st !! t1 = Some l ->
                     addr_labels st !! t2 = Some l -> t1 = t2.
Proof.
  unfold scan_code. intros H.
  destruct (getitem (opname py_internals) (extended_arg py_internals))
    as [nm|] eqn:En; [|done].
  simpl in H.
  destruct (scan_inv_spec py_internals nm code 0 _ (mkScan 0 ∅ [] 0) st H)
    as (stn & a' & Hn & (_ & _ & _ & Hnd & _ & Hi)); [|done].
  split_and!; simpl; try done.
  - intros e ?%elem_of_nil. done.
  - apply NoDup_nil_2.
Qed.

Lemma splice_labels_NoDup (d : gmap Z Label) es :
  NoDup es.*1 ->
  (forall t1 t2 l, d !! t1 = Some l -> d !! t2 = Some l -> t1 = t2) ->
  NoDup (labels_of (splice d es)).
Proof.
  intros Hnd Hi. induction es as [|[a op] es IH].
  { apply NoDup_nil_2. }
  rewrite fmap_cons in Hnd. apply NoDup_cons in Hnd as [Ha Hnd].
  cbn [splice]. rewrite !labels_of_app.
  assert (labels_of (match op with Some o => [IOp o] | None => [] end) = []) as ->
    by by destruct op.
  cbn [app].
  destruct (d !! a) as [l|] eqn:E; [|by apply IH].
  change (labels_of [ILabel l]) with [l]. cbn [app].
  apply NoDup_cons. split; [|by apply IH].
  intros (e & He & Hl)%elem_of_labels_of%elem_of_splice_label.
  apply Ha. simpl. rewrite <- (Hi _ _ _ Hl E). by apply list_elem_of_fmap_2.
Qed.

(** No label is an element of the result of [disassemble] twice; so, with
    a descriptor in which no opcode is both a relative and an absolute
    jump, the loop of [assemble] ends on every result of [disassemble],
    within [pass_bound] passes. *)
Theorem disassemble_assemble_ends py_internals code result :
  disassemble py_internals code = Ok result ->
  NoDup (labels_of result)
  /\ (disjoint_jumps py_internals ->
      forall fuel, (pass_bound result <= fuel)%nat ->
                   assemble py_internals fuel result <> OutOfFuel).
Proof.
  unfold disassemble. intros H.
  destruct (scan_code py_internals code) as [st|] eqn:Es; [|done].
  simpl in H. simplify_eq.
  destruct (scan_code_inv _ _ _ Es) as [Hnd Hi].
  pose proof (splice_labels_NoDup _ _ Hnd Hi) as Hl.
  split; [done|]. intros Hdisj fuel Hfuel. by apply assemble_total.
Qed.

Lemma disassemble_assemble_ends_witness :
  NoDup (labels_of [jump_forward 0%nat; nop; ILabel 0%nat; return_value])
  /\ (disjoint_jumps sample_internals ->
      forall fuel,
        (pass_bound [jump_forward 0%nat; nop; ILabel 0%nat; return_value] <= fuel)%nat ->
        assemble sample_internals fuel
          [jump_forward 0%nat; nop; ILabel 0%nat; return_value] <> OutOfFuel).
Proof.
  apply (disassemble_assemble_ends sample_internals [x6e; x01; x00; x09; x53]).
  reflexivity.
Defined.

(** ** disassemble after assemble *)

Section ScanBytes.
Variable py_internals : PyInternals.
Variable ext_arg_name : string.

(** The first loop of [disassemble] on bytes that it decodes to the end,
    followed by more bytes. *)
Lemma scan_app code1 : forall code2 a st st1,
  scan py_internals ext_arg_name code1 a st = Ok st1 ->
  scan py_internals ext_arg_name (code1 ++ code2) a st
  = scan py_internals ext_arg_name code2 (a + Z.of_nat (length code1)) st1.
Proof.
  remember (length code1) as k eqn:Hk. revert code1 Hk.
  induction k as [k IH] using lt_wf_ind. intros code1 Hk code2 a st st1 H.
  destruct code1 as [|c rest].
  { cbn [scan] in H. simplify_eq. cbn [app length]. by rewrite Z.add_0_r. }
  cbn [scan app] in H |- *.
  destruct (have_argument py_internals <=? byte2int c).
  - destruct rest as [|x [|y rest]]; try done.
    cbn [app].
    destruct (scan_arg py_internals st a (byte2int c) x y) as [[arg d] n].
    destruct (scan_op py_internals ext_arg_name st a (byte2int c) arg d n)
      as [st'|]; [|done].
    change (Ok st' ≫= ?k) with (k st') in H |- *. cbn beta in H |- *.
    rewrite (IH (length rest)) with (st1 := st1); [|simpl in Hk; lia|done|done].
    f_equal. subst k. cbn [length]. lia.
  - destruct (scan_op py_internals ext_arg_name st a (byte2int c) ArgNone _ _)
      as [st'|]; [|done].
    change (Ok st' ≫= ?k) with (k st') in H |- *. cbn beta in H |- *.
    rewrite (IH (length rest)) with (st1 := st1); [|simpl in Hk; lia|done|done].
    f_equal. subst k. cbn [length]. lia.
Qed.

(** An opcode with an integer argument, not the prefix. *)
Lemma scan_int_eq c lo hi rest addr e d es f nm :
  have_argument py_internals <= byte2int c ->
  is_jump py_internals (byte2int c) = false ->
  getitem (opname py_internals) (byte2int c) = Ok nm ->
  nm <> ext_arg_name ->
  scan py_internals ext_arg_name (c :: lo :: hi :: rest) addr (mkScan e d es f)
  = scan py_internals ext_arg_name rest (addr + 3)
      (mkScan 0 d
         (es ++ [(addr, Some (mkOp nm (ArgInt (byte2int lo + Z.shiftl (byte2int hi) 8 + e))))])
         f).
Proof.
  intros H1 H2 H3 H4. cbn [scan].
  destruct (Z.leb_spec (have_argument py_internals) (byte2int c)); [|lia].
  unfold scan_arg, numeric_arg, scan_op. rewrite H2.
  apply orb_false_iff in H2 as [-> _].
  cbn [ext_arg addr_labels fresh addr_ops]. rewrite H3.
  change (Ok nm ≫= ?k) with (k nm). cbn beta.
  by rewrite decide_False by done.
Qed.

(** The prefix opcode. *)
Lemma scan_prefix_eq c lo hi rest addr e d es f :
  have_argument py_internals <= byte2int c ->
  is_jump py_internals (byte2int c) = false ->
  getitem (opname py_internals) (byte2int c) = Ok ext_arg_name ->
  scan py_internals ext_arg_name (c :: lo :: hi :: rest) addr (mkScan e d es f)
  = scan py_internals ext_arg_name rest (addr + 3)
      (mkScan (Z.shiftl (byte2int lo + Z.shiftl (byte2int hi) 8 + e) 16) d
         (es ++ [(addr, None)]) f).
Proof.
  intros H1 H2 H3. cbn [scan].
  destruct (Z.leb_spec (have_argument py_internals) (byte2int c)); [|lia].
  unfold scan_arg, numeric_arg, scan_op. rewrite H2.
  apply orb_false_iff in H2 as [-> _].
  cbn [ext_arg addr_labels fresh addr_ops]. rewrite H3.
  change (Ok ext_arg_name ≫= ?k) with (k ext_arg_name). cbn beta.
  by rewrite decide_True by done.
Qed.

End ScanBytes.

(** The three bytes of an opcode with its argument. *)
Lemma encode_op_arg_bytes op_code op_arg bs :
  encode_op op_code (Some op_arg) = Some bs ->
  exists c lo hi, bs = [c; lo; hi] /\ byte2int c = op_code
                  /\ byte2int lo + Z.shiftl (byte2int hi) 8 = op_arg.
Proof.
  intros E. destruct (encode_op_arg_inv _ _ _ E) as [Hc Ha].
  destruct (encode_op_arg_Some _ _ Hc Ha) as (c & lo & hi & E' & ? & Hlo & Hhi).
  exists c, lo, hi. split; [congruence|]. split; [done|].
  rewrite Z.shiftl_mul_pow2 by lia. change (2 ^ 8) with 256.
  rewrite Hlo, Hhi. pose proof (lo_hi_split op_arg). lia.
Qed.

Lemma shift_split v : Z.land v 65535 + Z.shiftl (Z.shiftr v 16) 16 = v.
Proof.
  change 65535 with (Z.ones 16).
  rewrite Z.land_ones, Z.shiftr_div_pow2, Z.shiftl_mul_pow2 by lia.
  change (2 ^ 16) with 65536. pose proof (Z.div_mod v 65536). lia.
Qed.

Section Decode.
Variable py_internals : PyInternals.
Variable ext_arg_name : string.
Variable ops : list Item.
Hypothesis Hext :
  getitem (opname py_internals) (extended_arg py_internals) = Ok ext_arg_name.
Hypothesis Hge : have_argument py_internals <= extended_arg py_internals.
Hypothesis Hnj : is_jump py_internals (extended_arg py_internals) = false.
Hypothesis Hnolabel : forall l, ILabel l ∉ ops.

(** The bytes that lines 241-250 add to the output are decoded as the
    instruction they were emitted for. *)
Lemma emit_scan st c v st' nm a0 s0 d es f :
  emit py_internals st c v = Next st' ->
  have_argument py_internals <= c -> is_jump py_internals c = false ->
  getitem (opname py_internals) c = Ok nm -> nm <> ext_arg_name ->
  scan py_internals ext_arg_name (output st) a0 s0 = Ok (mkScan 0 d es f) ->
  exists es',
    scan py_internals ext_arg_name (output st') a0 s0 = Ok (mkScan 0 d (es ++ es') f)
    /\ splice ∅ es' = [IOp (mkOp nm (ArgInt v))].
Proof.
  unfold emit. intros H Hc Hj Hnm Hne Hscan.
  destruct (65536 <=? v).
  - destruct (encode_op (extended_arg py_internals) _) as [bs1|] eqn:E1; [|done].
    destruct (encode_op c _) as [bs2|] eqn:E2; [|done].
    simplify_eq. cbn [output].
    apply encode_op_arg_bytes in E1 as (e & h0 & h1 & -> & He & Hh).
    apply encode_op_arg_bytes in E2 as (cb & l0 & l1 & -> & Hcb & Hl).
    rewrite <- app_assoc. rewrite (scan_app _ _ _ _ _ _ _ Hscan). cbn [app].
    rewrite scan_prefix_eq by (rewrite ?He; done).
    rewrite (scan_int_eq _ _ _ _ _ _ _ _ _ _ _ nm) by (rewrite ?Hcb; done).
    cbn [scan]. rewrite <- app_assoc. eexists. split; [reflexivity|].
    cbn [splice app]. rewrite !lookup_empty. cbn [app].
    by rewrite Z.add_0_r, Hh, Hl, shift_split.
  - destruct (encode_op c _) as [bs2|] eqn:E2; [|done].
    simplify_eq. cbn [output].
    apply encode_op_arg_bytes in E2 as (cb & l0 & l1 & -> & Hcb & Hl).
    rewrite (scan_app _ _ _ _ _ _ _ Hscan).
    rewrite (scan_int_eq _ _ _ _ _ _ _ _ _ _ _ nm) by (rewrite ?Hcb; done).
    cbn [scan]. eexists. split; [reflexivity|].
    cbn [splice app]. rewrite !lookup_empty. cbn [app].
    by rewrite Z.add_0_r, Hl.
Qed.

(** The output of the loop of a pass over instructions is decoded as
    these instructions. *)
Lemma steps_scan rest : forall st st' a0 s0 es f,
  steps py_internals ops rest st = Next st' ->
  (forall x, x ∈ rest -> x ∈ ops) ->
  (forall o c, IOp o ∈ rest -> opmap py_internals !! name o = Some c ->
               getitem (opname py_internals) c = Ok (name o)
               /\ name o <> ext_arg_name) ->
  scan py_internals ext_arg_name (output st) a0 s0 = Ok (mkScan 0 ∅ es f) ->
  exists es',
    scan py_internals ext_arg_name (output st') a0 s0 = Ok (mkScan 0 ∅ (es ++ es') f)
    /\ splice ∅ es' = rest.
Proof.
  induction rest as [|x rest IH]; intros st st' a0 s0 es f H Hsub Hnames Hscan.
  { cbn [steps] in H. simplify_eq. exists []. by rewrite app_nil_r. }
  cbn [steps] in H.
  destruct (step py_internals ops st x) as [st1|] eqn:E; [|done].
  assert (Hsub' : forall y, y ∈ rest -> y ∈ ops).
  { intros y Hy. apply Hsub. by apply list_elem_of_further. }
  assert (Hnames' : forall o c, IOp o ∈ rest -> opmap py_internals !! name o = Some c ->
                      getitem (opname py_internals) c = Ok (name o)
                      /\ name o <> ext_arg_name).
  { intros o c Ho. apply Hnames. by apply list_elem_of_further. }
  destruct x as [[nm ar]|l].
  2:{ exfalso. apply (Hnolabel l), Hsub, list_elem_of_here. }
  unfold step in E. cbn [name arg] in E.
  destruct (opmap py_internals !! nm) as [c|] eqn:Ec; [|done].
  destruct (Hnames (mkOp nm ar) c (list_elem_of_here _ _) Ec) as [Hnm Hne].
  cbn [name] in Hnm, Hne.
  destruct ar as [|v|l].
  - destruct (Z.leb_spec (have_argument py_internals) c); [done|].
    unfold encode_op in E.
    destruct (int2byte c) as [cb|] eqn:Ecb; [|done]. simpl in E. simplify_eq.
    apply int2byte_Some in Ecb.
    destruct (IH _ _ a0 s0 (es ++ [(a0 + Z.of_nat (length (output st)),
                                     Some (mkOp nm ArgNone))]) f H Hsub' Hnames')
      as (es' & Hs & Hsp).
    { cbn [output]. rewrite (scan_app _ _ _ _ _ _ _ Hscan).
      rewrite (scan_noarg_eq _ _ cb [] _ _ _ _ _ nm); [done| |by rewrite Ecb|done].
      rewrite Ecb. by apply Z.leb_gt. }
    exists ((a0 + Z.of_nat (length (output st)), Some (mkOp nm ArgNone)) :: es').
    split; [by rewrite <- app_assoc in Hs|].
    cbn [splice]. rewrite lookup_empty. cbn [app]. by rewrite Hsp.
  - destruct (Z.ltb_spec c (have_argument py_internals)); [done|].
    destruct (is_jump py_internals c) eqn:Ej; [done|].
    destruct (emit_scan _ _ _ _ nm _ _ _ _ _ E ltac:(done) Ej Hnm Hne Hscan)
      as (es1 & Hs1 & Hsp1).
    destruct (IH _ _ _ _ _ _ H Hsub' Hnames' Hs1) as (es' & Hs & Hsp).
    exists (es1 ++ es'). split; [by rewrite app_assoc|].
    by rewrite splice_app, Hsp1, Hsp.
  - destruct (c <? have_argument py_internals); [done|].
    destruct (negb (is_jump py_internals c)); [done|].
    rewrite bool_decide_eq_false_2 in E by apply Hnolabel. done.
Qed.

End Decode.

(** For a sequence of instructions without labels, [disassemble] undoes
    [assemble]: when the prefix opcode of the descriptor takes an argument
    and is no jump, and [opname] gives back the name of every opcode that
    [opmap] gives for an instruction, none of them the prefix, the bytes
    that [assemble] returns are disassembled to the sequence, arguments of
    more than 16 bits, emitted behind a prefix, included. *)
Theorem disassemble_assemble py_internals items fuel code ext_arg_name :
  labels_of items = [] ->
  getitem (opname py_internals) (extended_arg py_internals) = Ok ext_arg_name ->
  have_argument py_internals <= extended_arg py_internals ->
  is_jump py_internals (extended_arg py_internals) = false ->
  (forall o c, IOp o ∈ items -> opmap py_internals !! name o = Some c ->
               getitem (opname py_internals) c = Ok (name o)
               /\ name o <> ext_arg_name) ->
  assemble py_internals fuel items = Returns code ->
  disassemble py_internals code = Ok items.
Proof.
  intros Hl Hext Hge Hnj Hnames H.
  apply assemble_loop_Returns in H as (la & st & Hpass & _ & <-).
  unfold pass in Hpass.
  assert (Hnolabel : forall l, ILabel l ∉ items).
  { intros l Hin%elem_of_labels_of. rewrite Hl in Hin. by apply elem_of_nil in Hin. }
  destruct (steps_scan py_internals ext_arg_name items Hext Hge Hnj Hnolabel) with
    (rest := items) (st := mkPass [] la false 0) (st' := st)
    (a0 := 0) (s0 := mkScan 0 ∅ [] 0) (es := @nil (Z * option Op)) (f := 0%nat)
    as (es' & Hs & Hsp); try done.
  unfold disassemble, scan_code. rewrite Hext.
  change (Ok ext_arg_name ≫= ?k) with (k ext_arg_name). cbn beta.
  rewrite Hs. simpl. by rewrite Hsp.
Qed.

Lemma disassemble_assemble_witness :
  disassemble sample_internals [x91; x01; x00; x64; x70; x11; x53]
  = Ok [IOp (mkOp "LOAD_CONST" (ArgInt 70000)); return_value].
Proof.
  apply (disassemble_assemble sample_internals
           [IOp (mkOp "LOAD_CONST" (ArgInt 70000)); return_value] 1
           [x91; x01; x00; x64; x70; x11; x53] "EXTENDED_ARG");
    [reflexivity|reflexivity|simpl; lia|reflexivity| |reflexivity].
  intros o c Hin Hc.
  apply elem_of_cons in Hin as [Hin|Hin].
  - injection Hin as ->. vm_compute in Hc. injection Hc as <-. by split.
  - apply list_elem_of_singleton in Hin. injection Hin as ->.
    vm_compute in Hc. injection Hc as <-. by split.
Defined.

(** ** assemble after disassemble *)

Lemma bytes_lo lo hi :
  Z.land (byte2int lo + Z.shiftl (byte2int hi) 8) 255 = byte2int lo.
Proof.
  pose proof (byte2int_range lo).
  rewrite Z.shiftl_mul_pow2 by lia. change 255 with (Z.ones 8).
  rewrite Z.land_ones by lia. rewrite Z.mod_add by lia. by apply Z.mod_small.
Qed.

Lemma bytes_hi lo hi :
  Z.shiftr (byte2int lo + Z.shiftl (byte2int hi) 8) 8 = byte2int hi.
Proof.
  pose proof (byte2int_range lo).
  rewrite Z.shiftl_mul_pow2, Z.shiftr_div_pow2 by lia.
  rewrite Z.div_add by lia. rewrite Z.div_small by done. lia.
Qed.

Lemma bytes_range lo hi : 0 <= byte2int lo + Z.shiftl (byte2int hi) 8 < 65536.
Proof.
  pose proof (byte2int_range lo). pose proof (byte2int_range hi).
  rewrite Z.shiftl_mul_pow2 by lia. change (2 ^ 8) with 256. lia.
Qed.

(** The argument that two bytes stand for is emitted as these bytes. *)
Lemma emit_bytes py_internals out la r a c lo hi :
  emit py_internals (mkPass out la r a) (byte2int c)
    (byte2int lo + Z.shiftl (byte2int hi) 8)
  = Next (mkPass (out ++ [c; lo; hi]) la r (a + 3)).
Proof.
  unfold emit. pose proof (bytes_range lo hi).
  destruct (Z.leb_spec 65536 (byte2int lo + Z.shiftl (byte2int hi) 8)); [lia|].
  unfold encode_op. rewrite bytes_lo, bytes_hi, !int2byte_byte2int. reflexivity.
Qed.

Lemma setdefault_lookup (d : gmap Z Label) t n l d' :
  setdefault d t n = (l, d') -> d ⊆ d' /\ d' !! t = Some l.
Proof.
  unfold setdefault. destruct (d !! t) as [x|] eqn:E; intros ?; simplify_eq.
  - done.
  - split; [by apply insert_subseteq | by rewrite lookup_insert_eq].
Qed.

(** The first loop of [disassemble] on bytes whose opcodes are known and
    are no prefix: the entries it adds lay the bytes out, and the labels
    it has made stay. *)
Lemma scan_layout py_internals ext_arg_name code : forall a st st',
  scan py_internals ext_arg_name code a st = Ok st' ->
  ext_arg st = 0 ->
  (forall c, c ∈ opcodes py_internals code ->
     exists nm, getitem (opname py_internals) c = Ok nm
                /\ opmap py_internals !! nm = Some c /\ nm <> ext_arg_name) ->
  addr_labels st ⊆ addr_labels st'
  /\ exists es, addr_ops st' = addr_ops st ++ es
                /\ layout py_internals (addr_labels st') a es code.
Proof.
  remember (length code) as k eqn:Hk. revert code Hk.
  induction k as [k IH] using lt_wf_ind. intros code Hk a st st' H Hext Hknown.
  destruct code as [|c rest].
  { cbn [scan] in H. simplify_eq. split; [done|]. exists [].
    rewrite app_nil_r. split; [done|constructor]. }
  cbn [scan opcodes] in H, Hknown.
  destruct (Z.leb_spec (have_argument py_internals) (byte2int c)) as [Hge|Hlt].
  - destruct rest as [|x [|y rest]]; try done.
    destruct (Hknown (byte2int c) (list_elem_of_here _ _)) as (nm & Hnm & Hmap & Hne).
    destruct (scan_arg py_internals st a (byte2int c) x y) as [[arg d] n] eqn:Ea.
    unfold scan_op in H. rewrite Hnm in H.
    change (Ok nm ≫= ?k) with (k nm) in H. cbn beta in H.
    rewrite decide_False in H by done.
    change (Ok ?s ≫= ?k) with (k s) in H. cbn beta in H.
    destruct (IH (length rest) ltac:(subst k; simpl; lia) rest eq_refl _ _ _ H eq_refl)
      as (Hd & es & Hes & Hlay).
    { intros c' Hc'. apply Hknown. by apply list_elem_of_further. }
    cbn [addr_labels addr_ops] in Hd, Hes.
    unfold scan_arg in Ea. rewrite Hext in Ea.
    destruct (is_jump py_internals (byte2int c)) eqn:Ej.
    + destruct (setdefault _ _ _) as [l d'] eqn:Esd. simplify_eq.
      apply setdefault_lookup in Esd as [Hsub Hl].
      split; [by etrans|].
      exists ((a, Some (mkOp nm (ArgLabel l))) :: es).
      split; [by rewrite Hes, <- app_assoc|].
      apply layout_jump; try done. by eapply lookup_weaken.
    + simplify_eq. split; [done|].
      exists ((a, Some (mkOp nm (ArgInt (byte2int x + Z.shiftl (byte2int y) 8)))) :: es).
      split.
      * rewrite Hes, <- app_assoc. cbn [app].
        replace (numeric_arg py_internals 0 a (byte2int c) x y)
          with (byte2int x + Z.shiftl (byte2int y) 8); [done|].
        unfold numeric_arg. apply orb_false_iff in Ej as [-> _]. cbn zeta. lia.
      * by apply layout_int.
  - destruct (Hknown (byte2int c) (list_elem_of_here _ _)) as (nm & Hnm & Hmap & Hne).
    unfold scan_op in H. rewrite Hnm in H.
    change (Ok nm ≫= ?k) with (k nm) in H. cbn beta in H.
    rewrite decide_False in H by done.
    change (Ok ?s ≫= ?k) with (k s) in H. cbn beta in H.
    destruct (IH (length rest) ltac:(subst k; simpl; lia) rest eq_refl _ _ _ H eq_refl)
      as (Hd & es & Hes & Hlay).
    { intros c' Hc'. apply Hknown. by apply list_elem_of_further. }
    cbn [addr_labels addr_ops] in Hd, Hes.
    split; [done|].
    exists ((a, Some (mkOp nm ArgNone)) :: es).
    split; [by rewrite Hes, <- app_assoc|]. by apply layout_noarg.
Qed.

Lemma layout_addr py_internals d a es code :
  layout py_internals d a es code -> forall e, e ∈ es -> a <= e.1.
Proof.
  induction 1 as [a|a c nm es code _ _ _ IH|a c lo hi nm es code _ _ _ _ IH
                  |a c lo hi nm l es code _ _ _ _ _ IH];
    intros e He.
  - by apply elem_of_nil in He.
  - apply elem_of_cons in He as [->|He]; [simpl; lia|]. apply IH in He. lia.
  - apply elem_of_cons in He as [->|He]; [simpl; lia|]. apply IH in He. lia.
  - apply elem_of_cons in He as [->|He]; [simpl; lia|]. apply IH in He. lia.
Qed.

Lemma splice_here_op (d : gmap Z Label) a o es :
  IOp o ∈ splice d ((a, Some o) :: es).
Proof.
  rewrite splice_cons. apply elem_of_app. left. unfold splice_entry.
  apply elem_of_app. right. apply list_elem_of_here.
Qed.

Lemma splice_here_label (d : gmap Z Label) a op es l :
  d !! a = Some l -> ILabel l ∈ splice d ((a, op) :: es).
Proof.
  intros H. apply elem_of_splice_label. exists (a, op).
  split; [apply list_elem_of_here|done].
Qed.

Lemma splice_further (d : gmap Z Label) e es x :
  x ∈ splice d es -> x ∈ splice d (e :: es).
Proof. intros H. rewrite splice_cons. apply elem_of_app. by right. Qed.

Section Reassemble.
Variable py_internals : PyInternals.
Variable d : gmap Z Label.
Variable ops : list Item.
Hypothesis Hinj :
  forall t1 t2 l, d !! t1 = Some l -> d !! t2 = Some l -> t1 = t2.
Hypothesis Hnd :
  forall o l, IOp o ∈ ops -> arg o = ArgLabel l -> ILabel l ∈ ops.

(** A label element whose address is recorded leaves the locals alone. *)
Lemma steps_label_fixed la a out r :
  (forall t l, d !! t = Some l -> ILabel l ∈ ops -> la !! l = Some t) ->
  (forall l, d !! a = Some l -> ILabel l ∈ ops) ->
  steps py_internals ops (match d !! a with Some l => [ILabel l] | None => [] end)
    (mkPass out la r a)
  = Next (mkPass out la r a).
Proof.
  intros Hla Hin. destruct (d !! a) as [l|] eqn:E; [|done].
  cbn [steps]. rewrite step_label_eq.
  rewrite (Hla a l E (Hin l eq_refl)).
  rewrite insert_id by (by apply Hla, Hin).
  rewrite bool_decide_eq_true_2 by done. by rewrite orb_false_r.
Qed.

(** A pass that starts with the address of every label emits the bytes
    that were disassembled and changes no address. *)
Lemma steps_layout_fixed la a es code :
  (forall t l, d !! t = Some l -> ILabel l ∈ ops -> la !! l = Some t) ->
  layout py_internals d a es code ->
  (forall x, x ∈ splice d es -> x ∈ ops) ->
  forall out r,
    steps py_internals ops (splice d es) (mkPass out la r a)
    = Next (mkPass (out ++ code) la r (a + Z.of_nat (length code))).
Proof.
  intros Hla Hlay.
  induction Hlay as [a|a c nm es code Hlt Hmap _ IH
                     |a c lo hi nm es code Hge Hj Hmap _ IH
                     |a c lo hi nm l es code Hge Hj Hmap Hd _ IH];
    intros Hsub out r.
  - cbn [splice steps length]. by rewrite app_nil_r, Z.add_0_r.
  - rewrite splice_cons. unfold splice_entry. cbn [fst snd].
    rewrite <- app_assoc, steps_app.
    rewrite steps_label_fixed; [|done|intros l Hl; by apply Hsub, splice_here_label].
    cbn [app steps].
    rewrite (step_noarg_eq _ _ _ _ _ _ nm (byte2int c) c);
      [|done|done|apply int2byte_byte2int].
    rewrite IH by (intros x Hx; by apply Hsub, splice_further).
    rewrite <- app_assoc. cbn [app length]. do 2 f_equal. lia.
  - rewrite splice_cons. unfold splice_entry. cbn [fst snd].
    rewrite <- app_assoc, steps_app.
    rewrite steps_label_fixed; [|done|intros l Hl; by apply Hsub, splice_here_label].
    cbn [app steps].
    assert (step py_internals ops (mkPass out la r a)
              (IOp (mkOp nm (ArgInt (byte2int lo + Z.shiftl (byte2int hi) 8))))
            = Next (mkPass (out ++ [c; lo; hi]) la r (a + 3))) as ->.
    { unfold step. cbn [name arg]. rewrite Hmap, Hj.
      destruct (Z.ltb_spec (byte2int c) (have_argument py_internals)); [lia|].
      apply emit_bytes. }
    rewrite IH by (intros x Hx; by apply Hsub, splice_further).
    rewrite <- app_assoc. cbn [app length]. do 2 f_equal. lia.
  - rewrite splice_cons. unfold splice_entry. cbn [fst snd].
    rewrite <- app_assoc, steps_app.
    rewrite steps_label_fixed; [|done|intros l' Hl; by apply Hsub, splice_here_label].
    cbn [app steps].
    assert (Hin : ILabel l ∈ ops).
    { apply (Hnd (mkOp nm (ArgLabel l))); [|done]. apply Hsub, splice_here_op. }
    rewrite (step_jump_resolved _ _ _ _ _ _ nm (byte2int c) l
               (numeric_arg py_internals 0 a (byte2int c) lo hi));
      [|done|done|done|done|by apply Hla].
    replace (if is_jrel py_internals (byte2int c)
             then numeric_arg py_internals 0 a (byte2int c) lo hi - (a + 3)
             else numeric_arg py_internals 0 a (byte2int c) lo hi)
      with (byte2int lo + Z.shiftl (byte2int hi) 8).
    2:{ unfold numeric_arg. destruct (is_jrel py_internals (byte2int c)); cbn zeta; lia. }
    rewrite emit_bytes.
    rewrite IH by (intros x Hx; by apply Hsub, splice_further).
    rewrite <- app_assoc. cbn [app length]. do 2 f_equal. lia.
Qed.

Variable es_all : list (Z * option Op).
Hypothesis Hops : ops = splice d es_all.
Hypothesis Hdisj : disjoint_jumps py_internals.

(** A label element in the first pass: its address is recorded. *)
Lemma steps_label_first la a out r (op : option Op) (es_pre : list (Z * option Op)) :
  (forall l t, la !! l = Some t -> d !! t = Some l /\ t < a) ->
  (forall e l, e ∈ es_pre -> d !! e.1 = Some l -> la !! l = Some e.1) ->
  exists la1 r1,
    steps py_internals ops (match d !! a with Some l => [ILabel l] | None => [] end)
      (mkPass out la r a)
    = Next (mkPass out la1 r1 a)
    /\ (forall l t, la1 !! l = Some t -> d !! t = Some l /\ t <= a)
    /\ (forall e l, e ∈ es_pre ++ [(a, op)] -> d !! e.1 = Some l ->
                    la1 !! l = Some e.1).
Proof.
  intros H1 H2. destruct (d !! a) as [l0|] eqn:E.
  - cbn [steps]. rewrite step_label_eq. eexists _, _. split; [done|]. split.
    + intros l t Hl. destruct (decide (l0 = l)) as [<-|Hne].
      * rewrite lookup_insert_eq in Hl. simplify_eq. split; [done|lia].
      * rewrite lookup_insert_ne in Hl by done. apply H1 in Hl. split; [tauto|lia].
    + intros e l [He| ->%list_elem_of_singleton]%elem_of_app Hd.
      * destruct (decide (l0 = l)) as [<-|Hne].
        -- rewrite (Hinj _ _ _ Hd E). by rewrite lookup_insert_eq.
        -- rewrite lookup_insert_ne by done. by apply H2.
      * simpl in Hd. rewrite E in Hd. simplify_eq. by rewrite lookup_insert_eq.
  - exists la, r. split; [done|]. split.
    + intros l t Hl. apply H1 in Hl. split; [tauto|lia].
    + intros e l [He| ->%list_elem_of_singleton]%elem_of_app Hd; [by apply H2|].
      simpl in Hd. congruence.
Qed.

(** The first pass goes through and records, for every address that has a
    label, the address. *)
Lemma steps_layout_first a es code :
  layout py_internals d a es code ->
  forall es_pre la out r,
    es_all = es_pre ++ es ->
    (forall l t, la !! l = Some t -> d !! t = Some l /\ t < a) ->
    (forall e l, e ∈ es_pre -> d !! e.1 = Some l -> la !! l = Some e.1) ->
    exists st',
      steps py_internals ops (splice d es) (mkPass out la r a) = Next st'
      /\ forall e l, e ∈ es_all -> d !! e.1 = Some l ->
                     label_address st' !! l = Some e.1.
Proof.
  intros Hlay.
  induction Hlay as [a|a c nm es code Hlt Hmap _ IH
                     |a c lo hi nm es code Hge Hj Hmap _ IH
                     |a c lo hi nm l es code Hge Hj Hmap Hd Hlay IH];
    intros es_pre la out r Hall H1 H2.
  - rewrite app_nil_r in Hall. subst es_pre. cbn [splice steps]. eauto.
  - destruct (steps_label_first la a out r (Some (mkOp nm ArgNone)) es_pre H1 H2)
      as (la1 & r1 & Hs & H1' & H2').
    rewrite splice_cons. unfold splice_entry. cbn [fst snd].
    rewrite <- app_assoc, steps_app, Hs. cbn [app steps].
    rewrite (step_noarg_eq _ _ _ _ _ _ nm (byte2int c) c);
      [|done|done|apply int2byte_byte2int].
    apply (IH (es_pre ++ [(a, Some (mkOp nm ArgNone))])); [|
      intros l t Hl; apply H1' in Hl; split; [tauto|lia] | done].
    by rewrite <- app_assoc.
  - destruct (steps_label_first la a out r
                (Some (mkOp nm (ArgInt (byte2int lo + Z.shiftl (byte2int hi) 8))))
                es_pre H1 H2) as (la1 & r1 & Hs & H1' & H2').
    rewrite splice_cons. unfold splice_entry. cbn [fst snd].
    rewrite <- app_assoc, steps_app, Hs. cbn [app steps].
    assert (step py_internals ops (mkPass out la1 r1 a)
              (IOp (mkOp nm (ArgInt (byte2int lo + Z.shiftl (byte2int hi) 8))))
            = Next (mkPass (out ++ [c; lo; hi]) la1 r1 (a + 3))) as ->.
    { unfold step. cbn [name arg]. rewrite Hmap, Hj.
      destruct (Z.ltb_spec (byte2int c) (have_argument py_internals)); [lia|].
      apply emit_bytes. }
    apply (IH (es_pre ++ [(a, Some (mkOp nm (ArgInt (byte2int lo
                                                     + Z.shiftl (byte2int hi) 8))))]));
      [|intros l t Hl; apply H1' in Hl; split; [tauto|lia] | done].
    by rewrite <- app_assoc.
  - destruct (steps_label_first la a out r (Some (mkOp nm (ArgLabel l))) es_pre H1 H2)
      as (la1 & r1 & Hs & H1' & H2').
    rewrite splice_cons. unfold splice_entry. cbn [fst snd].
    rewrite <- app_assoc, steps_app, Hs. cbn [app steps].
    assert (Hin : ILabel l ∈ ops).
    { apply (Hnd (mkOp nm (ArgLabel l))); [|done].
      rewrite Hops, Hall, splice_app. apply elem_of_app. right. apply splice_here_op. }
    pose proof (bytes_range lo hi) as Hb.
    assert (exists n st1,
              step py_internals ops (mkPass out la1 r1 a) (IOp (mkOp nm (ArgLabel l)))
              = Next (mkPass n la1 st1 (a + 3))) as (out1 & r2 & ->).
    { destruct (la1 !! l) as [t'|] eqn:El.
      - destruct (H1' _ _ El) as [Hd' Hle].
        pose proof (Hinj _ _ _ Hd' Hd) as Ht.
        destruct (is_jrel py_internals (byte2int c)) eqn:Ejr.
        { exfalso. unfold numeric_arg in Ht. rewrite Ejr in Ht. cbn zeta in Ht. lia. }
        rewrite (step_jump_resolved _ _ _ _ _ _ nm (byte2int c) l t') by done.
        rewrite Ejr, Ht. unfold numeric_arg. rewrite Ejr. cbn zeta.
        rewrite Z.add_0_r, emit_bytes. eauto.
      - rewrite (step_jump_unresolved _ _ _ _ _ _ nm (byte2int c) l) by done.
        assert ((is_jabs py_internals (byte2int c) && (65535 <? a)) = false) as ->;
          [|eauto].
        destruct (is_jrel py_internals (byte2int c)) eqn:Ejr.
        { by rewrite (Hdisj _ Ejr). }
        apply andb_false_iff. right. apply Z.ltb_ge.
        pose proof Hin as Hin'. rewrite Hops in Hin'.
        apply elem_of_splice_label in Hin' as (e' & He' & Hl').
        pose proof (Hinj _ _ _ Hl' Hd) as Ht.
        unfold numeric_arg in Ht. rewrite Ejr in Ht. cbn zeta in Ht.
        rewrite Hall in He'.
        apply elem_of_app in He' as [He'|[->|He']%elem_of_cons].
        + rewrite (H2' e' l) in El; [done| |done]. apply elem_of_app. by left.
        + rewrite (H2' (a, Some (mkOp nm (ArgLabel l))) l) in El; [done| |done].
          apply elem_of_app. right. apply list_elem_of_here.
        + apply (layout_addr _ _ _ _ _ Hlay) in He'. lia. }
    apply (IH (es_pre ++ [(a, Some (mkOp nm (ArgLabel l)))]));
      [|intros l' t Hl; apply H1' in Hl; split; [tauto|lia] | done].
    by rewrite <- app_assoc.
Qed.

End Reassemble.

(** The two passes on what [disassemble] has made of bytes without a
    prefix opcode: the first records the address of every label, the
    second emits the bytes. *)
Lemma reassemble py_internals ext_arg_name code st fuel :
  disjoint_jumps py_internals ->
  getitem (opname py_internals) (extended_arg py_internals) = Ok ext_arg_name ->
  scan_code py_internals code = Ok st ->
  (forall c, c ∈ opcodes py_internals code ->
     exists nm, getitem (opname py_internals) c = Ok nm
                /\ opmap py_internals !! nm = Some c /\ nm <> ext_arg_name) ->
  (forall o l, IOp o ∈ splice (addr_labels st) (addr_ops st) -> arg o = ArgLabel l ->
               ILabel l ∈ splice (addr_labels st) (addr_ops st)) ->
  assemble py_internals (S (S fuel)) (splice (addr_labels st) (addr_ops st))
  = Returns code.
Proof.
  intros Hdisj Hext Hsc Hknown Hnd.
  destruct (scan_code_inv _ _ _ Hsc) as [_ Hinj].
  unfold scan_code in Hsc. rewrite Hext in Hsc.
  change (Ok ext_arg_name ≫= ?k) with (k ext_arg_name) in Hsc. cbn beta in Hsc.
  destruct (scan_layout _ _ _ _ _ _ Hsc eq_refl Hknown) as (_ & es & Hes & Hlay).
  cbn [addr_ops app] in Hes. rewrite <- Hes in Hlay. clear es Hes.
  set (d := addr_labels st) in *. set (es := addr_ops st) in *.
  destruct (steps_layout_first py_internals d (splice d es) Hinj Hnd es eq_refl Hdisj
              0 es code Hlay [] ∅ [] false eq_refl) as (st1 & Hp1 & Hfull).
  { intros l t. by rewrite lookup_empty. }
  { intros e l ?%elem_of_nil. done. }
  assert (Hla1 : forall t l, d !! t = Some l -> ILabel l ∈ splice d es ->
                             label_address st1 !! l = Some t).
  { intros t l Hd (e & He & Hl)%elem_of_splice_label.
    rewrite <- (Hinj _ _ _ Hl Hd). by apply Hfull. }
  unfold assemble. rewrite assemble_loop_S. unfold pass. rewrite Hp1.
  destruct (retry st1) eqn:Hr.
  - rewrite assemble_loop_S. unfold pass.
    by rewrite (steps_layout_fixed py_internals d (splice d es) Hnd (label_address st1)
                  0 es code Hla1 Hlay (fun x H => H)).
  - destruct (steps_quiet _ _ _ _ _ Hp1 Hr) as [_ Hla]. cbn [label_address] in Hla.
    rewrite Hla in Hla1.
    rewrite (steps_layout_fixed py_internals d (splice d es) Hnd ∅
               0 es code Hla1 Hlay (fun x H => H)) in Hp1.
    by injection Hp1 as <-.
Qed.

(** For bytes without a prefix opcode, [assemble] undoes [disassemble].
    When no opcode is both a relative and an absolute jump, every opcode
    of the bytes is known to the descriptor and is not the prefix, and
    every label that a jump of the result carries is an element of the
    result, [assemble] returns the bytes, in two passes at most. *)
Theorem assemble_disassemble py_internals code result fuel :
  disjoint_jumps py_internals ->
  (forall c, c ∈ opcodes py_internals code -> known_opcode py_internals c) ->
  disassemble py_internals code = Ok result ->
  (forall o l, IOp o ∈ result -> arg o = ArgLabel l -> ILabel l ∈ result) ->
  assemble py_internals (S (S fuel)) result = Returns code.
Proof.
  intros Hdisj Hknown Hdis Hnd. unfold disassemble in Hdis.
  destruct (scan_code py_internals code) as [st|] eqn:Hsc; [|done].
  simpl in Hdis. simplify_eq.
  destruct (getitem (opname py_internals) (extended_arg py_internals))
    as [ext_arg_name|] eqn:Hext.
  2:{ unfold scan_code in Hsc. by rewrite Hext in Hsc. }
  apply (reassemble py_internals ext_arg_name); try done.
  intros c Hc. destruct (Hknown c Hc) as (nm & Hnm & Hmap & Hne).
  exists nm. split_and!; try done. congruence.
Qed.

Lemma assemble_disassemble_witness :
  assemble sample_internals 2
    [jump_forward 0%nat; ILabel 1%nat; nop; ILabel 0%nat; return_value;
     IOp (mkOp "JUMP_ABSOLUTE" (ArgLabel 1%nat))]
  = Returns [x6e; x01; x00; x09; x53; x71; x03; x00].
Proof.
  apply (assemble_disassemble sample_internals [x6e; x01; x00; x09; x53; x71; x03; x00]
           [jump_forward 0%nat; ILabel 1%nat; nop; ILabel 0%nat; return_value;
            IOp (mkOp "JUMP_ABSOLUTE" (ArgLabel 1%nat))] 0).
  - apply sample_disjoint_jumps.
  - intros c Hc. change (opcodes sample_internals _) with [110; 9; 83; 113] in Hc.
    repeat (apply elem_of_cons in Hc as [->|Hc];
      [eexists; split; [reflexivity|]; split; [reflexivity|done]|]).
    by apply elem_of_nil in Hc.
  - reflexivity.
  - intros o l Hin Harg. unfold jump_forward, nop, return_value in Hin.
    repeat (apply elem_of_cons in Hin as [Hin|Hin];
      [try discriminate Hin; injection Hin as ->; simpl in Harg;
       try discriminate Harg; injection Harg as <-|]).
    + repeat first [apply list_elem_of_here | apply list_elem_of_further].
    + repeat first [apply list_elem_of_here | apply list_elem_of_further].
    + by apply elem_of_nil in Hin.
Defined.

(** * blocks_from_ops *)

Lemma last_split (store : list Block) (cur : nat) :
  S cur = length store -> exists pre b, store = pre ++ [b] /\ cur = length pre.
Proof.
  destruct store as [|b store _] using rev_ind; [done|].
  rewrite length_app. simpl. intros H. exists store, b. split; [done|lia].
Qed.

Lemma alter_last (f : Block -> Block) pre b :
  alter f (length pre) (pre ++ [b]) = pre ++ [f b].
Proof. rewrite <- (Nat.add_0_r (length pre)). by rewrite alter_app_r. Qed.

Lemma blocks_step_current st x :
  S (current_block st) = length (store st) ->
  S (current_block (blocks_step st x)) = length (store (blocks_step st x)).
Proof.
  intros H. destruct x as [o|l]; simpl.
  - by rewrite length_alter.
  - rewrite length_app, length_alter. simpl. lia.
Qed.

(** The loop of [blocks_from_ops] from any state whose current block is
    the last one: a block is added for each label, and an instruction goes
    to the end of the last block. *)
Lemma blocks_fold items : forall st0,
  S (current_block st0) = length (store st0) ->
  label <$> store (fold_left blocks_step items st0)
  = (label <$> store st0) ++ (Some <$> labels_of items)
  /\ concat (ops <$> store (fold_left blocks_step items st0))
     = concat (ops <$> store st0) ++ instrs_of items.
Proof.
  induction items as [|x items IH]; intros st0 Hcur.
  { simpl. by rewrite !app_nil_r. }
  cbn [fold_left].
  destruct (IH (blocks_step st0 x) (blocks_step_current _ x Hcur)) as [-> ->].
  destruct (last_split _ _ Hcur) as (pre & b & Hst & Hc).
  destruct x as [o|l]; simpl; rewrite Hst, Hc, alter_last.
  - change (instrs_of (IOp o :: items)) with (o :: instrs_of items).
    change (labels_of (IOp o :: items)) with (labels_of items).
    rewrite !fmap_app, !concat_app. simpl. rewrite !app_nil_r.
    split; [done|]. by rewrite <- !app_assoc.
  - change (instrs_of (ILabel l :: items)) with (instrs_of items).
    change (labels_of (ILabel l :: items)) with (l :: labels_of items).
    rewrite !fmap_app, !concat_app. simpl. rewrite !app_nil_r.
    split; [by rewrite <- !app_assoc|done].
Qed.

(** [blocks_from_ops] makes the block without label and one block for
    each label element, in the order of the sequence, and every
    instruction is in a block: the instructions of the blocks, one block
    after the other, are the instructions of the sequence. *)
Theorem blocks_from_ops_partition items :
  label <$> store (blocks_from_ops items) = None :: (Some <$> labels_of items)
  /\ concat (ops <$> store (blocks_from_ops items)) = instrs_of items.
Proof.
  unfold blocks_from_ops.
  destruct (blocks_fold items (mkBlocks [new_block None] {[None := 0%nat]} 0%nat))
    as [-> ->]; done.
Qed.

(** What the loop of [blocks_from_ops] keeps true of the dictionary: a
    key is mapped to a block with that label, and the keys made are the
    labels met. *)
Lemma blocks_fold_lookup items : forall st0,
  (forall k h, blocks st0 !! k = Some h ->
     exists b, store st0 !! h = Some b /\ label b = k) ->
  (forall k h, blocks (fold_left blocks_step items st0) !! k = Some h ->
     exists b, store (fold_left blocks_step items st0) !! h = Some b /\ label b = k)
  /\ (forall l, is_Some (blocks (fold_left blocks_step items st0) !! Some l)
                <-> is_Some (blocks st0 !! Some l) \/ l ∈ labels_of items)
  /\ blocks (fold_left blocks_step items st0) !! None = blocks st0 !! None.
Proof.
  induction items as [|x items IH]; intros st0 H0.
  { simpl. split_and!; [done| |done]. intros l. split; [by left|].
    intros [?|?%elem_of_nil]; done. }
  cbn [fold_left].
  destruct (IH (blocks_step st0 x)) as (H1 & H2 & H3).
  { destruct x as [o|l]; simpl; intros k h Hk.
    - destruct (H0 _ _ Hk) as (b & Hb & Hl).
      rewrite list_lookup_alter. case_decide as Hh.
      + subst h. rewrite Hb. simpl. eauto.
      + eauto.
    - destruct (decide (k = Some l)) as [->|Hne].
      + rewrite lookup_insert_eq in Hk. simplify_eq.
        exists (new_block (Some l)). split; [|done].
        rewrite lookup_app_r by (by rewrite length_alter).
        by rewrite length_alter, Nat.sub_diag.
      + rewrite lookup_insert_ne in Hk by done.
        destruct (H0 _ _ Hk) as (b & Hb & Hl).
        rewrite lookup_app_l by (rewrite length_alter; by eapply lookup_lt_Some).
        rewrite list_lookup_alter. case_decide as Hh.
        * subst h. rewrite Hb. simpl. eauto.
        * eauto. }
  split_and!; [done| |].
  - intros l. rewrite H2. destruct x as [o|l']; simpl.
    + change (labels_of (IOp o :: items)) with (labels_of items). done.
    + change (labels_of (ILabel l' :: items)) with (l' :: labels_of items).
      rewrite elem_of_cons. destruct (decide (l = l')) as [->|Hne].
      * rewrite lookup_insert_eq. split; [intros _; right; by left|eauto].
      * rewrite lookup_insert_ne by congruence. split.
        -- intros [?|?]; [by left|right; by right].
        -- intros [?|[?|?]]; [by left|done|by right].
  - rewrite H3. destruct x as [o|l']; simpl; [done|]. by rewrite lookup_insert_ne.
Qed.

(** The dictionary that [blocks_from_ops] returns: the key [None] is the
    first block, the other keys are the labels that are elements of the
    sequence, and a key is mapped to a block that has it as its label. *)
Theorem blocks_from_ops_lookup items :
  blocks (blocks_from_ops items) !! None = Some 0%nat
  /\ (forall l, is_Some (blocks (blocks_from_ops items) !! Some l)
                <-> ILabel l ∈ items)
  /\ (forall k h, blocks (blocks_from_ops items) !! k = Some h ->
        exists b, store (blocks_from_ops items) !! h = Some b /\ label b = k).
Proof.
  unfold blocks_from_ops.
  destruct (blocks_fold_lookup items
              (mkBlocks [new_block None] {[None := 0%nat]} 0%nat))
    as (H1 & H2 & H3).
  { simpl. intros k h [<- <-]%lookup_singleton_Some. by exists (new_block None). }
  split_and!; [by rewrite H3|..|done].
  intros l. rewrite H2, <- elem_of_labels_of. simpl.
  rewrite lookup_singleton_ne by done. split; [intros [[? ?]|?]; done|by right].
Qed.

(** Instructions go to the current block. *)
Lemma blocks_fold_body body : forall st b,
  labels_of body = [] ->
  store st !! current_block st = Some b ->
  current_block (fold_left blocks_step body st) = current_block st
  /\ length (store (fold_left blocks_step body st)) = length (store st)
  /\ blocks (fold_left blocks_step body st) = blocks st
  /\ exists b', store (fold_left blocks_step body st) !! current_block st = Some b'
                /\ label b' = label b /\ ops b' = ops b ++ instrs_of body.
Proof.
  induction body as [|[o|l] body IH]; intros st b Hl Hb; [|
    change (labels_of (IOp o :: body)) with (labels_of body) in Hl | done].
  { simpl. split_and!; try done. exists b. by rewrite app_nil_r. }
  cbn [fold_left].
  destruct (IH (blocks_step st (IOp o)) (append_op o b) Hl) as (-> & -> & -> & b' & Hb' & ? & Ho).
  { simpl. by rewrite list_lookup_alter_eq, Hb. }
  simpl. rewrite length_alter. split_and!; try done.
  exists b'. split_and!; try done. rewrite Ho. simpl.
  change (instrs_of (IOp o :: body)) with (o :: instrs_of body).
  by rewrite <- app_assoc.
Qed.

(** A block that is not the current one, or is left at once, keeps its
    label and its instructions. *)
Lemma blocks_fold_frame items : forall st (h : nat) b,
  S (current_block st) = length (store st) ->
  store st !! h = Some b ->
  (h < current_block st)%nat \/ items = [] \/ (exists l r, items = ILabel l :: r) ->
  exists b', store (fold_left blocks_step items st) !! h = Some b'
             /\ label b' = label b /\ ops b' = ops b.
Proof.
  induction items as [|x items IH]; intros st h b Hcur Hb Hcond.
  { exists b. done. }
  cbn [fold_left]. pose proof (lookup_lt_Some _ _ _ Hb) as Hlt.
  destruct x as [o|l].
  - destruct Hcond as [Hh|[?|(? & ? & ?)]]; try done.
    apply (IH (blocks_step st (IOp o)) h b).
    + by apply blocks_step_current.
    + simpl. rewrite list_lookup_alter_ne by lia. done.
    + by left.
  - assert (exists b1, store (blocks_step st (ILabel l)) !! h = Some b1
                       /\ label b1 = label b /\ ops b1 = ops b) as (b1 & Hb1 & Hl1 & Ho1).
    { simpl. rewrite lookup_app_l by (by rewrite length_alter).
      rewrite list_lookup_alter. case_decide as Hh.
      - subst h. rewrite Hb. simpl. eauto.
      - eauto. }
    destruct (IH (blocks_step st (ILabel l)) h b1) as (b' & Hb' & Hl' & Ho').
    + by apply blocks_step_current.
    + done.
    + left. simpl. done.
    + exists b'. split_and!; [done|congruence|congruence].
Qed.

(** The key of a label that is not met stays as it is. *)
Lemma blocks_fold_keep items : forall st l,
  l ∉ labels_of items ->
  blocks (fold_left blocks_step items st) !! Some l = blocks st !! Some l.
Proof.
  induction items as [|[o|l'] items IH]; intros st l Hl; [done|..]; cbn [fold_left].
  - rewrite IH by done. done.
  - change (labels_of (ILabel l' :: items)) with (l' :: labels_of items) in Hl.
    apply not_elem_of_cons in Hl as [Hne Hl].
    rewrite IH by done. simpl. rewrite lookup_insert_ne by congruence. done.
Qed.

(** The block of a label holds the instructions between the label and the
    next label element, and the first block those before the first label
    element.  The dictionary maps a label to the block of its last
    occurrence in the sequence. *)
Theorem blocks_from_ops_block :
  (forall body rest,
     labels_of body = [] ->
     rest = [] \/ (exists l' rest', rest = ILabel l' :: rest') ->
     exists b, store (blocks_from_ops (body ++ rest)) !! 0%nat = Some b
               /\ label b = None /\ ops b = instrs_of body)
  /\ (forall pre l body rest,
        labels_of body = [] ->
        rest = [] \/ (exists l' rest', rest = ILabel l' :: rest') ->
        exists b,
          store (blocks_from_ops (pre ++ ILabel l :: body ++ rest))
            !! S (length (labels_of pre)) = Some b
          /\ label b = Some l /\ ops b = instrs_of body
          /\ (l ∉ labels_of rest ->
              blocks (blocks_from_ops (pre ++ ILabel l :: body ++ rest)) !! Some l
              = Some (S (length (labels_of pre))))).
Proof.
  split.
  - intros body rest Hbody Hrest. unfold blocks_from_ops. rewrite fold_left_app.
    set (st0 := mkBlocks [new_block None] {[None := 0%nat]} 0%nat).
    destruct (blocks_fold_body body st0 (new_block None) Hbody eq_refl)
      as (Hc & Hlen & _ & b1 & Hb1 & Hl1 & Ho1).
    destruct (blocks_fold_frame rest (fold_left blocks_step body st0) 0%nat b1)
      as (b & Hb & Hl & Ho); [by rewrite Hc, Hlen|done|tauto|].
    exists b. split_and!; [done|by rewrite Hl, Hl1|by rewrite Ho, Ho1].
  - intros pre l body rest Hbody Hrest. unfold blocks_from_ops.
    rewrite fold_left_app. cbn [fold_left]. rewrite fold_left_app.
    pose proof (blocks_from_ops_inv pre) as (_ & Hcur & _).
    pose proof (blocks_from_ops_length pre) as Hlen.
    unfold blocks_from_ops in Hcur, Hlen.
    set (st1 := fold_left blocks_step pre
                  (mkBlocks [new_block None] {[None := 0%nat]} 0%nat)) in *.
    set (st2 := blocks_step st1 (ILabel l)).
    assert (Hc2 : current_block st2 = S (length (labels_of pre))) by by rewrite <- Hlen.
    assert (Hb2 : store st2 !! current_block st2 = Some (new_block (Some l))).
    { simpl. rewrite lookup_app_r by (by rewrite length_alter).
      by rewrite length_alter, Nat.sub_diag. }
    destruct (blocks_fold_body body st2 _ Hbody Hb2)
      as (Hc3 & Hlen3 & Hbl3 & b3 & Hb3 & Hl3 & Ho3).
    destruct (blocks_fold_frame rest (fold_left blocks_step body st2)
                (current_block st2) b3) as (b & Hb & Hl & Ho); [|done|tauto|].
    { rewrite Hc3, Hlen3. by apply blocks_step_current. }
    rewrite <- Hc2. exists b. split_and!; [done|by rewrite Hl, Hl3|by rewrite Ho, Ho3|].
    intros Hnot. rewrite blocks_fold_keep by done. rewrite Hbl3.
    simpl. by rewrite lookup_insert_eq.
Qed.

Lemma blocks_from_ops_block_witness :
  exists b,
    store (blocks_from_ops ([nop] ++ ILabel 0%nat :: [return_value] ++ []))
      !! S (length (labels_of [nop])) = Some b
    /\ label b = Some 0%nat /\ ops b = instrs_of [return_value]
    /\ (0%nat ∉ labels_of [] ->
        blocks (blocks_from_ops ([nop] ++ ILabel 0%nat :: [return_value] ++ []))
          !! Some 0%nat
        = Some (S (length (labels_of [nop])))).
Proof.
  apply (proj2 blocks_from_ops_block [nop] 0%nat [return_value] []);
    [reflexivity|by left].
Defined.

(** * calculate_max_stack_depth *)

Lemma branch_depths_ge py_internals op depth max_depth td d' m' :
  branch_depths py_internals op depth max_depth = (td, d', m') -> max_depth <= m'.
Proof.
  unfold branch_depths. intros H.
  destruct (negb (Z.land (stackeffect_traits py_internals) 1 =? 0)).
  - destruct (name_in op ["FOR_ITER"]).
    + simplify_eq. lia.
    + destruct (name_in op ["SETUP_FINALLY"; "SETUP_EXCEPT"]).
      * destruct (Z.ltb_spec max_depth (depth + 3)); simplify_eq; lia.
      * simplify_eq. lia.
  - simplify_eq. lia.
Qed.

Section WalkGe.
Variable py_internals : PyInternals.
Variable rec : block_ref -> Z -> Z -> list Block -> run (Z * list Block).
Hypothesis rec_ge : forall block depth max_depth store m store',
  rec block depth max_depth store = Returns (m, store') -> max_depth <= m.

(** The loop over the instructions of a block never lowers [max_depth],
    when the calls it makes do not. *)
Lemma walk_ops_ge next_block l : forall depth max_depth store m store',
  walk_ops py_internals rec next_block l depth max_depth store = Returns (m, store') ->
  max_depth <= m.
Proof.
  induction l as [|op l IH]; intros depth max_depth store m store' H; simpl in H.
  { destruct next_block; [by eapply rec_ge|]. simplify_eq. lia. }
  destruct (effect_of py_internals op) as [effect|]; simpl in H; [|done].
  destruct (dict_get (opmap py_internals) (name op)) as [op_code|]; simpl in H; [|done].
  set (m0 := if max_depth <? depth + effect then depth + effect else max_depth) in H.
  assert (max_depth <= m0).
  { unfold m0. destruct (Z.ltb_spec max_depth (depth + effect)); lia. }
  destruct (is_jrel py_internals op_code || is_jabs py_internals op_code).
  - destruct (branch_depths py_internals op _ _) as [[td d'] m'] eqn:Eb.
    apply branch_depths_ge in Eb.
    destruct (rec (RKey (arg op)) td m' store) as [[m1 store1]| |] eqn:Er;
      simpl in H; [|done..].
    apply rec_ge in Er.
    destruct (name_in op _); [simplify_eq; lia|].
    apply IH in H. lia.
  - simpl in H. destruct (name_in op _); [simplify_eq; lia|].
    apply IH in H. lia.
Qed.

End WalkGe.

(** [walk] returns at least the [max_depth] it is given. *)
Lemma walk_ge py_internals blocks fuel : forall block depth max_depth store m store',
  walk py_internals blocks fuel block depth max_depth store = Returns (m, store') ->
  max_depth <= m.
Proof.
  induction fuel as [|fuel IH]; intros block depth max_depth store m store' H; [done|].
  simpl in H.
  destruct (resolve blocks block) as [h|]; simpl in H; [|done].
  destruct (store !! h) as [b|]; simpl in H; [|done].
  destruct (seen b || (depth <=? startdepth b)); [simplify_eq; lia|].
  destruct (walk_ops _ _ _ _ _ _ _) as [[m1 store1]| |] eqn:Ew; simpl in H; [|done..].
  simplify_eq. eapply walk_ops_ge; [|done]. apply IH.
Qed.

(** The depth that [calculate_max_stack_depth] returns is never
    negative, whatever the stack effects of the instructions are. *)
Theorem calculate_max_stack_depth_nonneg py_internals fuel items m :
  calculate_max_stack_depth py_internals fuel items = Returns m -> 0 <= m.
Proof.
  unfold calculate_max_stack_depth. intros H.
  destruct (dict_get _ _) as [h|]; simpl in H; [|done].
  destruct (reset_blocks _ _ _) as [store'| |]; simpl in H; [|done..].
  destruct (walk _ _ _ _ _ _ _) as [[m1 store1]| |] eqn:Ew; simpl in H; [|done..].
  simplify_eq. by apply walk_ge in Ew.
Qed.

Lemma calculate_max_stack_depth_nonneg_witness :
  calculate_max_stack_depth sample_internals 1
    [IOp (mkOp "POP_TOP" ArgNone); IOp (mkOp "POP_TOP" ArgNone)] = Returns 0
  /\ 0 <= 0.
Proof.
  split; [reflexivity|].
  apply (calculate_max_stack_depth_nonneg sample_internals 1
           [IOp (mkOp "POP_TOP" ArgNone); IOp (mkOp "POP_TOP" ArgNone)] 0).
  reflexivity.
Defined.

(** The loop of [walk] over instructions that are no jumps, in a block
    without successor: the highest running total of the effects. *)
Lemma walk_ops_plain py_internals rec l effects :
  Forall2 (plain_effect py_internals) l effects ->
  forall depth max_depth store,
    walk_ops py_internals rec None l depth max_depth store
    = Returns ((prefix_depths effects depth max_depth).2, store).
Proof.
  induction 1 as [|o e l effects (He & (c & Hc & Hj) & Hn) _ IH];
    intros depth max_depth store; [done|].
  cbn [walk_ops]. rewrite He. unfold dict_get. rewrite Hc. simpl.
  unfold is_jump in Hj. rewrite Hj, Hn. simpl. rewrite IH.
  unfold prefix_depths. cbn [fold_left fst snd].
  replace (if max_depth <? depth + e then depth + e else max_depth)
    with (Z.max max_depth (depth + e)); [done|].
  destruct (Z.ltb_spec max_depth (depth + e)); lia.
Qed.

(** For a sequence without labels and without jumps,
    [calculate_max_stack_depth] returns the highest running total of the
    stack effects of the instructions, and 0 when no total is positive. *)
Theorem calculate_max_stack_depth_plain py_internals items effects fuel :
  labels_of items = [] ->
  Forall2 (plain_effect py_internals) (instrs_of items) effects ->
  (1 <= fuel)%nat ->
  calculate_max_stack_depth py_internals fuel items = Returns (max_prefix_sum effects).
Proof.
  intros Hl Hplain Hfuel. unfold calculate_max_stack_depth.
  destruct (blocks_from_ops_inv items) as (Hc & _ & Hnone).
  pose proof (blocks_from_ops_length items) as Hlen. rewrite Hl in Hlen.
  assert (Hops : concat (ops <$> store (blocks_from_ops items)) = instrs_of items)
    by exact (proj2 (blocks_fold items
                       (mkBlocks [new_block None] {[None := 0%nat]} 0%nat) eq_refl)).
  unfold dict_get. rewrite Hnone. simpl.
  destruct (store (blocks_from_ops items)) as [|b [|? ?]] eqn:Es; try done.
  simpl in Hops. rewrite app_nil_r in Hops.
  pose proof (Hc 0%nat b eq_refl) as Hnext. simpl in Hnext.
  destruct fuel as [|fuel]; [lia|].
  change (reset_blocks (S fuel) (Some 0%nat) [b])
    with (reset_blocks fuel (next b) [set_startdepth (-1) (set_seen false b)]).
  rewrite Hnext.
  assert (forall s : list Block, reset_blocks fuel None s = Returns s) as ->
    by by destruct fuel.
  change (Returns ?s ≫= ?k) with (k s). cbn beta.
  cbn [walk]. unfold resolve, dict_get. rewrite Hnone.
  cbn -[walk_ops]. rewrite Hnext, Hops.
  rewrite (walk_ops_plain _ _ _ _ Hplain). done.
Qed.

Lemma calculate_max_stack_depth_plain_witness :
  calculate_max_stack_depth sample_internals 1
    [IOp (mkOp "LOAD_CONST" (ArgInt 0)); IOp (mkOp "LOAD_CONST" (ArgInt 1));
     IOp (mkOp "BINARY_ADD" ArgNone); return_value]
  = Returns (max_prefix_sum [1; 1; -1; -1]).
Proof.
  apply (calculate_max_stack_depth_plain sample_internals
           [IOp (mkOp "LOAD_CONST" (ArgInt 0)); IOp (mkOp "LOAD_CONST" (ArgInt 1));
            IOp (mkOp "BINARY_ADD" ArgNone); return_value] [1; 1; -1; -1] 1);
    [reflexivity| |lia].
  repeat (apply Forall2_cons_2;
          [split; [reflexivity|]; split; [eexists; split; reflexivity|reflexivity]|]).
  apply Forall2_nil_2.
Defined.

(** The loop that resets the marks: every block from [h] on is reset. *)
Lemma reset_blocks_spec fuel : forall (h : nat) (store : list Block),
  chained store -> (h < length store)%nat -> (length store <= h + fuel)%nat ->
  exists store',
    reset_blocks fuel (Some h) store = Returns store'
    /\ forall i, store' !! i
                 = if decide (h <= i)%nat
                   then (fun b => set_startdepth (-1) (set_seen false b)) <$> store !! i
                   else store !! i.
Proof.
  induction fuel as [|fuel IH]; intros h store Hc Hh Hfuel; [lia|].
  simpl. destruct (lookup_lt_is_Some_2 store h Hh) as [b Hb]. rewrite Hb.
  pose proof (Hc _ _ Hb) as Hnext.
  set (b' := set_startdepth (-1) (set_seen false b)).
  assert (Hc' : chained (<[h := b']> store)) by by eapply chained_insert.
  assert (Hhere : forall i, <[h := b']> store !! i
                            = if decide (h = i) then Some b' else store !! i).
  { intros i. destruct (decide (h = i)) as [<-|Hne].
    - by rewrite list_lookup_insert_eq.
    - by rewrite list_lookup_insert_ne. }
  rewrite Hnext. case_decide as Hlt.
  - destruct (IH (S h) (<[h := b']> store) Hc') as (store' & -> & Hl).
    + by rewrite length_insert.
    + rewrite length_insert. lia.
    + exists store'. split; [done|]. intros i. rewrite Hl, Hhere.
      repeat case_decide; try lia; try done. subst i. by rewrite Hb.
  - exists (<[h := b']> store). split; [by destruct fuel|].
    intros i. rewrite Hhere. repeat case_decide; try lia; try done.
    + subst i. by rewrite Hb.
    + rewrite lookup_ge_None_2 by lia. done.
Qed.

(** A block keeps its label, and its instructions as a prefix. *)
Lemma blocks_fold_prefix items : forall st (h : nat) b,
  store st !! h = Some b ->
  exists b' extra, store (fold_left blocks_step items st) !! h = Some b'
                   /\ label b' = label b /\ ops b' = ops b ++ extra.
Proof.
  induction items as [|x items IH]; intros st h b Hb.
  { exists b, []. by rewrite app_nil_r. }
  cbn [fold_left]. pose proof (lookup_lt_Some _ _ _ Hb) as Hlt.
  assert (exists b1 extra1, store (blocks_step st x) !! h = Some b1
            /\ label b1 = label b /\ ops b1 = ops b ++ extra1)
    as (b1 & extra1 & Hb1 & Hl1 & Ho1).
  { destruct x as [o|l]; simpl.
    - rewrite list_lookup_alter. case_decide as Hh.
      + subst h. rewrite Hb. simpl. exists (append_op o b), [o]. done.
      + exists b, []. by rewrite app_nil_r.
    - rewrite lookup_app_l by (by rewrite length_alter).
      rewrite list_lookup_alter. case_decide as Hh.
      + subst h. rewrite Hb. simpl. eexists _, []. by rewrite app_nil_r.
      + exists b, []. by rewrite app_nil_r. }
  destruct (IH _ _ _ Hb1) as (b' & extra & Hb' & Hl' & Ho').
  exists b', (extra1 ++ extra). split_and!; [done|congruence|].
  by rewrite Ho', Ho1, app_assoc.
Qed.

(** The loop of [walk] over instructions that are no jumps, followed by
    more instructions. *)
Lemma walk_ops_plain_app py_internals rec next_block l1 effects :
  Forall2 (plain_effect py_internals) l1 effects ->
  forall l2 depth max_depth store,
    walk_ops py_internals rec next_block (l1 ++ l2) depth max_depth store
    = walk_ops py_internals rec next_block l2
        (prefix_depths effects depth max_depth).1
        (prefix_depths effects depth max_depth).2 store.
Proof.
  induction 1 as [|o e l effects (He & (c & Hc & Hj) & Hn) _ IH];
    intros l2 depth max_depth store; [done|].
  cbn [walk_ops app]. rewrite He. unfold dict_get. rewrite Hc. simpl.
  unfold is_jump in Hj. rewrite Hj, Hn. simpl. rewrite IH.
  unfold prefix_depths. cbn [fold_left fst snd].
  replace (if max_depth <? depth + e then depth + e else max_depth)
    with (Z.max max_depth (depth + e)); [done|].
  destruct (Z.ltb_spec max_depth (depth + e)); lia.
Qed.

Lemma walk_S py_internals blocks fuel block depth max_depth store :
  walk py_internals blocks (S fuel) block depth max_depth store
  = (h ← lift (resolve blocks block);
     b ← lift (match store !! h with Some b => Ok b | None => Raise KeyError end);
     if seen b || (depth <=? startdepth b) then Returns (max_depth, store)
     else
       let store := <[h := set_startdepth depth (set_seen true b)]> store in
       r ← walk_ops py_internals (walk py_internals blocks fuel) (next b) (ops b)
             depth max_depth store;
       Returns (r.1, alter (set_seen false) h r.2)).
Proof. reflexivity. Qed.

(** [calculate_max_stack_depth] looks the target of a jump up in the
    dictionary of blocks: a jump in the first block, after instructions
    that are no jumps, to a label that is no element of the sequence makes
    it raise [KeyError]. *)
Theorem calculate_max_stack_depth_missing_label py_internals pre o l post effects e
    op_code fuel :
  labels_of pre = [] ->
  Forall2 (plain_effect py_internals) (instrs_of pre) effects ->
  effect_of py_internals o = Ok e ->
  opmap py_internals !! name o = Some op_code ->
  is_jump py_internals op_code = true ->
  arg o = ArgLabel l ->
  ILabel l ∉ pre ++ IOp o :: post ->
  (depth_fuel (pre ++ IOp o :: post) <= fuel)%nat ->
  calculate_max_stack_depth py_internals fuel (pre ++ IOp o :: post) = Raises KeyError.
Proof.
  intros Hpre Hplain He Hc Hj Harg Hnot Hfuel.
  set (items := pre ++ IOp o :: post) in *.
  unfold calculate_max_stack_depth, depth_fuel in *.
  destruct (blocks_from_ops_inv items) as (Hch & Hcur & Hnone).
  assert (Hkey : blocks (blocks_from_ops items) !! Some l = None).
  { destruct (blocks_fold_lookup items
                (mkBlocks [new_block None] {[None := 0%nat]} 0%nat)) as (_ & H2 & _).
    { simpl. intros k h [<- <-]%lookup_singleton_Some. by exists (new_block None). }
    apply eq_None_not_Some. intros Hs. apply H2 in Hs as [[? Hs]|Hs].
    - simpl in Hs. by rewrite lookup_singleton_ne in Hs.
    - by apply elem_of_labels_of in Hs. }
  assert (exists b extra, store (blocks_from_ops items) !! 0%nat = Some b
                          /\ ops b = instrs_of pre ++ o :: extra) as (b & extra & Hb & Hops).
  { unfold blocks_from_ops, items.
    rewrite (fold_left_app blocks_step pre (IOp o :: post)).
    set (st0 := mkBlocks [new_block None] {[None := 0%nat]} 0%nat).
    destruct (blocks_fold_body pre st0 (new_block None) Hpre eq_refl)
      as (Hc1 & Hlen1 & _ & b1 & Hb1 & _ & Ho1).
    cbn [fold_left].
    destruct (blocks_fold_prefix post
                (blocks_step (fold_left blocks_step pre st0) (IOp o)) 0%nat
                (append_op o b1)) as (b' & extra & Hb' & _ & Ho').
    { change (current_block st0) with 0%nat in Hc1, Hb1.
      cbn [blocks_step store]. by rewrite Hc1, list_lookup_alter_eq, Hb1. }
    exists b', extra. split; [done|]. rewrite Ho'. simpl. rewrite Ho1. simpl.
    by rewrite <- app_assoc. }
  unfold dict_get at 1. rewrite Hnone. simpl.
  destruct (reset_blocks_spec fuel 0 (store (blocks_from_ops items)) Hch)
    as (store' & -> & Hst); [lia..|].
  change (Returns store' ≫= ?k) with (k store'). cbn beta.
  pose proof (lookup_lt_Some _ _ _ Hb) as Hlen.
  destruct fuel as [|fuel]; [lia|].
  rewrite walk_S. cbn [resolve]. unfold dict_get at 1. rewrite Hnone.
  cbn [lift]. change (Returns ?s ≫= ?k) with (k s). cbn beta.
  rewrite (Hst 0%nat), Hb, decide_True by lia. cbn -[walk walk_ops].
  rewrite Hops.
  rewrite (walk_ops_plain_app _ _ _ _ _ Hplain).
  cbn [walk_ops]. rewrite He. unfold dict_get at 1. rewrite Hc.
  cbn [lift]. change (Returns ?s ≫= ?k) with (k s). cbn beta.
  change (Returns ?s ≫= ?k) with (k s). cbn beta.
  unfold is_jump in Hj. rewrite Hj.
  destruct (branch_depths py_internals o _ _) as [[td d'] m'].
  rewrite Harg. destruct fuel as [|fuel]; [lia|].
  rewrite walk_S. cbn [resolve]. unfold dict_get. rewrite Hkey. done.
Qed.

Lemma calculate_max_stack_depth_missing_label_witness :
  calculate_max_stack_depth sample_internals 2
    ([IOp (mkOp "LOAD_CONST" (ArgInt 0))] ++ IOp (mkOp "POP_JUMP_IF_TRUE" (ArgLabel 7%nat))
       :: [return_value])
  = Raises KeyError.
Proof.
  apply (calculate_max_stack_depth_missing_label sample_internals
           [IOp (mkOp "LOAD_CONST" (ArgInt 0))]
           (mkOp "POP_JUMP_IF_TRUE" (ArgLabel 7%nat)) 7%nat [return_value] [1] (-1) 115 2);
    try reflexivity.
  - apply Forall2_cons_2; [|apply Forall2_nil_2].
    split; [reflexivity|]. split; [eexists; split; reflexivity|reflexivity].
  - intros H. repeat (apply elem_of_cons in H as [H|H]; [done|]).
    by apply elem_of_nil in H.
Defined.

(** * CodeObject: disassemble, then assemble *)

Lemma stack_depth_total py_internals items fuel :
  (depth_fuel items <= fuel)%nat ->
  calculate_max_stack_depth py_internals fuel items <> OutOfFuel.
Proof.
  unfold depth_fuel. intros Hfuel.
  unfold calculate_max_stack_depth, dict_get.
  destruct (blocks_from_ops_inv items) as (Hc & Hcur & ->). simpl.
  destruct (reset_blocks_total fuel 0 (store (blocks_from_ops items)) Hc)
    as (store' & -> & Hlen); [lia..|].
  simpl.
  destruct (walk_total py_internals (blocks (blocks_from_ops items)) fuel
              (RKey ArgNone) 0 0 store') as [Hne _].
  { pose proof (unseen_le store'). lia. }
  by destruct (walk _ _ _ _ _ _ _) as [[m st]| |].
Qed.

(** [self.assemble(self.disassemble())] leaves the bytecode of a code
    object as it is and ends, by returning or by raising: for bytecode
    without the prefix opcode whose opcodes the descriptor of the object
    knows, with every jump aimed at an instruction, and a descriptor in
    which no opcode is both a relative and an absolute jump. *)
Theorem CodeObject_reassemble (PyObject : Type) (self : CodeObject PyObject) items fuel :
  disjoint_jumps (co_py_internals _ self) ->
  (forall c, c ∈ opcodes (co_py_internals _ self) (co_code _ self) ->
             known_opcode (co_py_internals _ self) c) ->
  CodeObject_disassemble _ self = Ok items ->
  (forall o l, IOp o ∈ items -> arg o = ArgLabel l -> ILabel l ∈ items) ->
  (depth_fuel items <= S (S fuel))%nat ->
  co_code _ (CodeObject_assemble _ (S (S fuel)) self items None).1 = co_code _ self
  /\ (CodeObject_assemble _ (S (S fuel)) self items None).2 <> OutOfFuel.
Proof.
  intros Hdisj Hknown Hdis Hnd Hfuel.
  assert (Hasm : assemble (co_py_internals _ self) (S (S fuel)) items
                 = Returns (co_code _ self)).
  { unfold CodeObject_disassemble, disassemble in Hdis.
    destruct (scan_code _ _) as [st|] eqn:Hsc; [|done].
    simpl in Hdis. simplify_eq.
    destruct (getitem (opname (co_py_internals _ self))
                (extended_arg (co_py_internals _ self))) as [ext_arg_name|] eqn:Hext.
    2:{ unfold scan_code in Hsc. by rewrite Hext in Hsc. }
    apply (reassemble _ ext_arg_name); try done.
    intros c Hc. destruct (Hknown c Hc) as (nm & Hnm & Hmap & Hne).
    exists nm. split_and!; try done. congruence. }
  pose proof (stack_depth_total (co_py_internals _ self) items (S (S fuel)) Hfuel) as Hd.
  unfold CodeObject_assemble. rewrite Hasm.
  destruct (calculate_max_stack_depth _ _ _) as [depth| |]; by simpl.
Qed.

Lemma CodeObject_reassemble_witness :
  co_code _
    (CodeObject_assemble unit 3
       (mkCodeObject unit 0 0 0 1 0 [x6e; x01; x00; x09; x53] [] [] [] "f" "f" 1 []
          [] [] sample_internals)
       [jump_forward 0%nat; nop; ILabel 0%nat; return_value] None).1
  = [x6e; x01; x00; x09; x53]
  /\ (CodeObject_assemble unit 3
        (mkCodeObject unit 0 0 0 1 0 [x6e; x01; x00; x09; x53] [] [] [] "f" "f" 1 []
           [] [] sample_internals)
        [jump_forward 0%nat; nop; ILabel 0%nat; return_value] None).2 <> OutOfFuel.
Proof.
  apply (CodeObject_reassemble unit
           (mkCodeObject unit 0 0 0 1 0 [x6e; x01; x00; x09; x53] [] [] [] "f" "f" 1 []
              [] [] sample_internals)
           [jump_forward 0%nat; nop; ILabel 0%nat; return_value] 1).
  - apply sample_disjoint_jumps.
  - intros c Hc. change (opcodes _ _) with [110; 9; 83] in Hc.
    repeat (apply elem_of_cons in Hc as [->|Hc];
      [eexists; split; [reflexivity|]; split; [reflexivity|done]|]).
    by apply elem_of_nil in Hc.
  - reflexivity.
  - intros o l Hin Harg. unfold jump_forward, nop, return_value in Hin.
    repeat (apply elem_of_cons in Hin as [Hin|Hin];
      [try discriminate Hin; injection Hin as ->; simpl in Harg;
       try discriminate Harg; injection Harg as <-|]).
    + repeat first [apply list_elem_of_here | apply list_elem_of_further].
    + by apply elem_of_nil in Hin.
  - vm_compute. lia.
Defined.

(** * disassemble: the exceptions it raises *)

Lemma getitem_byte {A} (l : list A) c :
  length l = 256%nat -> exists x, getitem l (byte2int c) = Ok x.
Proof.
  intros Hl. pose proof (byte2int_range c).
  assert ((byte2int c <? 0) = false) as E by (apply Z.ltb_ge; lia).
  unfold getitem. rewrite E. cbn zeta. rewrite E.
  destruct (lookup_lt_is_Some_2 l (Z.to_nat (byte2int c))) as [x ->]; [lia|eauto].
Qed.

Section ScanTotal.
Variable py_internals : PyInternals.
Variable ext_arg_name : string.
Hypothesis Hlen : length (opname py_internals) = 256%nat.
Hypothesis Hprefix : forall c,
  0 <= c < 256 -> getitem (opname py_internals) c = Ok ext_arg_name ->
  have_argument py_internals <= c /\ is_jump py_internals c = false.

(** With 256 names and a prefix opcode that takes an integer, the first
    loop of [disassemble] stops only at the end of the bytes or inside an
    instruction. *)
Lemma scan_total code : forall a st,
  if complete py_internals code
  then exists st', scan py_internals ext_arg_name code a st = Ok st'
  else scan py_internals ext_arg_name code a st = Raise StopIteration.
Proof.
  remember (length code) as k eqn:Hk. revert code Hk.
  induction k as [k IH] using lt_wf_ind. intros code Hk a st.
  destruct code as [|c rest]; [simpl; eauto|].
  cbn [complete scan].
  destruct (getitem_byte (opname py_internals) c Hlen) as [nm Hnm].
  pose proof (byte2int_range c) as Hc.
  destruct (Z.leb_spec (have_argument py_internals) (byte2int c)) as [Hge|Hlt].
  - destruct rest as [|x [|y rest]]; try done.
    destruct (scan_arg py_internals st a (byte2int c) x y) as [[arg d] n] eqn:Ea.
    assert (exists st1, scan_op py_internals ext_arg_name st a (byte2int c) arg d n
                        = Ok st1) as [st1 ->].
    { unfold scan_op. rewrite Hnm. change (Ok nm ≫= ?k) with (k nm). cbn beta.
      case_decide as Hn; [|eauto]. subst nm.
      destruct (Hprefix _ Hc Hnm) as [_ Hj].
      unfold scan_arg in Ea. rewrite Hj in Ea. simplify_eq. eauto. }
    change (Ok st1 ≫= ?k) with (k st1). cbn beta.
    apply (IH (length rest)); [subst k; simpl; lia|done].
  - assert (exists st1, scan_op py_internals ext_arg_name st a (byte2int c) ArgNone
                          (addr_labels st) (fresh st) = Ok st1) as [st1 ->].
    { unfold scan_op. rewrite Hnm. change (Ok nm ≫= ?k) with (k nm). cbn beta.
      case_decide as Hn; [|eauto]. subst nm.
      destruct (Hprefix _ Hc Hnm) as [? _]. lia. }
    change (Ok st1 ≫= ?k) with (k st1). cbn beta.
    apply (IH (length rest)); [subst k; simpl; lia|done].
Qed.

End ScanTotal.

(** With a descriptor that names 256 opcodes and whose prefix opcode
    takes an argument and is no jump, [disassemble] returns for all bytes
    that end with an instruction, and raises [StopIteration], from
    [next(code_iter)], for bytes that end inside one; it raises nothing
    else. *)
Theorem disassemble_total py_internals code ext_arg_name :
  length (opname py_internals) = 256%nat ->
  getitem (opname py_internals) (extended_arg py_internals) = Ok ext_arg_name ->
  (forall c, 0 <= c < 256 -> getitem (opname py_internals) c = Ok ext_arg_name ->
             have_argument py_internals <= c /\ is_jump py_internals c = false) ->
  if complete py_internals code
  then exists result, disassemble py_internals code = Ok result
  else disassemble py_internals code = Raise StopIteration.
Proof.
  intros Hlen Hext Hprefix. unfold disassemble, scan_code. rewrite Hext.
  change (Ok ext_arg_name ≫= ?k) with (k ext_arg_name). cbn beta.
  pose proof (scan_total py_internals ext_arg_name Hlen Hprefix code 0
                (mkScan 0 ∅ [] 0)) as H.
  destruct (complete py_internals code).
  - destruct H as [st' ->]. simpl. eauto.
  - by rewrite H.
Qed.

Lemma sample_prefix c :
  0 <= c < 256 -> getitem (opname sample_internals) c = Ok "EXTENDED_ARG" ->
  have_argument sample_internals <= c /\ is_jump sample_internals c = false.
Proof.
  intros Hc.
  assert (H : Forall (fun c => getitem (opname sample_internals) c = Ok "EXTENDED_ARG" ->
                               have_argument sample_internals <= c
                               /\ is_jump sample_internals c = false) (seqZ 0 256)).
  { apply (bool_decide_unpack _). vm_compute. exact I. }
  rewrite Forall_forall in H. apply H. apply elem_of_seqZ. lia.
Qed.

Lemma disassemble_total_witness :
  if complete sample_internals [x09; x64; x01]
  then exists result, disassemble sample_internals [x09; x64; x01] = Ok result
  else disassemble sample_internals [x09; x64; x01] = Raise StopIteration.
Proof.
  apply (disassemble_total sample_internals [x09; x64; x01] "EXTENDED_ARG");
    [reflexivity|reflexivity|apply sample_prefix].
Defined.

(** * disassemble: the instructions of the result *)

Lemma elem_of_splice_op (d : gmap Z Label) es o :
  IOp o ∈ splice d es <-> exists a, (a, Some o) ∈ es.
Proof.
  induction es as [|[a op] es IH]; simpl.
  - split; [by intros ?%elem_of_nil | by intros (a & ?%elem_of_nil)].
  - rewrite !elem_of_app, IH. split.
    + intros [H|[H|(a' & Ha')]].
      * destruct (d !! a); [|by apply elem_of_nil in H].
        by apply list_elem_of_singleton in H.
      * destruct op as [o'|]; [|by apply elem_of_nil in H].
        apply list_elem_of_singleton in H. simplify_eq.
        exists a. apply list_elem_of_here.
      * exists a'. by apply list_elem_of_further.
    + intros (a' & [Heq|Hin]%elem_of_cons).
      * simplify_eq. right. left. apply list_elem_of_here.
      * right. right. eauto.
Qed.

(** The first loop of [disassemble] makes instructions as [decoded]
    says, and its prefix value is never negative. *)
Lemma scan_decoded py_internals ext_arg_name code : forall a st st',
  scan py_internals ext_arg_name code a st = Ok st' ->
  0 <= ext_arg st ->
  (forall a o, (a, Some o) ∈ addr_ops st -> decoded py_internals o) ->
  forall a o, (a, Some o) ∈ addr_ops st' -> decoded py_internals o.
Proof.
  remember (length code) as k eqn:Hk. revert code Hk.
  induction k as [k IH] using lt_wf_ind. intros code Hk a st st' H Hext Hst.
  destruct code as [|c rest]; cbn [scan] in H.
  { by simplify_eq. }
  pose proof (byte2int_range c) as Hc.
  destruct (Z.leb_spec (have_argument py_internals) (byte2int c)) as [Hge|Hlt].
  - destruct rest as [|x [|y rest]]; try done.
    destruct (scan_arg py_internals st a (byte2int c) x y) as [[arg d] n] eqn:Ea.
    destruct (scan_op py_internals ext_arg_name st a (byte2int c) arg d n)
      as [st1|] eqn:Eo; [|done].
    change (Ok st1 ≫= ?k) with (k st1) in H. cbn beta in H.
    unfold scan_op in Eo.
    destruct (getitem (opname py_internals) (byte2int c)) as [nm|] eqn:Enm; [|done].
    change (Ok nm ≫= ?k) with (k nm) in Eo. cbn beta in Eo.
    pose proof (bytes_range x y) as Hxy.
    assert (Harg : match arg with
                   | ArgNone => False
                   | ArgInt v => is_jump py_internals (byte2int c) = false /\ 0 <= v
                   | ArgLabel _ => is_jump py_internals (byte2int c) = true
                   end).
    { unfold scan_arg, numeric_arg in Ea.
      destruct (is_jump py_internals (byte2int c)) eqn:Ej.
      - destruct (setdefault _ _ _). by simplify_eq.
      - apply orb_false_iff in Ej as [Ejr _]. rewrite Ejr in Ea. simplify_eq.
        split; [done|lia]. }
    assert (0 <= ext_arg st1
            /\ forall a' o', (a', Some o') ∈ addr_ops st1 -> decoded py_internals o')
      as [Hext1 Hst1].
    { case_decide as Hn.
      - destruct arg as [|v|]; try done. simplify_eq. simpl.
        split; [apply Z.shiftl_nonneg; tauto|].
        intros a' o' [Hin|Hin%list_elem_of_singleton]%elem_of_app; [eauto|done].
      - simplify_eq. simpl. split; [done|].
        intros a' o' [Hin|Hin%list_elem_of_singleton]%elem_of_app; [eauto|].
        simplify_eq. exists (byte2int c). split; [done|]. split; [done|]. simpl.
        destruct arg; [done|split; [done|tauto]|by split]. }
    by apply (IH (length rest) ltac:(subst k; simpl; lia) rest eq_refl _ _ _ H).
  - destruct (scan_op py_internals ext_arg_name st a (byte2int c) ArgNone _ _)
      as [st1|] eqn:Eo; [|done].
    change (Ok st1 ≫= ?k) with (k st1) in H. cbn beta in H.
    unfold scan_op in Eo.
    destruct (getitem (opname py_internals) (byte2int c)) as [nm|] eqn:Enm; [|done].
    change (Ok nm ≫= ?k) with (k nm) in Eo. cbn beta in Eo.
    case_decide; [done|]. simplify_eq.
    apply (IH (length rest) ltac:(simpl; lia) rest eq_refl _ _ _ H); [done|].
    intros a' o' Hin. simpl in Hin.
    apply elem_of_app in Hin as [Hin|Hin%list_elem_of_singleton]; [eauto|].
    simplify_eq. exists (byte2int c). split; [done|]. split; [done|]. simpl. lia.
Qed.

(** Every instruction of the result of [disassemble] has the name of an
    opcode byte, no argument if the opcode takes none, a label if it is a
    jump and a natural number otherwise.  So, when [opmap] maps the name
    of every instruction back to each opcode byte that [opname] gives the
    name to, the only sanity check of [assemble] that a result of
    [disassemble] can fail is 'Label is not part of this op list.' *)
Theorem disassemble_decoded py_internals code result :
  disassemble py_internals code = Ok result ->
  (forall o, IOp o ∈ result -> decoded py_internals o)
  /\ ((forall o c, IOp o ∈ result -> 0 <= c < 256 ->
                   getitem (opname py_internals) c = Ok (name o) ->
                   opmap py_internals !! name o = Some c) ->
      forall o e, IOp o ∈ result -> mismatch py_internals result o e ->
                  e = ValueError_label_not_in_list).
Proof.
  unfold disassemble, scan_code. intros H.
  destruct (getitem (opname py_internals) (extended_arg py_internals))
    as [nm|]; [|done].
  change (Ok nm ≫= ?k) with (k nm) in H. cbn beta in H.
  destruct (scan py_internals nm code 0 (mkScan 0 ∅ [] 0)) as [st|] eqn:Es; [|done].
  simpl in H. simplify_eq.
  assert (Hdec : forall o, IOp o ∈ splice (addr_labels st) (addr_ops st) ->
                           decoded py_internals o).
  { intros o (a & Hin)%elem_of_splice_op.
    eapply (scan_decoded _ _ _ _ _ _ Es); [done| |done].
    intros a' o' ?%elem_of_nil. done. }
  split; [done|].
  intros Hmap o e Hin (op_code & Hop & Hm).
  destruct (Hdec o Hin) as (c & Hc & Hnm & Hkind).
  rewrite (Hmap o c Hin Hc Hnm) in Hop. simplify_eq.
  destruct e; try done.
  - exfalso. destruct Hm as [Ha ?]. rewrite Ha in Hkind. lia.
  - exfalso. destruct Hm as [Ha ?]. destruct (arg o); [done|lia|lia].
  - exfalso. destruct Hm as [[l Ha] ?]. rewrite Ha in Hkind.
    destruct Hkind as [_ ?]. congruence.
  - exfalso. destruct Hm as [[n Ha] ?]. rewrite Ha in Hkind.
    destruct Hkind as (_ & ? & _). congruence.
Qed.

(** In the sample table the names of these three opcodes stand at one
    byte each, the one that [opmap] has for them. *)
Lemma sample_opmap_opname nm c :
  nm ∈ ["JUMP_FORWARD"; "NOP"; "RETURN_VALUE"] -> 0 <= c < 256 ->
  getitem (opname sample_internals) c = Ok nm ->
  opmap sample_internals !! nm = Some c.
Proof.
  intros Hnm Hc.
  assert (H : Forall (fun c =>
                Forall (fun nm => getitem (opname sample_internals) c = Ok nm ->
                                  opmap sample_internals !! nm = Some c)
                  ["JUMP_FORWARD"; "NOP"; "RETURN_VALUE"]) (seqZ 0 256)).
  { apply (bool_decide_unpack _). vm_compute. exact I. }
  rewrite Forall_forall in H. specialize (H c). rewrite Forall_forall in H.
  apply H; [|done]. apply elem_of_seqZ. lia.
Qed.

Lemma disassemble_decoded_witness :
  decoded sample_internals (mkOp "JUMP_FORWARD" (ArgLabel 0%nat))
  /\ ~ mismatch sample_internals [jump_forward 0%nat; nop; ILabel 0%nat; return_value]
        (mkOp "JUMP_FORWARD" (ArgLabel 0%nat)) ValueError_unexpected_label
  /\ ~ mismatch sample_internals [jump_forward 0%nat; nop; ILabel 0%nat; return_value]
        (mkOp "NOP" ArgNone) ValueError_requires_argument.
Proof.
  destruct (disassemble_decoded sample_internals [x6e; x01; x00; x09; x53]
              [jump_forward 0%nat; nop; ILabel 0%nat; return_value] eq_refl)
    as [H1 H2].
  assert (Hmap : forall o c,
            IOp o ∈ [jump_forward 0%nat; nop; ILabel 0%nat; return_value] ->
            0 <= c < 256 ->
            getitem (opname sample_internals) c = Ok (name o) ->
            opmap sample_internals !! name o = Some c).
  { intros o c Hin. apply sample_opmap_opname.
    unfold jump_forward, nop, return_value in Hin.
    repeat (apply elem_of_cons in Hin as [Hin|Hin];
      [try discriminate Hin; injection Hin as ->; simpl;
       repeat first [apply list_elem_of_here | apply list_elem_of_further]|]).
    by apply elem_of_nil in Hin. }
  split; [apply H1, list_elem_of_here|]. split.
  - intros Hm. by specialize (H2 Hmap _ _ (list_elem_of_here _ _) Hm).
  - intros Hm. assert (Hin : IOp (mkOp "NOP" ArgNone)
                             ∈ [jump_forward 0%nat; nop; ILabel 0%nat; return_value])
      by apply list_elem_of_further, list_elem_of_here.
    by specialize (H2 Hmap _ _ Hin Hm).
Defined.

(** * CodeObject.assemble with a descriptor *)

(** [CodeObject.assemble(ops, py_internals)] stores the descriptor in the
    object before it assembles: the object has the new descriptor however
    the call ends, also when [assemble] raises and [co_code] stays as it
    was; [co_code] is replaced as soon as [assemble] has returned, also
    when [calculate_max_stack_depth] then raises and [co_stacksize] stays
    as it was; both are computed with the new descriptor. *)
Theorem CodeObject_assemble_descriptor (PyObject : Type) fuel
    (self : CodeObject PyObject) items p :
  let self' := (CodeObject_assemble PyObject fuel self items (Some p)).1 in
  let r := (CodeObject_assemble PyObject fuel self items (Some p)).2 in
  co_py_internals _ self' = p
  /\ match assemble p fuel items with
     | Returns code =>
         co_code _ self' = code
         /\ match calculate_max_stack_depth p fuel items with
            | Returns depth => co_stacksize _ self' = depth /\ r = Returns ()
            | Raises e => co_stacksize _ self' = co_stacksize _ self /\ r = Raises e
            | OutOfFuel => co_stacksize _ self' = co_stacksize _ self /\ r = OutOfFuel
            end
     | Raises e =>
         co_code _ self' = co_code _ self
         /\ co_stacksize _ self' = co_stacksize _ self /\ r = Raises e
     | OutOfFuel =>
         co_code _ self' = co_code _ self
         /\ co_stacksize _ self' = co_stacksize _ self /\ r = OutOfFuel
     end.
Proof.
  unfold CodeObject_assemble.
  destruct (assemble p fuel items) as [code|e|]; simpl; [|done..].
  destruct (calculate_max_stack_depth p fuel items) as [depth|e|]; simpl; done.
Qed.
